(** * Hyperion: an embedded key-value store (arena + linear-probing index + seqlock)

    Shallow embedding of [arena.hpp], [index.hpp], [seqlock.hpp] and
    [hyperion.hpp].  Fixed-width integers are [Z] with their wrap-around
    written out ([u32], [u16]); [std::uint8_t] fields are [Byte.byte];
    keys, values and arena memory are bytes.

    Undefined behaviour of the C++ code (an index outside the slot array,
    an arena access outside the mapped [size_] bytes) is the [None]
    outcome of the [option] monad: no operation of the model silently
    invents a result for it.

    The store is embedded single-threaded: [SeqLock::write] runs its
    mutator once and advances the version by two, [SeqLock::read] runs its
    reader once (the version is even outside a write). *)

From Stdlib Require Import ZArith Lia Strings.String FunctionalExtensionality.
From stdpp Require Import base list options.

Open Scope Z_scope.

(** ** Machine integers *)

Definition UINT32_MAX : Z := 4294967295.

(** Unsigned 32-bit / 16-bit wrap-around. *)
Definition u32 (z : Z) : Z := z mod 2 ^ 32.
Definition u16 (z : Z) : Z := z mod 2 ^ 16.

(** Value of a byte, and [static_cast<std::uint8_t>]. *)
Definition bval (b : Byte.byte) : Z := Z.of_N (Byte.to_N b).

Definition byte_of_Z (z : Z) : Byte.byte :=
  match Byte.of_N (Z.to_N (z mod 256)) with
  | Some b => b
  | None => Byte.x00
  end.

#[global] Instance byte_eq_decision : EqDecision Byte.byte := Byte.byte_eq_dec.

(** Little-endian encoding of an [n]-byte field and its decoding. *)
Fixpoint le_bytes (n : nat) (z : Z) : list Byte.byte :=
  match n with
  | O => []
  | S n' => byte_of_Z z :: le_bytes n' (Z.shiftr z 8)
  end.

Fixpoint le_val (bs : list Byte.byte) : Z :=
  match bs with
  | [] => 0
  | b :: bs' => bval b + 256 * le_val bs'
  end.

(** ** Arena ([arena.hpp]) *)

Inductive ArenaError := AE_None | OutOfSpace | MmapFailed | TooLarge.

(** [base_] is the mapped region, seen through its contents [mem] and its
    length [size_]; [offset_] is the bump cursor. *)
Record Arena := mkArena {
  mem : Z -> Byte.byte;
  size_ : Z;
  offset_ : Z
}.

(** [Arena()]: null base, no bytes, cursor 0. *)
Definition Arena_default : Arena := mkArena (fun _ => Byte.x00) 0 0.

(** [Arena::create]; [mmap_ok] is the answer of the OS to the mapping
    request (anonymous, zero-filled). *)
Definition Arena_create (size_bytes : Z) (mmap_ok : bool) : ArenaError * Arena :=
  if UINT32_MAX <? size_bytes then (TooLarge, Arena_default)
  else if negb mmap_ok then (MmapFailed, Arena_default)
  else (AE_None, mkArena (fun _ => Byte.x00) size_bytes 8).

(** [Arena::alloc]: the cursor is bumped by [fetch_add] before the bound
    check, and the check [old_off + size > size_] is done in 32 bits.
    Returns the error, the out-parameter [out_offset] (0 when untouched)
    and the arena after the call. *)
Definition Arena_alloc (a : Arena) (size : Z) : ArenaError * Z * Arena :=
  let old_off := offset_ a in
  let a' := mkArena (mem a) (size_ a) (u32 (old_off + size)) in
  if size_ a <? u32 (old_off + size) then (OutOfSpace, 0, a')
  else (AE_None, old_off, a').

(** [ptr_at(off)] dereferenced for [n] bytes: defined inside the mapping. *)
Definition in_bounds (a : Arena) (off n : Z) : bool :=
  (0 <=? off) && (off + n <=? size_ a).

Definition rd_bytes (a : Arena) (off n : Z) : option (list Byte.byte) :=
  if in_bounds a off n
  then Some (map (fun i => mem a (off + Z.of_nat i)) (seq 0 (Z.to_nat n)))
  else None.

Definition rd_le (a : Arena) (off : Z) (n : Z) : option Z :=
  bs ← rd_bytes a off n; Some (le_val bs).

(** [memcpy(ptr_at(off), bs, |bs|)]. *)
Definition upd_mem (m : Z -> Byte.byte) (off : Z) (bs : list Byte.byte) : Z -> Byte.byte :=
  fun x => if (off <=? x) && (x <? off + Z.of_nat (length bs))
           then nth (Z.to_nat (x - off)) bs Byte.x00 else m x.

Definition wr_bytes (a : Arena) (off : Z) (bs : list Byte.byte) : option Arena :=
  if in_bounds a off (Z.of_nat (length bs))
  then Some (mkArena (upd_mem (mem a) off bs) (size_ a) (offset_ a))
  else None.

(** ** Index ([index.hpp]) *)

(** [Slot]; the 64-bit [_padding] is always written as zero and carries
    no information, it is left out. *)
Record Slot := mkSlot {
  hash_tag : Byte.byte;
  key_len : Byte.byte;
  val_len : Z;
  offset : Z
}.

Definition OFF_EMPTY : Z := 4294967295.
Definition OFF_TOMB : Z := 4294967294.

Definition Slot_empty : Slot := mkSlot Byte.x00 Byte.x00 0 OFF_EMPTY.
Definition is_empty (s : Slot) : bool := offset s =? OFF_EMPTY.
Definition is_tombstone (s : Slot) : bool := offset s =? OFF_TOMB.
Definition is_valid (s : Slot) : bool := offset s <? OFF_TOMB.
Definition make_tombstone (s : Slot) : Slot :=
  mkSlot Byte.x00 (key_len s) (val_len s) OFF_TOMB.

Record Index := mkIndex {
  slots_ : list Slot;
  capacity_ : Z;
  mask_ : Z
}.

Definition Index_default : Index := mkIndex [] 0 0.

(** [Index::next_pow2], on [std::uint32_t]. *)
Definition next_pow2 (v : Z) : Z :=
  let v := u32 (v - 1) in
  let v := Z.lor v (Z.shiftr v 1) in
  let v := Z.lor v (Z.shiftr v 2) in
  let v := Z.lor v (Z.shiftr v 4) in
  let v := Z.lor v (Z.shiftr v 8) in
  let v := Z.lor v (Z.shiftr v 16) in
  u32 (v + 1).

(** [Index::init] *)
Definition Index_init (slots : Z) : Index :=
  let cap := next_pow2 (Z.max slots 8) in
  mkIndex (repeat Slot_empty (Z.to_nat cap)) cap (u32 (cap - 1)).

(** [Index::hash]: 32-bit FNV-1a, loop over the bytes. *)
Fixpoint fnv_loop (h : Z) (data : list Byte.byte) : Z :=
  match data with
  | [] => h
  | b :: data' => fnv_loop (u32 (Z.lxor h (bval b) * 16777619)) data'
  end.

Definition Index_hash (data : list Byte.byte) : Z := fnv_loop 2166136261 data.

Definition next_idx (idx mask : Z) : Z := Z.land (u32 (idx + 1)) mask.

Definition tomb_or (first_tomb idx : Z) : Z :=
  if first_tomb =? UINT32_MAX then idx else first_tomb.

(** The probe loop of [Index::find]; [fuel] counts the remaining
    iterations of [for (i = 0; i < capacity_; ++i)]. *)
Fixpoint find_loop (sl : list Slot) (mask tag klen : Z) (keq : Slot -> option bool)
    (fuel : nat) (idx first_tomb : Z) : option (Z * bool) :=
  match fuel with
  | O => Some (tomb_or first_tomb idx, false)
  | S f =>
      s ← sl !! Z.to_nat idx;
      if is_empty s then Some (tomb_or first_tomb idx, false)
      else if is_tombstone s then
        find_loop sl mask tag klen keq f (next_idx idx mask) (tomb_or first_tomb idx)
      else if (bval (hash_tag s) =? tag) && (bval (key_len s) =? klen) then
        b ← keq s;
        if (b : bool) then Some (idx, true)
        else find_loop sl mask tag klen keq f (next_idx idx mask) first_tomb
      else find_loop sl mask tag klen keq f (next_idx idx mask) first_tomb
  end.

(** [Index::find] *)
Definition Index_find (ix : Index) (h klen : Z) (keq : Slot -> option bool)
    : option (Z * bool) :=
  let tag := Z.land (Z.shiftr h 24) 255 in
  find_loop (slots_ ix) (mask_ ix) tag klen keq (Z.to_nat (capacity_ ix))
    (Z.land h (mask_ ix)) UINT32_MAX.

(** [slots_[idx] = s]: defined for an index inside the array. *)
Definition set_slot (ix : Index) (idx : Z) (s : Slot) : option Index :=
  if (0 <=? idx) && (idx <? Z.of_nat (length (slots_ ix)))
  then Some (mkIndex (<[Z.to_nat idx := s]> (slots_ ix)) (capacity_ ix) (mask_ ix))
  else None.

(** [Index::update] *)
Definition Index_update (ix : Index) (idx : Z) (tag klen : Byte.byte) (vlen off : Z)
    : option Index :=
  set_slot ix idx (mkSlot tag klen vlen off).

(** [idx.at(slot_idx).make_tombstone()] *)
Definition Index_tombstone (ix : Index) (idx : Z) : option Index :=
  s ← slots_ ix !! Z.to_nat idx; set_slot ix idx (make_tombstone s).

(** ** Store ([hyperion.hpp]) *)

Definition MAX_KEY : Z := 255.
Definition MAX_VAL : Z := 65535.

(** [sizeof(EntryHeader)]: [klen] (u16) at 0, [vlen] (u16) at 2, [hash]
    (u32) at 4. *)
Definition HDR : Z := 8.

Inductive Status := OK | KeyTooLong | ValTooLong | ArenaFull | NotFound.

#[global] Instance Status_eq_dec : EqDecision Status.
Proof. solve_decision. Defined.

(** [Hyperion] owns the arena and the seqlock-wrapped index
    ([seq_] is the seqlock version, [index_] its [data_]). *)
Record Hyperion := mkHyperion {
  arena_ : Arena;
  seq_ : Z;
  index_ : Index
}.

Definition Hyperion_default : Hyperion := mkHyperion Arena_default 0 Index_default.

(** [Hyperion::create] *)
Definition create (bytes slots : Z) (mmap_ok : bool) : ArenaError * Hyperion :=
  let '(ae, a) := Arena_create bytes mmap_ok in
  match ae with
  | AE_None => (AE_None, mkHyperion a 0 (Index_init slots))
  | _ => (ae, Hyperion_default)
  end.

(** The [eq] lambda of [put], [get] and [del] (all three test the same
    thing in the same order): valid slot, full hash, key length, key bytes. *)
Definition key_eq (a : Arena) (h : Z) (key : list Byte.byte) (s : Slot) : option bool :=
  if negb (is_valid s) then Some false else
  let e := offset s in
  eh ← rd_le a (e + 4) 4;
  if negb (eh =? h) then Some false else
  ek ← rd_le a e 2;
  if negb (ek =? Z.of_nat (length key)) then Some false else
  kb ← rd_bytes a (e + HDR) (Z.of_nat (length key));
  Some (bool_decide (kb = key)).

(** [round_up_8] as written: [(needed + 7) & ~7] in 32 bits. *)
Definition entry_size (ks vs : Z) : Z :=
  let needed := u32 (HDR + ks + vs) in
  Z.land (u32 (needed + 7)) (u32 (Z.lnot 7)).

(** [SeqLock::write] around the index mutation: version + 2. *)
Definition seq_after_write (v : Z) : Z := (v + 2) mod 2 ^ 64.

(** [Hyperion::put] *)
Definition put (st : Hyperion) (key val : list Byte.byte) : option (Status * Hyperion) :=
  let ks := Z.of_nat (length key) in
  let vs := Z.of_nat (length val) in
  if MAX_KEY <? ks then Some (KeyTooLong, st) else
  if MAX_VAL <? vs then Some (ValTooLong, st) else
  let h := Index_hash key in
  let tag := byte_of_Z (Z.shiftr h 24) in
  let needed := entry_size ks vs in
  let '(err, off, ar) := Arena_alloc (arena_ st) needed in
  match err with
  | AE_None =>
      ar ← wr_bytes ar off (le_bytes 2 ks);
      ar ← wr_bytes ar (off + 2) (le_bytes 2 vs);
      ar ← wr_bytes ar (off + 4) (le_bytes 4 h);
      ar ← wr_bytes ar (off + HDR) key;
      ar ← wr_bytes ar (off + HDR + ks) val;
      '(slot_idx, _) ← Index_find (index_ st) h ks (key_eq ar h key);
      ix ← Index_update (index_ st) slot_idx tag (byte_of_Z ks) (u16 vs) off;
      Some (OK, mkHyperion ar (seq_after_write (seq_ st)) ix)
  | _ => Some (ArenaFull, mkHyperion ar (seq_ st) (index_ st))
  end.

(** [Hyperion::get] with no write during the call: one pass of the
    reader lambda inside [SeqLock::read], whose [v1 == v2] check then
    succeeds.  [out_val] is the caller's buffer, returned as the lambda
    leaves it ([assign]ed on [found = true]).  [get_seq] below runs the
    lambda inside the retry loop of [SeqLock::read]. *)
Definition get (st : Hyperion) (key : list Byte.byte) (out_val : list Byte.byte)
    : option (Status * list Byte.byte) :=
  let h := Index_hash key in
  let ar := arena_ st in
  '(slot_idx, ex) ← Index_find (index_ st) h (Z.of_nat (length key)) (key_eq ar h key);
  if (ex : bool) then
    s ← slots_ (index_ st) !! Z.to_nat slot_idx;
    klen ← rd_le ar (offset s) 2;
    vlen ← rd_le ar (offset s + 2) 2;
    v ← rd_bytes ar (offset s + HDR + klen) vlen;
    Some (OK, v)
  else Some (NotFound, out_val).

(** One pass of the loop of [SeqLock::read] as the reader sees it: the
    version [v1] it loads first, the store the lambda reads, and the
    version [v2] it loads after the fence. *)
Record Attempt := mkAttempt {
  at_v1 : Z;
  at_state : Hyperion;
  at_v2 : Z
}.

(** [Hyperion::get] with the retry loop of [SeqLock::read]: an attempt
    with odd [v1] spins; otherwise the lambda runs ([get] above, which
    assigns [out_val] when it finds the key) and the result is returned
    iff [v1 == v2]; else the loop retries with the buffer as the lambda
    left it.  [None]: no attempt of the list returned. *)
Fixpoint get_seq (atts : list Attempt) (key out_val : list Byte.byte)
    : option (Status * list Byte.byte) :=
  match atts with
  | [] => None
  | a :: atts' =>
      if Z.testbit (at_v1 a) 0 then get_seq atts' key out_val
      else
        '(r, out') ← get (at_state a) key out_val;
        if at_v1 a =? at_v2 a then Some (r, out') else get_seq atts' key out'
  end.

(** [Hyperion::del] *)
Definition del (st : Hyperion) (key : list Byte.byte) : option (Status * Hyperion) :=
  let h := Index_hash key in
  let ar := arena_ st in
  '(slot_idx, ex) ← Index_find (index_ st) h (Z.of_nat (length key)) (key_eq ar h key);
  if (ex : bool) then
    ix ← Index_tombstone (index_ st) slot_idx;
    Some (OK, mkHyperion ar (seq_after_write (seq_ st)) ix)
  else Some (NotFound, mkHyperion ar (seq_after_write (seq_ st)) (index_ st)).

(** Sequences of writer operations. *)
Inductive Op :=
  | OpPut (k v : list Byte.byte)
  | OpDel (k : list Byte.byte).

Definition exec (st : Hyperion) (op : Op) : option (Status * Hyperion) :=
  match op with
  | OpPut k v => put st k v
  | OpDel k => del st k
  end.

Fixpoint run (st : Hyperion) (ops : list Op) : option (list Status * Hyperion) :=
  match ops with
  | [] => Some ([], st)
  | op :: ops' =>
      '(r, st1) ← exec st op;
      '(rs, st2) ← run st1 ops';
      Some (r :: rs, st2)
  end.

Definition bytes (s : string) : list Byte.byte := list_byte_of_string s.

(** The scenarios of [main.cpp]. *)
Definition main_db : Hyperion := snd (create (64 * 1024 * 1024) 1024 true).

Example main_scenario :
  (st1 ← run main_db [OpPut (bytes "user:1001") (bytes "balance:5000")];
   get (snd st1) (bytes "user:1001") []) = Some (OK, bytes "balance:5000").
Proof. vm_compute. reflexivity. Qed.

Example main_scenario_full :
  (let k := bytes "user:1001" in
   '(rs, st) ← run main_db [OpPut k (bytes "balance:5000"); OpPut k (bytes "balance:4500")];
   g1 ← get st k [];
   '(r3, st3) ← del st k;
   g2 ← get st3 k [];
   '(r4, st4) ← put st3 k (bytes "balance:0");
   g3 ← get st4 k [];
   Some (rs, g1, r3, g2, r4, g3))
  = Some ([OK; OK], (OK, bytes "balance:4500"), OK, (NotFound, []), OK,
          (OK, bytes "balance:0")).
Proof. vm_compute. reflexivity. Qed.

(** Spec scenario 5: [create(64, 8)], a 60-byte value does not fit. *)
Example small_arena_full :
  (let st := snd (create 64 8 true) in
   '(r, st1) ← put st (bytes "k") (repeat Byte.x61 60);
   g ← get st1 (bytes "k") [];
   Some (r, g)) = Some (ArenaFull, (NotFound, [])).
Proof. vm_compute. reflexivity. Qed.

(** Number of non-[EMPTY] slots of a slot array (occupied or tombstone). *)
Fixpoint count_used (sl : list Slot) : nat :=
  match sl with
  | [] => O
  | s :: sl' => ((if is_empty s then O else 1) + count_used sl')%nat
  end.

(** States reached by concrete runs, for the examples below. *)
Definition after_run (st : Hyperion) (ops : list Op) : Hyperion :=
  match run st ops with Some (_, s) => s | None => st end.

Definition after_put (st : Hyperion) (k v : list Byte.byte) : Hyperion :=
  match put st k v with Some (_, s) => s | None => st end.

Definition after_del (st : Hyperion) (k : list Byte.byte) : Hyperion :=
  match del st k with Some (_, s) => s | None => st end.

Definition db_small : Hyperion := snd (create 1024 8 true).

Definition db64 : Hyperion := snd (create 64 8 true).

(** The store with its arena cursor set to [c]. *)
Definition with_cursor (st : Hyperion) (c : Z) : Hyperion :=
  mkHyperion (mkArena (mem (arena_ st)) (size_ (arena_ st)) c) (seq_ st) (index_ st).

Definition ops_small : list Op :=
  [OpPut (bytes "a") (bytes "1"); OpPut (bytes "b") (bytes "2"); OpDel (bytes "a")].

(** 32-bit FNV-1a in the words of the specification: from the offset
    basis 2166136261, fold over the bytes in order with
    [h := (h XOR b) * 16777619], keeping the low 32 bits. *)
Definition fnv1a_32_spec (data : list Byte.byte) : Z :=
  fold_left (fun h b => Z.land (Z.lxor h (bval b) * 16777619) (Z.ones 32)) data 2166136261.

(** The entry record [put] lays out at [off]: header, key, value. *)
Definition entry_at (a : Arena) (off : Z) (key val : list Byte.byte) : Prop :=
  rd_le a off 2 = Some (Z.of_nat (length key)) /\
  rd_le a (off + 2) 2 = Some (Z.of_nat (length val)) /\
  rd_le a (off + 4) 4 = Some (Index_hash key) /\
  rd_bytes a (off + HDR) (Z.of_nat (length key)) = Some key /\
  rd_bytes a (off + HDR + Z.of_nat (length key)) (Z.of_nat (length val)) = Some val.

(** The key an operation works on. *)
Definition op_key (op : Op) : list Byte.byte :=
  match op with
  | OpPut k _ => k
  | OpDel k => k
  end.

(** Every live slot points to an intact record that lies below the
    arena cursor. *)
Definition records_below (st : Hyperion) : Prop :=
  forall p s, slots_ (index_ st) !! p = Some s -> is_valid s = true ->
    exists k v, entry_at (arena_ st) (offset s) k v /\ 0 <= offset s /\
      offset s + HDR + Z.of_nat (length k) + Z.of_nat (length v) <= offset_ (arena_ st).

(** The index still has an [EMPTY] slot. *)
Definition has_empty (st : Hyperion) : Prop :=
  exists p s, slots_ (index_ st) !! p = Some s /\ is_empty s = true.

(** The cursor stays [65800] (the largest entry) below the 32-bit wrap
    before each operation of the sequence. *)
Fixpoint no_wrap (st : Hyperion) (ops : list Op) : Prop :=
  match ops with
  | [] => True
  | op :: ops' =>
      offset_ (arena_ st) + 65800 < 2 ^ 32 /\
      forall r st1, exec st op = Some (r, st1) -> no_wrap st1 ops'
  end.

(** The index has an [EMPTY] slot or a tombstone. *)
Definition has_free (st : Hyperion) : Prop :=
  exists p s, slots_ (index_ st) !! p = Some s /\ (is_empty s = true \/ is_tombstone s = true).

Definition is_put (op : Op) : bool :=
  match op with
  | OpPut _ _ => true
  | OpDel _ => false
  end.

Definition present (st : Hyperion) (k : list Byte.byte) : Prop :=
  exists o v, get st k o = Some (OK, v).

(** Eight one-letter keys fill all eight slots of [db_small]. *)
Definition ops_full : list Op :=
  map (fun k => OpPut (bytes k) (bytes "v")) ["a"; "b"; "c"; "d"; "e"; "f"; "g"; "h"]%string.

Definition db_full : Hyperion := after_run db_small ops_full.

(** [db_small] after [ops_small]: [b] live, the slot of [a] a tombstone. *)
Definition st_w : Hyperion := after_run db_small ops_small.

(** [st_w] after [delete(b)], and a reader of [b] that runs its first
    attempt on [st_w] while the writer deletes [b], then retries. *)
Definition st_wd : Hyperion := after_del st_w (bytes "b").

Definition atts_race : list Attempt :=
  [mkAttempt (seq_ st_w) st_w (seq_ st_wd); mkAttempt (seq_ st_wd) st_wd (seq_ st_wd)].

(** Three operations on [a]. *)
Definition ops_a : list Op :=
  [OpPut (bytes "a") (bytes "3"); OpDel (bytes "a"); OpPut (bytes "a") (bytes "4")].

(** Writes of the index: every [delete], and a [put] that got to the
    index. *)
Definition is_write (op : Op) (r : Status) : bool :=
  match op with
  | OpPut _ _ => bool_decide (r = OK)
  | OpDel _ => true
  end.

Fixpoint writes (ops : list Op) (rs : list Status) : Z :=
  match ops, rs with
  | op :: ops', r :: rs' => (if is_write op r then 1 else 0) + writes ops' rs'
  | _, _ => 0
  end.

(** The [put] operations of a list of key-value pairs. *)
Definition put_ops (kvs : list (list Byte.byte * list Byte.byte)) : list Op :=
  map (fun kv => OpPut (fst kv) (snd kv)) kvs.

(** [db_small] after putting [a] and [b]. *)
Definition kv_ab : list (list Byte.byte * list Byte.byte) :=
  [(bytes "a", bytes "1"); (bytes "b", bytes "2")].

Definition st_ab : Hyperion := after_run db_small (put_ops kv_ab).

(** The record [put] lays out for an entry, and the slot it installs. *)
Definition entry_bytes (key val : list Byte.byte) : list Byte.byte :=
  le_bytes 2 (Z.of_nat (length key)) ++ le_bytes 2 (Z.of_nat (length val)) ++
  le_bytes 4 (Index_hash key) ++ key ++ val.

Definition slot_for (key val : list Byte.byte) (off : Z) : Slot :=
  mkSlot (byte_of_Z (Z.shiftr (Index_hash key) 24)) (byte_of_Z (Z.of_nat (length key)))
    (u16 (Z.of_nat (length val))) off.

(** A store with the largest arena [create] accepts ([UINT32_MAX] bytes)
    and 8 slots.  [key_k] and [key_twin] have the same length, the same
    hash tag and the same home slot (7); [key_f] (home slot 1) is
    rewritten with a maximal value to walk the cursor up to 2^32. *)
Definition db4g : Hyperion := snd (create UINT32_MAX 8 true).

Definition key_k : list Byte.byte := bytes "key1".
Definition key_twin : list Byte.byte := bytes "acft".
Definition val_twin : list Byte.byte := bytes "tw".
Definition val_old : list Byte.byte := bytes "old".
Definition key_f : list Byte.byte := repeat Byte.x66 255.
Definition val_f : list Byte.byte := repeat Byte.x76 (Z.to_nat 65535).
Definition key_z : list Byte.byte := bytes "z".
Definition val_z : list Byte.byte := repeat Byte.x77 3846.

(** [key_twin] at offset 8, [key_k] at offset 24, cursor 40. *)
Definition S0 : Hyperion := after_put (after_put db4g key_twin val_twin) key_k val_old.

(** The arena contents after [S0] and fill records of [key_f] at
    40, 40 + 65800, ... below [c]. *)
Definition fill_mem (c : Z) : Z -> Byte.byte :=
  fun x => if (40 <=? x) && (x <? c)
           then nth (Z.to_nat ((x - 40) mod 65800)) (entry_bytes key_f val_f) Byte.x00
           else mem (arena_ S0) x.

Definition fill_state (c sq : Z) : Hyperion :=
  mkHyperion (mkArena (fill_mem c) UINT32_MAX c) sq
    (mkIndex (<[1%nat := slot_for key_f val_f (c - 65800)]> (slots_ (index_ S0))) 8 7).

(** The operations after the fill: a put that carries the cursor past
    2^32 (to 0), one that moves it to 8, and a rewrite of [key_k]. *)
Definition ops_wrap : list Op :=
  [OpPut key_z val_z; OpPut [] []; OpPut key_k (bytes "y")].

Definition wrap_obs (st : Hyperion)
    : option (list Status * Status * Status * list Byte.byte) :=
  '(rs, st1) ← run st ops_wrap;
  '(r, st2) ← del st1 key_k;
  '(g, v) ← get st2 key_k [];
  Some (rs, r, g, v).

(** * Properties *)

(** ** Bytes and little-endian fields *)

Lemma bval_range (b : Byte.byte) : 0 <= bval b <= 255.
Proof.
  unfold bval. pose proof (Byte.to_N_bounded b). lia.
Qed.

Lemma bval_byte_of_Z (z : Z) : bval (byte_of_Z z) = z mod 256.
Proof.
  unfold byte_of_Z, bval.
  pose proof (Z.mod_pos_bound z 256 ltac:(lia)) as Hz.
  destruct (Byte.of_N (Z.to_N (z mod 256))) as [b|] eqn:E.
  - apply Byte.to_of_N in E. rewrite E. lia.
  - apply Byte.of_N_None_iff in E. lia.
Qed.

Lemma length_le_bytes (n : nat) (z : Z) : length (le_bytes n z) = n.
Proof. revert z; induction n; intros z; simpl; auto. Qed.

Lemma le_val_le_bytes (n : nat) (z : Z) :
  0 <= z -> le_val (le_bytes n z) = z mod 2 ^ (8 * Z.of_nat n).
Proof.
  revert z; induction n as [|n IH]; intros z Hz.
  - simpl. rewrite Z.mod_1_r. reflexivity.
  - cbn [le_bytes le_val]. rewrite bval_byte_of_Z, IH by (apply Z.shiftr_nonneg; lia).
    rewrite Z.shiftr_div_pow2 by lia.
    replace (8 * Z.of_nat (S n)) with (8 + 8 * Z.of_nat n) by lia.
    rewrite Z.pow_add_r by lia.
    rewrite Z.rem_mul_r by lia. change (2 ^ 8) with 256. lia.
Qed.

(** ** Arena memory: reading back what was written *)

Lemma map_nth_seq (bs : list Byte.byte) :
  map (fun i => nth i bs Byte.x00) (seq 0 (length bs)) = bs.
Proof.
  induction bs as [|b bs IH]; [reflexivity|].
  cbn [length seq map nth]. f_equal. rewrite <- seq_shift, map_map. exact IH.
Qed.

Lemma rd_bytes_in (a : Arena) (off n : Z) :
  in_bounds a off n = true ->
  rd_bytes a off n = Some (map (fun i => mem a (off + Z.of_nat i)) (seq 0 (Z.to_nat n))).
Proof. intros H. unfold rd_bytes. rewrite H. reflexivity. Qed.

Lemma wr_bytes_Some (a a' : Arena) (off : Z) (bs : list Byte.byte) :
  wr_bytes a off bs = Some a' ->
  in_bounds a off (Z.of_nat (length bs)) = true /\
  a' = mkArena (upd_mem (mem a) off bs) (size_ a) (offset_ a).
Proof.
  unfold wr_bytes. destruct (in_bounds _ _ _) eqn:E; intros H; inversion H; auto.
Qed.

(** Reading exactly the written range gives the written bytes. *)
Lemma rd_upd_same (a : Arena) (off : Z) (bs : list Byte.byte) :
  in_bounds a off (Z.of_nat (length bs)) = true ->
  rd_bytes (mkArena (upd_mem (mem a) off bs) (size_ a) (offset_ a)) off
    (Z.of_nat (length bs)) = Some bs.
Proof.
  intros H. unfold rd_bytes, in_bounds in *. cbn [size_ mem]. rewrite H. f_equal.
  rewrite Nat2Z.id. rewrite <- (map_nth_seq bs) at 2.
  apply map_ext_in. intros i Hi. apply in_seq in Hi.
  unfold upd_mem. destruct ((off <=? off + Z.of_nat i) && (off + Z.of_nat i <? off + Z.of_nat (length bs))) eqn:E.
  - f_equal. lia.
  - apply andb_false_iff in E. destruct E as [E|E]; apply Z.leb_gt in E || apply Z.ltb_ge in E; lia.
Qed.

(** Reading a range disjoint from the written one is unaffected. *)
Lemma rd_upd_other (a : Arena) (off : Z) (bs : list Byte.byte) (o n : Z) :
  0 <= n ->
  o + n <= off \/ off + Z.of_nat (length bs) <= o ->
  rd_bytes (mkArena (upd_mem (mem a) off bs) (size_ a) (offset_ a)) o n = rd_bytes a o n.
Proof.
  intros Hn Hd. unfold rd_bytes, in_bounds. cbn [size_ mem].
  destruct ((0 <=? o) && (o + n <=? size_ a)); [|reflexivity]. f_equal.
  apply map_ext_in. intros i Hi. apply in_seq in Hi.
  unfold upd_mem.
  destruct ((off <=? o + Z.of_nat i) && (o + Z.of_nat i <? off + Z.of_nat (length bs))) eqn:E;
    [|reflexivity].
  apply andb_true_iff in E as [E1 E2]. apply Z.leb_le in E1. apply Z.ltb_lt in E2. lia.
Qed.

(** ** [next_pow2]: bit smearing *)

Section Smear.
Variable w : Z.

(** Bit [i] of [x] is set iff [w] has a set bit in [[i, i + n)]. *)
Definition smeared (n : Z) (x : Z) : Prop :=
  0 <= x /\
  forall i, 0 <= i -> Z.testbit x i = true <-> exists j, i <= j < i + n /\ Z.testbit w j = true.

Lemma smeared_1 : 0 <= w -> smeared 1 w.
Proof.
  intros Hw. split; [lia|]. intros i Hi. split.
  - intros H. exists i. split; [lia|exact H].
  - intros [j [Hj H]]. replace i with j by lia. exact H.
Qed.

Lemma smeared_step (n x : Z) :
  0 <= n -> smeared n x -> smeared (2 * n) (Z.lor x (Z.shiftr x n)).
Proof.
  intros Hn [Hx Hs]. split.
  - apply Z.lor_nonneg. split; [lia|]. apply Z.shiftr_nonneg. lia.
  - intros i Hi. rewrite Z.lor_spec, Z.shiftr_spec by lia.
    rewrite orb_true_iff, (Hs i Hi), (Hs (i + n)) by lia. split.
    + intros [[j [Hj H]]|[j [Hj H]]]; exists j; split; auto; lia.
    + intros [j [Hj H]]. destruct (Z.lt_ge_cases j (i + n)).
      * left. exists j. split; auto; lia.
      * right. exists j. split; auto; lia.
Qed.

Lemma smeared_ones (x : Z) :
  0 < w < 2 ^ 32 -> smeared 32 x -> x = Z.ones (Z.log2 w + 1).
Proof.
  intros Hw [Hx Hs].
  assert (HL : Z.log2 w < 32).
  { apply Z.log2_lt_pow2; lia. }
  pose proof (Z.log2_nonneg w).
  apply Z.bits_inj'. intros i Hi.
  rewrite Z.testbit_ones_nonneg by lia.
  destruct (Z.testbit x i) eqn:E.
  - apply (Hs i Hi) in E as [j [Hj Hb]].
    assert (j <= Z.log2 w).
    { destruct (Z.le_gt_cases j (Z.log2 w)); auto.
      rewrite Z.bits_above_log2 in Hb by lia; discriminate. }
    symmetry. apply Z.ltb_lt. lia.
  - symmetry. apply not_true_iff_false. intros Hin. apply Z.ltb_lt in Hin.
    assert (Z.testbit x i = true) as E'.
    { apply (Hs i Hi). exists (Z.log2 w). split; [lia|].
      apply Z.bit_log2. lia. }
    congruence.
Qed.
End Smear.

(** For [8 <= v <= 2^31], [next_pow2 v] is [2 ^ (log2 (v - 1) + 1)]. *)
Lemma next_pow2_value (v : Z) :
  8 <= v <= 2 ^ 31 -> next_pow2 v = 2 ^ (Z.log2 (v - 1) + 1).
Proof.
  intros Hv. unfold next_pow2.
  assert (Hw : u32 (v - 1) = v - 1).
  { unfold u32. apply Z.mod_small. lia. }
  rewrite Hw.
  set (w := v - 1).
  assert (H0 : 0 <= w) by (unfold w; lia).
  pose proof (smeared_1 w H0) as S1.
  pose proof (smeared_step w 1 w ltac:(lia) S1) as S2.
  pose proof (smeared_step w 2 _ ltac:(lia) S2) as S4.
  pose proof (smeared_step w 4 _ ltac:(lia) S4) as S8.
  pose proof (smeared_step w 8 _ ltac:(lia) S8) as S16.
  pose proof (smeared_step w 16 _ ltac:(lia) S16) as S32.
  simpl (2 * 16) in S32.
  rewrite (smeared_ones w _ ltac:(unfold w; lia) S32).
  assert (HL : Z.log2 w < 31) by (apply Z.log2_lt_pow2; unfold w; lia).
  pose proof (Z.log2_nonneg w).
  rewrite Z.ones_equiv. unfold u32.
  rewrite Z.add_1_r, Z.succ_pred. apply Z.mod_small. split.
  - apply Z.pow_nonneg. lia.
  - apply Z.pow_lt_mono_r; lia.
Qed.

(** [2 ^ (log2 (v - 1) + 1)] is the least power of two that is [>= v]. *)
Lemma pow2_log2_least (v : Z) :
  2 <= v ->
  v <= 2 ^ (Z.log2 (v - 1) + 1) /\
  forall n, 0 <= n -> v <= 2 ^ n -> 2 ^ (Z.log2 (v - 1) + 1) <= 2 ^ n.
Proof.
  intros Hv. pose proof (Z.log2_spec (v - 1) ltac:(lia)) as [Hlo Hhi].
  pose proof (Z.log2_nonneg (v - 1)).
  unfold Z.succ in Hhi.
  split; [lia|]. intros n Hn Hle.
  apply Z.pow_le_mono_r; [lia|].
  destruct (Z.le_gt_cases (Z.log2 (v - 1) + 1) n) as [Hc|Hc]; [exact Hc|].
  assert (2 ^ n <= 2 ^ Z.log2 (v - 1)) by (apply Z.pow_le_mono_r; lia). lia.
Qed.

(** [Index::init] for [0 <= s <= 2^31]: a power-of-two table. *)
Lemma Index_init_shape (s : Z) :
  0 <= s <= 2 ^ 31 ->
  let n := Z.log2 (Z.max s 8 - 1) + 1 in
  capacity_ (Index_init s) = 2 ^ n /\ mask_ (Index_init s) = 2 ^ n - 1 /\
  length (slots_ (Index_init s)) = Z.to_nat (2 ^ n) /\ 3 <= n <= 31.
Proof.
  intros Hs n. unfold Index_init. cbn [capacity_ mask_ slots_].
  rewrite next_pow2_value by lia. fold n.
  assert (Hn : 3 <= n <= 31).
  { unfold n. split.
    - assert (2 <= Z.log2 (Z.max s 8 - 1)); [|lia].
      change 2 with (Z.log2 7). apply Z.log2_le_mono. lia.
    - assert (Z.log2 (Z.max s 8 - 1) < 31); [|lia].
      apply Z.log2_lt_pow2; lia. }
  assert (0 < 2 ^ n < 2 ^ 32).
  { split; [apply Z.pow_pos_nonneg; lia|apply Z.pow_lt_mono_r; lia]. }
  repeat split; try lia.
  - unfold u32. apply Z.mod_small. lia.
  - apply repeat_length.
Qed.

(** ** The probe loop *)

Section Probe.
Variables (sl : list Slot) (mask tag klen : Z) (keq : Slot -> option bool).

(** The [i]-th probe position from [idx]. *)
Fixpoint pos (idx : Z) (i : nat) : Z :=
  match i with
  | O => idx
  | S i' => pos (next_idx idx mask) i'
  end.

(** The tag / length filter of [find]. *)
Definition filt (s : Slot) : bool :=
  (bval (hash_tag s) =? tag) && (bval (key_len s) =? klen).

(** A slot the loop walks past, and a slot where it reports a hit. *)
Definition passes (s : Slot) : Prop :=
  is_empty s = false /\ (is_tombstone s = false -> filt s = true -> keq s = Some false).

Definition hit (s : Slot) : Prop :=
  is_empty s = false /\ is_tombstone s = false /\ filt s = true /\ keq s = Some true.

Definition at_pos (P : Slot -> Prop) (z : Z) : Prop :=
  exists s, sl !! Z.to_nat z = Some s /\ P s.

Definition prefix_passes (idx : Z) (n : nat) : Prop :=
  forall i, (i < n)%nat -> at_pos passes (pos idx i).

Lemma prefix_passes_S (idx : Z) (n : nat) :
  at_pos passes idx -> prefix_passes (next_idx idx mask) n -> prefix_passes idx (S n).
Proof.
  intros H0 Hn [|i] Hi; [exact H0|]. apply Hn. lia.
Qed.

(** Where [find] can stop: at a recorded tombstone, at a probe position
    reached over passable slots, or after the last probe. *)
Lemma find_loop_reach (fuel : nat) (idx ft j : Z) (b : bool) :
  find_loop sl mask tag klen keq fuel idx ft = Some (j, b) ->
  (j = ft /\ ft <> UINT32_MAX) \/
  (exists i, (i < fuel)%nat /\ j = pos idx i /\ prefix_passes idx i) \/
  (j = pos idx fuel /\ prefix_passes idx fuel).
Proof.
  revert idx ft. induction fuel as [|f IH]; intros idx ft H; cbn [find_loop] in H.
  - injection H as <- _. unfold tomb_or. destruct (ft =? UINT32_MAX) eqn:E.
    + right; right. split; [reflexivity|intros i Hi; lia].
    + left. split; [reflexivity|]. apply Z.eqb_neq in E. exact E.
  - destruct (sl !! Z.to_nat idx) as [s|] eqn:Hs; cbn in H; [|discriminate].
    assert (Hstep : forall ft', at_pos passes idx ->
              (ft' = ft \/ (ft' = idx /\ ft = UINT32_MAX)) ->
              find_loop sl mask tag klen keq f (next_idx idx mask) ft' = Some (j, b) ->
              (j = ft /\ ft <> UINT32_MAX) \/
              (exists i, (i < S f)%nat /\ j = pos idx i /\ prefix_passes idx i) \/
              (j = pos idx (S f) /\ prefix_passes idx (S f))).
    { intros ft' Hp Hft' Hrec.
      destruct (IH _ _ Hrec) as [[-> Hne]|[[i [Hi [-> Hpre]]]|[-> Hpre]]].
      - destruct Hft' as [->|[-> ->]]; [left; auto|].
        right; left. exists O. split; [lia|]. split; [reflexivity|intros i Hi; lia].
      - right; left. exists (S i). split; [lia|]. split; [reflexivity|].
        apply prefix_passes_S; assumption.
      - right; right. split; [reflexivity|]. apply prefix_passes_S; assumption. }
    destruct (is_empty s) eqn:He.
    + injection H as <- _. unfold tomb_or. destruct (ft =? UINT32_MAX) eqn:E.
      * right; left. exists O. split; [lia|]. split; [reflexivity|intros i Hi; lia].
      * left. split; [reflexivity|]. apply Z.eqb_neq in E. exact E.
    + destruct (is_tombstone s) eqn:Ht.
      * apply (Hstep (tomb_or ft idx)); [exists s; split; [exact Hs|split; [exact He|congruence]]| |exact H].
        unfold tomb_or. destruct (ft =? UINT32_MAX) eqn:E; [right; split; [reflexivity|]; apply Z.eqb_eq in E; exact E|left; reflexivity].
      * destruct ((bval (hash_tag s) =? tag) && (bval (key_len s) =? klen)) eqn:Hf.
        -- destruct (keq s) as [[|]|] eqn:Hk; cbn in H; [| |discriminate].
           ++ injection H as <- _. right; left. exists O. split; [lia|].
              split; [reflexivity|intros i Hi; lia].
           ++ apply (Hstep ft); [|left; reflexivity|exact H].
              exists s. split; [exact Hs|]. split; [exact He|]. intros _ _. exact Hk.
        -- apply (Hstep ft); [|left; reflexivity|exact H].
           exists s. split; [exact Hs|]. split; [exact He|]. intros _ Hf'.
           unfold filt in Hf'. congruence.
Qed.

(** Over passable slots, [find] reaches a hit. *)
Lemma hit_after_prefix (i : nat) (fuel : nat) (idx ft : Z) :
  (i < fuel)%nat -> prefix_passes idx i -> at_pos hit (pos idx i) ->
  find_loop sl mask tag klen keq fuel idx ft = Some (pos idx i, true).
Proof.
  revert fuel idx ft. induction i as [|i IH]; intros fuel idx ft Hi Hpre Hhit;
    (destruct fuel as [|f]; [lia|]); cbn [find_loop].
  - destruct Hhit as [s [Hs [He [Ht [Hf Hk]]]]]. cbn [pos] in *.
    rewrite Hs. cbn. rewrite He, Ht. unfold filt in Hf. rewrite Hf, Hk. reflexivity.
  - destruct (Hpre O ltac:(lia)) as [s [Hs [He Hp]]]. cbn [pos] in *.
    assert (Hpre' : prefix_passes (next_idx idx mask) i).
    { intros i' Hi'. apply (Hpre (S i')). lia. }
    rewrite Hs. cbn. rewrite He.
    destruct (is_tombstone s) eqn:Ht; [apply IH; auto; lia|].
    unfold filt in Hp. destruct ((bval (hash_tag s) =? tag) && (bval (key_len s) =? klen)) eqn:Hf.
    + rewrite (Hp eq_refl eq_refl). cbn. apply IH; auto; lia.
    + apply IH; auto; lia.
Qed.
End Probe.

(** [next_pow2] on the whole [uint32_t] range above 1: the power of two
    above [v - 1], reduced to 32 bits. *)
Lemma next_pow2_gen (v : Z) :
  2 <= v <= 2 ^ 32 -> next_pow2 v = u32 (2 ^ (Z.log2 (v - 1) + 1)).
Proof.
  intros Hv. unfold next_pow2.
  assert (Hw : u32 (v - 1) = v - 1).
  { unfold u32. apply Z.mod_small. lia. }
  rewrite Hw.
  set (w := v - 1).
  assert (H0 : 0 <= w) by (unfold w; lia).
  pose proof (smeared_1 w H0) as S1.
  pose proof (smeared_step w 1 w ltac:(lia) S1) as S2.
  pose proof (smeared_step w 2 _ ltac:(lia) S2) as S4.
  pose proof (smeared_step w 4 _ ltac:(lia) S4) as S8.
  pose proof (smeared_step w 8 _ ltac:(lia) S8) as S16.
  pose proof (smeared_step w 16 _ ltac:(lia) S16) as S32.
  simpl (2 * 16) in S32.
  rewrite (smeared_ones w _ ltac:(unfold w; lia) S32).
  pose proof (Z.log2_nonneg w).
  rewrite Z.ones_equiv, Z.add_1_r, Z.succ_pred. reflexivity.
Qed.

(** Shape of the index: either no table at all, or [2^n] slots with
    mask [2^n - 1]. *)
Definition wf_index (ix : Index) : Prop :=
  (capacity_ ix = 0 /\ slots_ ix = []) \/
  (exists n, 0 <= n <= 31 /\ capacity_ ix = 2 ^ n /\ mask_ ix = 2 ^ n - 1 /\
             length (slots_ ix) = Z.to_nat (2 ^ n)).

Lemma Index_init_wf (s : Z) : 0 <= s <= UINT32_MAX -> wf_index (Index_init s).
Proof.
  intros Hs. destruct (Z.le_gt_cases s (2 ^ 31)) as [Hle|Hgt].
  - destruct (Index_init_shape s ltac:(lia)) as [H1 [H2 [H3 H4]]].
    right. eexists. split; [|split; [exact H1|split; [exact H2|exact H3]]]. lia.
  - left. unfold Index_init. cbn [capacity_ slots_].
    rewrite next_pow2_gen by (unfold UINT32_MAX in Hs; lia).
    assert (Z.log2 (Z.max s 8 - 1) = 31) as ->.
    { apply Z.log2_unique; [lia|]. unfold UINT32_MAX in Hs. lia. }
    split; reflexivity.
Qed.

(** With mask [2^n - 1], a probe step is [+1] modulo [2^n]. *)
Lemma next_idx_mod (n idx : Z) :
  0 <= n <= 31 -> 0 <= idx -> next_idx idx (2 ^ n - 1) = (idx + 1) mod 2 ^ n.
Proof.
  intros Hn Hi. unfold next_idx, u32.
  replace (2 ^ n - 1) with (Z.ones n) by (rewrite Z.ones_equiv; lia).
  rewrite Z.land_ones by lia.
  apply Z.mod_mod_divide.
  exists (2 ^ (32 - n)). rewrite <- Z.pow_add_r by lia. f_equal. lia.
Qed.

Lemma pos_mod (n idx : Z) (i : nat) :
  0 <= n <= 31 -> 0 <= idx < 2 ^ n ->
  pos (2 ^ n - 1) idx i = (idx + Z.of_nat i) mod 2 ^ n.
Proof.
  revert idx. induction i as [|i IH]; intros idx Hn Hi; cbn [pos].
  - rewrite Z.mod_small; lia.
  - rewrite next_idx_mod by lia.
    pose proof (Z.mod_pos_bound (idx + 1) (2 ^ n) ltac:(lia)).
    rewrite IH by lia. rewrite Zplus_mod_idemp_l. f_equal. lia.
Qed.

Lemma pos_range (n idx : Z) (i : nat) :
  0 <= n <= 31 -> 0 <= idx < 2 ^ n -> 0 <= pos (2 ^ n - 1) idx i < 2 ^ n.
Proof.
  intros Hn Hi. rewrite pos_mod by lia. apply Z.mod_pos_bound. lia.
Qed.

Lemma pos_full (n idx : Z) :
  0 <= n <= 31 -> 0 <= idx < 2 ^ n -> pos (2 ^ n - 1) idx (Z.to_nat (2 ^ n)) = idx.
Proof.
  intros Hn Hi. rewrite pos_mod by lia. rewrite Z2Nat.id by lia.
  rewrite <- Zplus_mod_idemp_r, Z_mod_same_full, Z.add_0_r. apply Z.mod_small. lia.
Qed.

Lemma home_range (n h : Z) : 0 <= n <= 31 -> 0 <= Z.land h (2 ^ n - 1) < 2 ^ n.
Proof.
  intros Hn. replace (2 ^ n - 1) with (Z.ones n) by (rewrite Z.ones_equiv; lia).
  rewrite Z.land_ones by lia. apply Z.mod_pos_bound. lia.
Qed.

(** ** Writing an entry record *)

Lemma wr_rd_same (a a' : Arena) (off : Z) (bs : list Byte.byte) :
  wr_bytes a off bs = Some a' -> rd_bytes a' off (Z.of_nat (length bs)) = Some bs.
Proof. intros H. apply wr_bytes_Some in H as [Hin ->]. apply rd_upd_same, Hin. Qed.

Lemma wr_rd_other (a a' : Arena) (off : Z) (bs : list Byte.byte) (o n : Z) :
  wr_bytes a off bs = Some a' -> 0 <= n ->
  o + n <= off \/ off + Z.of_nat (length bs) <= o ->
  rd_bytes a' o n = rd_bytes a o n.
Proof. intros H Hn Hd. apply wr_bytes_Some in H as [_ ->]. apply rd_upd_other; assumption. Qed.

Lemma wr_mem_other (a a' : Arena) (off : Z) (bs : list Byte.byte) (x : Z) :
  wr_bytes a off bs = Some a' -> x < off \/ off + Z.of_nat (length bs) <= x ->
  mem a' x = mem a x.
Proof.
  intros H Hx. apply wr_bytes_Some in H as [_ ->]. cbn [mem]. unfold upd_mem.
  destruct ((off <=? x) && (x <? off + Z.of_nat (length bs))) eqn:E; [|reflexivity].
  apply andb_true_iff in E as [E1 E2]. apply Z.leb_le in E1. apply Z.ltb_lt in E2. lia.
Qed.

Lemma wr_size (a a' : Arena) (off : Z) (bs : list Byte.byte) :
  wr_bytes a off bs = Some a' ->
  size_ a' = size_ a /\ offset_ a' = offset_ a /\
  0 <= off /\ off + Z.of_nat (length bs) <= size_ a.
Proof.
  intros H. apply wr_bytes_Some in H as [Hin ->]. cbn.
  unfold in_bounds in Hin. apply andb_true_iff in Hin as [H1 H2].
  apply Z.leb_le in H1. apply Z.leb_le in H2. lia.
Qed.

Lemma rd_le_rd_bytes (a : Arena) (off n : Z) (bs : list Byte.byte) :
  rd_bytes a off n = Some bs -> rd_le a off n = Some (le_val bs).
Proof. intros H. unfold rd_le. rewrite H. reflexivity. Qed.

Lemma fnv_loop_range (h : Z) (data : list Byte.byte) :
  0 <= h < 2 ^ 32 -> 0 <= fnv_loop h data < 2 ^ 32.
Proof.
  revert h. induction data as [|b data IH]; intros h Hh; cbn [fnv_loop]; [exact Hh|].
  apply IH. unfold u32. apply Z.mod_pos_bound. lia.
Qed.

Lemma Index_hash_range (data : list Byte.byte) : 0 <= Index_hash data < 2 ^ 32.
Proof. apply fnv_loop_range. lia. Qed.

Lemma entry_writes (a a1 a2 a3 a4 a5 : Arena) (off : Z) (key val : list Byte.byte) :
  let ks := Z.of_nat (length key) in
  let vs := Z.of_nat (length val) in
  ks <= MAX_KEY -> vs <= MAX_VAL ->
  wr_bytes a off (le_bytes 2 ks) = Some a1 ->
  wr_bytes a1 (off + 2) (le_bytes 2 vs) = Some a2 ->
  wr_bytes a2 (off + 4) (le_bytes 4 (Index_hash key)) = Some a3 ->
  wr_bytes a3 (off + HDR) key = Some a4 ->
  wr_bytes a4 (off + HDR + ks) val = Some a5 ->
  entry_at a5 off key val /\ size_ a5 = size_ a /\ offset_ a5 = offset_ a /\
  0 <= off /\ off + HDR + ks + vs <= size_ a /\
  (forall x, x < off \/ off + HDR + ks + vs <= x -> mem a5 x = mem a x).
Proof.
  intros ks vs Hk Hv W1 W2 W3 W4 W5.
  unfold MAX_KEY, MAX_VAL, HDR in *.
  pose proof (Index_hash_range key) as Hh.
  assert (L2 : forall z, Z.of_nat (length (le_bytes 2 z)) = 2) by (intros; rewrite length_le_bytes; reflexivity).
  assert (L4 : forall z, Z.of_nat (length (le_bytes 4 z)) = 4) by (intros; rewrite length_le_bytes; reflexivity).
  pose proof (wr_size _ _ _ _ W1) as [S1 [O1 [P1 Q1]]].
  pose proof (wr_size _ _ _ _ W2) as [S2 [O2 [P2 Q2]]].
  pose proof (wr_size _ _ _ _ W3) as [S3 [O3 [P3 Q3]]].
  pose proof (wr_size _ _ _ _ W4) as [S4 [O4 [P4 Q4]]].
  pose proof (wr_size _ _ _ _ W5) as [S5 [O5 [P5 Q5]]].
  rewrite L2 in Q1, Q2. rewrite L4 in Q3. fold ks in Q4. fold vs in Q5.
  assert (Hks : 0 <= ks) by lia. assert (Hvs : 0 <= vs) by lia.
  pose proof (wr_rd_same _ _ _ _ W1) as R1. rewrite L2 in R1.
  pose proof (wr_rd_same _ _ _ _ W2) as R2. rewrite L2 in R2.
  pose proof (wr_rd_same _ _ _ _ W3) as R3. rewrite L4 in R3.
  pose proof (wr_rd_same _ _ _ _ W4) as R4. fold ks in R4.
  pose proof (wr_rd_same _ _ _ _ W5) as R5. fold vs in R5.
  split; [|split; [congruence|split; [congruence|split; [lia|split; [lia|]]]]].
  - unfold entry_at, HDR. fold ks vs. repeat split.
    + unfold rd_le.
      rewrite (wr_rd_other _ _ _ _ _ _ W5), (wr_rd_other _ _ _ _ _ _ W4),
        (wr_rd_other _ _ _ _ _ _ W3), (wr_rd_other _ _ _ _ _ _ W2);
        rewrite ?L2, ?L4; try lia.
      rewrite R1. cbn [mbind option_bind]. rewrite le_val_le_bytes by lia. f_equal. apply Z.mod_small. simpl. lia.
    + unfold rd_le.
      rewrite (wr_rd_other _ _ _ _ _ _ W5), (wr_rd_other _ _ _ _ _ _ W4),
        (wr_rd_other _ _ _ _ _ _ W3); rewrite ?L2, ?L4; try lia.
      rewrite R2. cbn [mbind option_bind]. rewrite le_val_le_bytes by lia. f_equal. apply Z.mod_small. simpl. lia.
    + unfold rd_le.
      rewrite (wr_rd_other _ _ _ _ _ _ W5), (wr_rd_other _ _ _ _ _ _ W4); try lia.
      rewrite R3. cbn [mbind option_bind]. rewrite le_val_le_bytes by lia. f_equal. apply Z.mod_small. simpl. lia.
    + rewrite (wr_rd_other _ _ _ _ _ _ W5) by lia. exact R4.
    + exact R5.
  - intros x Hx.
    rewrite (wr_mem_other _ _ _ _ _ W5), (wr_mem_other _ _ _ _ _ W4),
      (wr_mem_other _ _ _ _ _ W3), (wr_mem_other _ _ _ _ _ W2),
      (wr_mem_other _ _ _ _ _ W1); rewrite ?L2, ?L4; try reflexivity; lia.
Qed.

(** Peel one [x <- m; k] off a hypothesis [... = Some _]. *)
Ltac unbind H :=
  match type of H with
  | mbind _ ?m = Some _ =>
      let E := fresh "E" in
      destruct m eqn:E; cbn [mbind option_bind] in H; [|discriminate H]
  end.

(** What a successful [put] did. *)
Lemma put_OK_inv (st st1 : Hyperion) (key val : list Byte.byte) :
  put st key val = Some (OK, st1) ->
  Z.of_nat (length key) <= MAX_KEY /\ Z.of_nat (length val) <= MAX_VAL /\
  exists j b,
    Index_find (index_ st) (Index_hash key) (Z.of_nat (length key))
      (key_eq (arena_ st1) (Index_hash key) key) = Some (j, b) /\
    Index_update (index_ st) j (byte_of_Z (Z.shiftr (Index_hash key) 24))
      (byte_of_Z (Z.of_nat (length key))) (u16 (Z.of_nat (length val)))
      (offset_ (arena_ st)) = Some (index_ st1) /\
    seq_ st1 = seq_after_write (seq_ st) /\
    entry_at (arena_ st1) (offset_ (arena_ st)) key val /\
    size_ (arena_ st1) = size_ (arena_ st) /\
    offset_ (arena_ st1) =
      u32 (offset_ (arena_ st) + entry_size (Z.of_nat (length key)) (Z.of_nat (length val))) /\
    0 <= offset_ (arena_ st) /\
    offset_ (arena_ st) + HDR + Z.of_nat (length key) + Z.of_nat (length val)
      <= size_ (arena_ st) /\
    (forall x, x < offset_ (arena_ st) \/
          offset_ (arena_ st) + HDR + Z.of_nat (length key) + Z.of_nat (length val) <= x ->
          mem (arena_ st1) x = mem (arena_ st) x).
Proof.
  intros H. unfold put in H.
  destruct (MAX_KEY <? Z.of_nat (length key)) eqn:Hk; [discriminate|].
  destruct (MAX_VAL <? Z.of_nat (length val)) eqn:Hv; [discriminate|].
  apply Z.ltb_ge in Hk, Hv. split; [exact Hk|]. split; [exact Hv|].
  unfold Arena_alloc in H.
  destruct (size_ (arena_ st) <? _) eqn:Ha; [discriminate|].
  cbn iota beta in H.
  unbind H. unbind H. unbind H. unbind H. unbind H. unbind H.
  destruct p as [j b]. unbind H. injection H as <-. cbn [arena_ index_ seq_].
  match goal with
  | W1 : wr_bytes _ _ _ = Some ?a1, W2 : wr_bytes ?a1 _ _ = Some ?a2,
    W3 : wr_bytes ?a2 _ _ = Some ?a3, W4 : wr_bytes ?a3 _ _ = Some ?a4,
    W5 : wr_bytes ?a4 _ _ = Some ?a5 |- _ =>
      pose proof (entry_writes _ _ _ _ _ _ _ key val Hk Hv W1 W2 W3 W4 W5)
        as [He [Hs [Ho [Hoff [Hle Hm]]]]]
  end.
  cbn [size_ offset_ mem] in *.
  exists j, b. split; [assumption|]. split; [assumption|]. split; [reflexivity|].
  split; [exact He|]. repeat split; auto.
Qed.

Lemma tag_of_hash (h : Z) : bval (byte_of_Z (Z.shiftr h 24)) = Z.land (Z.shiftr h 24) 255.
Proof.
  rewrite bval_byte_of_Z. change 255 with (Z.ones 8). rewrite Z.land_ones by lia. reflexivity.
Qed.

(** The slot [put] writes, over the record it wrote, is a hit for the key. *)
Lemma new_slot_hit (a : Arena) (off vlen : Z) (key val : list Byte.byte) :
  entry_at a off key val -> Z.of_nat (length key) <= MAX_KEY -> 0 <= off < OFF_TOMB ->
  hit (Z.land (Z.shiftr (Index_hash key) 24) 255) (Z.of_nat (length key))
    (key_eq a (Index_hash key) key)
    (mkSlot (byte_of_Z (Z.shiftr (Index_hash key) 24)) (byte_of_Z (Z.of_nat (length key))) vlen off).
Proof.
  intros [E1 [E2 [E3 [E4 E5]]]] Hk Hoff. unfold MAX_KEY, OFF_TOMB in *.
  unfold hit, filt, is_empty, is_tombstone, OFF_EMPTY, OFF_TOMB. cbn [offset hash_tag key_len].
  repeat split.
  - apply Z.eqb_neq. lia.
  - apply Z.eqb_neq. lia.
  - rewrite tag_of_hash, Z.eqb_refl. rewrite bval_byte_of_Z, Z.mod_small by lia.
    rewrite Z.eqb_refl. reflexivity.
  - unfold key_eq, is_valid, OFF_TOMB. cbn [offset].
    replace (off <? 4294967294) with true by (symmetry; apply Z.ltb_lt; lia). cbn [negb].
    rewrite E3. cbn [mbind option_bind]. rewrite Z.eqb_refl. cbn [negb].
    rewrite E1. cbn [mbind option_bind]. rewrite Z.eqb_refl. cbn [negb].
    rewrite E4. cbn [mbind option_bind]. rewrite bool_decide_true by reflexivity. reflexivity.
Qed.

(** The slot [put] picks is inside the table; [find] run again on the
    table with that slot replaced by a hit stops there. *)
Lemma find_insert_hit (sl : list Slot) (n tag klen h j : Z) (keq : Slot -> option bool)
    (b : bool) (s' : Slot) :
  0 <= n <= 31 -> length sl = Z.to_nat (2 ^ n) ->
  find_loop sl (2 ^ n - 1) tag klen keq (Z.to_nat (2 ^ n)) (Z.land h (2 ^ n - 1)) UINT32_MAX
    = Some (j, b) ->
  hit tag klen keq s' ->
  0 <= j < 2 ^ n /\
  find_loop (<[Z.to_nat j := s']> sl) (2 ^ n - 1) tag klen keq (Z.to_nat (2 ^ n))
    (Z.land h (2 ^ n - 1)) UINT32_MAX = Some (j, true).
Proof.
  intros Hn Hlen Hf Hhit.
  set (home := Z.land h (2 ^ n - 1)) in *.
  pose proof (home_range n h Hn) as Hhome. fold home in Hhome.
  assert (Hpos : 0 < 2 ^ n) by (apply Z.pow_pos_nonneg; lia).
  assert (Hex : exists i, (i < Z.to_nat (2 ^ n))%nat /\ pos (2 ^ n - 1) home i = j /\
                  prefix_passes sl (2 ^ n - 1) tag klen keq home i).
  { destruct (find_loop_reach _ _ _ _ _ _ _ _ _ _ Hf)
      as [[_ Hne]|[[i [Hi [-> Hpre]]]|[-> Hpre]]].
    - unfold UINT32_MAX in Hne. congruence.
    - exists i. auto.
    - exists O. split; [lia|]. split; [cbn [pos]; symmetry; apply pos_full; lia|intros i Hi; lia]. }
  destruct Hex as [i [Hi [Hj Hpre]]].
  assert (Hjr : 0 <= j < 2 ^ n) by (rewrite <- Hj; apply pos_range; lia).
  split; [exact Hjr|].
  destruct (dec_inh_nat_subset_has_unique_least_element (fun m => pos (2 ^ n - 1) home m = j))
    as [m [[Hm Hmin] _]].
  { intros m. destruct (Z.eq_dec (pos (2 ^ n - 1) home m) j); auto. }
  { exists i. exact Hj. }
  assert (Hmi : (m <= i)%nat) by (apply Hmin; exact Hj).
  rewrite <- Hm at 2. apply hit_after_prefix; [lia| |].
  - intros k Hk.
    assert (Hkj : pos (2 ^ n - 1) home k <> j).
    { intros E. apply Hmin in E. lia. }
    pose proof (pos_range n home k Hn Hhome).
    destruct (Hpre k ltac:(lia)) as [s [Hs Hp]].
    exists s. split; [|exact Hp].
    rewrite list_lookup_insert_ne; [exact Hs|lia].
  - exists s'. split; [|exact Hhit]. rewrite Hm.
    apply list_lookup_insert_eq. rewrite Hlen. lia.
Qed.

(** ** Shapes of the other outcomes *)

Lemma set_slot_Some (ix ix' : Index) (idx : Z) (s : Slot) :
  set_slot ix idx s = Some ix' ->
  0 <= idx < Z.of_nat (length (slots_ ix)) /\
  ix' = mkIndex (<[Z.to_nat idx := s]> (slots_ ix)) (capacity_ ix) (mask_ ix).
Proof.
  unfold set_slot. destruct ((0 <=? idx) && (idx <? Z.of_nat (length (slots_ ix)))) eqn:E;
    intros H; inversion H; subst.
  apply andb_true_iff in E as [E1 E2]. apply Z.leb_le in E1. apply Z.ltb_lt in E2. auto.
Qed.

Lemma set_slot_wf (ix ix' : Index) (idx : Z) (s : Slot) :
  set_slot ix idx s = Some ix' -> wf_index ix -> wf_index ix'.
Proof.
  intros H Hw. apply set_slot_Some in H as [_ ->].
  unfold wf_index in *.
  destruct Hw as [[Hc Hs]|[n [Hn [Hc [Hm Hl]]]]]; cbn [slots_ capacity_ mask_].
  - left. rewrite Hs. split; [exact Hc|reflexivity].
  - right. exists n. rewrite length_insert. auto.
Qed.

Lemma Index_tombstone_Some (ix ix' : Index) (idx : Z) :
  Index_tombstone ix idx = Some ix' ->
  exists s, slots_ ix !! Z.to_nat idx = Some s /\ set_slot ix idx (make_tombstone s) = Some ix'.
Proof.
  unfold Index_tombstone. intros H. unbind H. eexists. split; [reflexivity|exact H].
Qed.

(** A [put] that does not return [OK]. *)
Lemma put_not_OK_inv (st st1 : Hyperion) (key val : list Byte.byte) (r : Status) :
  put st key val = Some (r, st1) -> r <> OK ->
  ((r = KeyTooLong \/ r = ValTooLong) /\ st1 = st) \/
  (r = ArenaFull /\ index_ st1 = index_ st /\ seq_ st1 = seq_ st /\
   mem (arena_ st1) = mem (arena_ st) /\ size_ (arena_ st1) = size_ (arena_ st) /\
   size_ (arena_ st) <
     u32 (offset_ (arena_ st) + entry_size (Z.of_nat (length key)) (Z.of_nat (length val))) /\
   offset_ (arena_ st1) =
     u32 (offset_ (arena_ st) + entry_size (Z.of_nat (length key)) (Z.of_nat (length val)))).
Proof.
  intros H Hr. unfold put in H.
  destruct (MAX_KEY <? Z.of_nat (length key)) eqn:Hk; [injection H as <- <-; auto|].
  destruct (MAX_VAL <? Z.of_nat (length val)) eqn:Hv; [injection H as <- <-; auto|].
  unfold Arena_alloc in H.
  destruct (size_ (arena_ st) <? _) eqn:Ha.
  - cbn iota beta in H. injection H as <- <-. right. apply Z.ltb_lt in Ha.
    repeat split; auto.
  - cbn iota beta in H.
    unbind H. unbind H. unbind H. unbind H. unbind H. unbind H.
    destruct p as [j b]. unbind H. injection H as <- _. congruence.
Qed.

Lemma del_inv (st st1 : Hyperion) (key : list Byte.byte) (r : Status) :
  del st key = Some (r, st1) ->
  arena_ st1 = arena_ st /\ seq_ st1 = seq_after_write (seq_ st) /\
  exists j b,
    Index_find (index_ st) (Index_hash key) (Z.of_nat (length key))
      (key_eq (arena_ st) (Index_hash key) key) = Some (j, b) /\
    ((b = true /\ r = OK /\ Index_tombstone (index_ st) j = Some (index_ st1)) \/
     (b = false /\ r = NotFound /\ index_ st1 = index_ st)).
Proof.
  intros H. unfold del in H. unbind H. destruct p as [j b].
  destruct b.
  - unbind H. injection H as <- <-. cbn [arena_ seq_ index_]. split; [reflexivity|split; [reflexivity|]].
    exists j, true. split; [first [exact E|reflexivity]|]. left. auto.
  - injection H as <- <-. cbn [arena_ seq_ index_]. split; [reflexivity|split; [reflexivity|]].
    exists j, false. split; [first [exact E|reflexivity]|]. right. auto.
Qed.

(** ** Well-formed stores *)

Definition wf_store (st : Hyperion) : Prop :=
  size_ (arena_ st) <= UINT32_MAX /\ wf_index (index_ st).

Lemma create_wf (bytes slots : Z) (mmap_ok : bool) :
  0 <= slots <= UINT32_MAX -> wf_store (snd (create bytes slots mmap_ok)).
Proof.
  intros Hs. unfold wf_store, create, Arena_create.
  destruct (UINT32_MAX <? bytes) eqn:Hb.
  - split; cbv [snd arena_ index_ size_ Hyperion_default Arena_default Index_default];
      [unfold UINT32_MAX; lia|left; auto].
  - destruct (negb mmap_ok);
      cbv [snd arena_ index_ size_ Hyperion_default Arena_default Index_default].
    + split; cbn [arena_ index_ size_ slots_ capacity_]; [unfold UINT32_MAX; lia|left; auto].
    + split; [apply Z.ltb_ge in Hb; exact Hb|]. apply Index_init_wf. exact Hs.
Qed.

Lemma put_wf (st st1 : Hyperion) (key val : list Byte.byte) (r : Status) :
  wf_store st -> put st key val = Some (r, st1) -> wf_store st1.
Proof.
  intros [Hs Hw] H. destruct (decide (r = OK)) as [->|Hr].
  - apply put_OK_inv in H as [_ [_ [j [b [_ [Hu [_ [_ [Hsz _]]]]]]]]].
    split; [lia|]. apply (set_slot_wf _ _ _ _ Hu Hw).
  - destruct (put_not_OK_inv _ _ _ _ _ H Hr) as [[_ ->]|[_ [Hi [_ [_ [Hsz _]]]]]].
    + split; assumption.
    + split; [lia|]. rewrite Hi. exact Hw.
Qed.

Lemma del_wf (st st1 : Hyperion) (key : list Byte.byte) (r : Status) :
  wf_store st -> del st key = Some (r, st1) -> wf_store st1.
Proof.
  intros [Hs Hw] H. apply del_inv in H as [Ha [_ [j [b [_ [[_ [_ Ht]]|[_ [_ Hi]]]]]]]].
  - split; [rewrite Ha; exact Hs|].
    apply Index_tombstone_Some in Ht as [s [_ Hset]]. apply (set_slot_wf _ _ _ _ Hset Hw).
  - split; [rewrite Ha; exact Hs|]. rewrite Hi. exact Hw.
Qed.

Lemma run_wf (st st1 : Hyperion) (ops : list Op) (rs : list Status) :
  wf_store st -> run st ops = Some (rs, st1) -> wf_store st1.
Proof.
  revert st rs. induction ops as [|op ops IH]; intros st rs Hw H; cbn [run] in H.
  - injection H as _ <-. exact Hw.
  - unbind H. destruct p as [r st0]. unbind H. destruct p as [rs' st2].
    injection H as _ <-. apply (IH st0 rs'); [|exact E0].
    destruct op; cbn [exec] in E; [eapply put_wf|eapply del_wf]; eauto.
Qed.

Lemma reachable_wf (bytes slots : Z) (mmap_ok : bool) (ops : list Op) (rs : list Status)
    (st : Hyperion) :
  0 <= slots <= UINT32_MAX -> run (snd (create bytes slots mmap_ok)) ops = Some (rs, st) ->
  wf_store st.
Proof. intros Hs H. eapply run_wf; [apply create_wf, Hs|exact H]. Qed.

(** After a successful [put] on a well-formed store, [find] on the new
    table stops at the new slot, which holds the new record. *)
Lemma put_OK_find (st st1 : Hyperion) (key val : list Byte.byte) :
  wf_store st -> put st key val = Some (OK, st1) ->
  exists j n,
    0 <= n <= 31 /\ capacity_ (index_ st1) = 2 ^ n /\ mask_ (index_ st1) = 2 ^ n - 1 /\
    length (slots_ (index_ st1)) = Z.to_nat (2 ^ n) /\ 0 <= j < 2 ^ n /\
    Index_find (index_ st1) (Index_hash key) (Z.of_nat (length key))
      (key_eq (arena_ st1) (Index_hash key) key) = Some (j, true) /\
    slots_ (index_ st1) !! Z.to_nat j =
      Some (mkSlot (byte_of_Z (Z.shiftr (Index_hash key) 24)) (byte_of_Z (Z.of_nat (length key)))
              (u16 (Z.of_nat (length val))) (offset_ (arena_ st))) /\
    entry_at (arena_ st1) (offset_ (arena_ st)) key val.
Proof.
  intros [Hsz Hw] H.
  apply put_OK_inv in H
    as [Hk [Hv [j [b [Hf [Hu [_ [He [Hs1 [_ [Ho [Hle _]]]]]]]]]]]].
  unfold Index_update in Hu. pose proof Hu as Hu'.
  apply set_slot_Some in Hu as [Hj Hix]. rewrite Hix. cbn [slots_ capacity_ mask_].
  destruct Hw as [[_ Hnil]|[n [Hn [Hc [Hm Hl]]]]].
  - rewrite Hnil in Hj. cbn in Hj. lia.
  - unfold Index_find in Hf. rewrite Hc, Hm in Hf.
    pose proof (new_slot_hit (arena_ st1) (offset_ (arena_ st)) (u16 (Z.of_nat (length val)))
                  key val He Hk) as Hhit.
    destruct (find_insert_hit _ _ _ _ _ _ _ _ _ Hn Hl Hf
                (Hhit ltac:(unfold OFF_TOMB, HDR, UINT32_MAX in *; lia))) as [Hjr Hf'].
    exists j, n. rewrite Hc, Hm, length_insert, Hl.
    do 5 (split; [first [assumption|reflexivity]|]).
    split; [unfold Index_find; cbn beta iota zeta delta [slots_ capacity_ mask_]; exact Hf'|].
    split; [apply list_lookup_insert_eq; lia|exact He].
Qed.

Lemma put_get_wf (st st1 : Hyperion) (key val out : list Byte.byte) :
  wf_store st -> put st key val = Some (OK, st1) -> get st1 key out = Some (OK, val).
Proof.
  intros Hw H.
  destruct (put_OK_find _ _ _ _ Hw H) as [j [n [_ [_ [_ [_ [_ [Hf [Hs He]]]]]]]]].
  destruct He as [E1 [E2 [_ [_ E5]]]].
  unfold get. rewrite Hf. cbn [mbind option_bind]. rewrite Hs. cbn [mbind option_bind offset].
  rewrite E1. cbn [mbind option_bind]. rewrite E2. cbn [mbind option_bind].
  rewrite E5. reflexivity.
Qed.

(** * Claims *)

(** C1 (round trip).  On any store reached from [create] by a sequence of
    [put]/[delete] operations, if [put(k, v)] returns [OK] then the next
    [get(k)] returns [OK] with exactly the bytes of [v] (whatever the
    caller's buffer held before). *)
Theorem put_get_roundtrip (bytes_ slots : Z) (mmap_ok : bool) (ops : list Op)
    (rs : list Status) (st st1 : Hyperion) (key val out : list Byte.byte) :
  0 <= slots <= UINT32_MAX ->
  run (snd (create bytes_ slots mmap_ok)) ops = Some (rs, st) ->
  put st key val = Some (OK, st1) ->
  get st1 key out = Some (OK, val).
Proof.
  intros Hs Hrun Hput. eapply put_get_wf; [|exact Hput].
  eapply reachable_wf; [exact Hs|exact Hrun].
Qed.

Lemma put_get_roundtrip_witness :
  run db_small ops_small = Some ([OK; OK; OK], after_run db_small ops_small) /\
  put (after_run db_small ops_small) (bytes "key") (bytes "value") =
    Some (OK, after_put (after_run db_small ops_small) (bytes "key") (bytes "value")) /\
  get (after_put (after_run db_small ops_small) (bytes "key") (bytes "value"))
    (bytes "key") (bytes "old") = Some (OK, bytes "value").
Proof.
  split; [vm_compute; reflexivity|]. split; [vm_compute; reflexivity|].
  apply (put_get_roundtrip 1024 8 true ops_small [OK; OK; OK] (after_run db_small ops_small)).
  - unfold UINT32_MAX. lia.
  - vm_compute. reflexivity.
  - vm_compute. reflexivity.
Defined.

(** [get] reports [OK], or [NotFound] with the buffer it was given. *)
Lemma get_status (st : Hyperion) (key out v : list Byte.byte) (r : Status) :
  get st key out = Some (r, v) -> r = OK \/ (r = NotFound /\ v = out).
Proof.
  intros H. unfold get in H. unbind H. destruct p as [j [|]].
  - unbind H. unbind H. unbind H. unbind H. injection H as <- _. left. reflexivity.
  - injection H as <- <-. right. auto.
Qed.

(** Claim C10 (output buffer on a miss), counterexample.  [get] may run
    concurrently with the writer.  A reader of [b] starts on [st_w]
    (version [v]), finds [b] and copies its value ["2"] into the buffer;
    meanwhile the writer deletes [b] and publishes [v + 2].  The check
    [v1 == v2] fails, the retry runs on the new table, misses, and [get]
    returns [NotFound] with the buffer holding ["2"] instead of the
    caller's empty buffer. *)
Lemma get_seq_race :
  exec st_w (OpDel (bytes "b")) = Some (OK, st_wd) /\
  seq_ st_wd = seq_after_write (seq_ st_w) /\
  get st_w (bytes "b") [] = Some (OK, bytes "2") /\
  get_seq atts_race (bytes "b") [] = Some (NotFound, bytes "2") /\
  bytes "2" <> [].
Proof.
  split; [reflexivity|]. split; [reflexivity|]. split; [vm_compute; reflexivity|].
  split; [vm_compute; reflexivity|]. discriminate.
Qed.

(** Claim C10 (output buffer on a miss), amended.  When [get] returns
    [NotFound], the buffer is the caller's buffer unchanged, or the value
    that an earlier attempt found and copied out before its version check
    failed ([v1 <> v2], a concurrent write).  With no concurrent write
    every attempt has [v1 = v2] and the buffer is unchanged. *)
Theorem get_seq_NotFound_buffer (atts : list Attempt) (key out v : list Byte.byte) :
  get_seq atts key out = Some (NotFound, v) ->
  v = out \/
  exists a o, In a atts /\ at_v1 a <> at_v2 a /\ get (at_state a) key o = Some (OK, v).
Proof.
  revert out. induction atts as [|a atts IH]; intros out H; cbn [get_seq] in H; [discriminate H|].
  destruct (Z.testbit (at_v1 a) 0).
  - destruct (IH _ H) as [->|[a' [o [Hin Ha]]]]; [left; reflexivity|].
    right. exists a', o. split; [right; exact Hin|exact Ha].
  - destruct (get (at_state a) key out) as [[r o1]|] eqn:Hg; cbn [mbind option_bind] in H;
      [|discriminate H].
    destruct (at_v1 a =? at_v2 a) eqn:Hv.
    + injection H as -> ->. destruct (get_status _ _ _ _ _ Hg) as [Hr|[_ ->]];
        [discriminate Hr|left; reflexivity].
    + apply Z.eqb_neq in Hv.
      destruct (IH _ H) as [->|[a' [o [Hin Ha]]]].
      * destruct (get_status _ _ _ _ _ Hg) as [->|[-> ->]]; [|left; reflexivity].
        right. exists a, out. split; [left; reflexivity|]. auto.
      * right. exists a', o. split; [right; exact Hin|exact Ha].
Qed.

(** The race above: the buffer holds the value of the aborted attempt. *)
Lemma get_seq_NotFound_witness :
  get_seq atts_race (bytes "b") [] = Some (NotFound, bytes "2") /\
  (bytes "2" = [] \/
   exists a o, In a atts_race /\ at_v1 a <> at_v2 a /\
     get (at_state a) (bytes "b") o = Some (OK, bytes "2")).
Proof.
  assert (H : get_seq atts_race (bytes "b") [] = Some (NotFound, bytes "2")) by (vm_compute; reflexivity).
  split; [exact H|]. exact (get_seq_NotFound_buffer _ _ _ _ H).
Defined.

(** A key length above 255 never passes the filter on the 8-bit
    [key_len]: the probe only ends at an [EMPTY] slot or after the last
    probe, with [found = false]. *)
Lemma find_loop_long_key (sl : list Slot) (mask tag klen : Z) (keq : Slot -> option bool)
    (fuel : nat) (idx ft : Z) :
  MAX_KEY < klen ->
  (forall i, (i < fuel)%nat -> is_Some (sl !! Z.to_nat (pos mask idx i))) ->
  exists j, find_loop sl mask tag klen keq fuel idx ft = Some (j, false).
Proof.
  revert idx ft. induction fuel as [|f IH]; intros idx ft Hk Hin; cbn [find_loop].
  - eexists. reflexivity.
  - destruct (Hin O ltac:(lia)) as [s Hs]. cbn [pos] in Hs. rewrite Hs. cbn [mbind option_bind].
    assert (Hrest : exists j, find_loop sl mask tag klen keq f (next_idx idx mask) ft = Some (j, false)
                      /\ exists j', find_loop sl mask tag klen keq f (next_idx idx mask)
                                     (tomb_or ft idx) = Some (j', false)).
    { destruct (IH (next_idx idx mask) ft Hk) as [j Hj].
      { intros i Hi. apply (Hin (S i)). lia. }
      destruct (IH (next_idx idx mask) (tomb_or ft idx) Hk) as [j' Hj'].
      { intros i Hi. apply (Hin (S i)). lia. }
      eauto. }
    destruct Hrest as [j [Hj [j' Hj']]].
    destruct (is_empty s); [eexists; reflexivity|].
    destruct (is_tombstone s); [eexists; exact Hj'|].
    pose proof (bval_range (key_len s)). unfold MAX_KEY in Hk.
    replace (bval (key_len s) =? klen) with false by (symmetry; apply Z.eqb_neq; lia).
    rewrite andb_false_r. eexists. exact Hj.
Qed.

Lemma Index_find_long_key (ix : Index) (h klen : Z) (keq : Slot -> option bool) :
  wf_index ix -> MAX_KEY < klen -> exists j, Index_find ix h klen keq = Some (j, false).
Proof.
  intros Hw Hk. unfold Index_find. apply find_loop_long_key; [exact Hk|].
  intros i Hi. apply lookup_lt_is_Some_2.
  destruct Hw as [[Hc _]|[n [Hn [Hc [Hm Hl]]]]].
  - rewrite Hc in Hi. cbn in Hi. lia.
  - rewrite Hm, Hl. pose proof (home_range n h Hn).
    pose proof (pos_range n (Z.land h (2 ^ n - 1)) i Hn ltac:(lia)). lia.
Qed.

(** C9 (no key-length check in [get] / [delete]).  On any reachable
    store, a key longer than 255 bytes is reported [NotFound] by [get]
    (buffer untouched) and by [delete] (table untouched), never
    [KeyTooLong]. *)
Theorem long_key_NotFound (bytes_ slots : Z) (mmap_ok : bool) (ops : list Op)
    (rs : list Status) (st : Hyperion) (key out : list Byte.byte) :
  0 <= slots <= UINT32_MAX ->
  run (snd (create bytes_ slots mmap_ok)) ops = Some (rs, st) ->
  MAX_KEY < Z.of_nat (length key) ->
  get st key out = Some (NotFound, out) /\
  del st key = Some (NotFound, mkHyperion (arena_ st) (seq_after_write (seq_ st)) (index_ st)).
Proof.
  intros Hs Hrun Hk. destruct (reachable_wf _ _ _ _ _ _ Hs Hrun) as [_ Hw].
  destruct (Index_find_long_key (index_ st) (Index_hash key) (Z.of_nat (length key))
              (key_eq (arena_ st) (Index_hash key) key) Hw Hk) as [j Hj].
  unfold get, del. rewrite Hj. split; reflexivity.
Qed.

Lemma long_key_NotFound_witness :
  run db_small ops_small = Some ([OK; OK; OK], after_run db_small ops_small) /\
  get (after_run db_small ops_small) (repeat Byte.x62 256) [] = Some (NotFound, []) /\
  del (after_run db_small ops_small) (repeat Byte.x62 256) =
    Some (NotFound, mkHyperion (arena_ (after_run db_small ops_small))
                      (seq_after_write (seq_ (after_run db_small ops_small)))
                      (index_ (after_run db_small ops_small))).
Proof.
  split; [vm_compute; reflexivity|].
  apply (long_key_NotFound 1024 8 true ops_small [OK; OK; OK]).
  - unfold UINT32_MAX. lia.
  - vm_compute. reflexivity.
  - rewrite repeat_length. unfold MAX_KEY. lia.
Defined.

(** Published FNV-1a test vectors. *)
Example Index_hash_vectors :
  Index_hash (bytes "") = 2166136261 /\ Index_hash (bytes "a") = 3826002220 /\
  Index_hash (bytes "foobar") = 3214735720.
Proof. vm_compute. repeat split. Qed.

Lemma fnv_loop_fold (h : Z) (data : list Byte.byte) :
  fnv_loop h data =
  fold_left (fun h b => Z.land (Z.lxor h (bval b) * 16777619) (Z.ones 32)) data h.
Proof.
  revert h. induction data as [|b data IH]; intros h; cbn [fnv_loop fold_left]; [reflexivity|].
  rewrite IH. f_equal. unfold u32. rewrite Z.land_ones by lia. reflexivity.
Qed.

(** C7 (hash, tag and home bucket).  The hash of [put], [get] and
    [delete] is 32-bit FNV-1a; the tag [put] stores in the slot has the
    value [h >> 24], the tag [find] compares against is [h >> 24] too, and
    the probe starts at [h & mask]. *)
Theorem hash_is_fnv1a (data : list Byte.byte) :
  Index_hash data = fnv1a_32_spec data /\
  bval (byte_of_Z (Z.shiftr (Index_hash data) 24)) = Z.shiftr (Index_hash data) 24 /\
  Z.land (Z.shiftr (Index_hash data) 24) 255 = Z.shiftr (Index_hash data) 24 /\
  (forall ix klen keq,
     Index_find ix (Index_hash data) klen keq =
     find_loop (slots_ ix) (mask_ ix) (Z.shiftr (Index_hash data) 24) klen keq
       (Z.to_nat (capacity_ ix)) (Z.land (Index_hash data) (mask_ ix)) UINT32_MAX).
Proof.
  pose proof (Index_hash_range data) as Hr.
  assert (Ht : Z.land (Z.shiftr (Index_hash data) 24) 255 = Z.shiftr (Index_hash data) 24).
  { change 255 with (Z.ones 8). rewrite Z.land_ones by lia. apply Z.mod_small.
    rewrite Z.shiftr_div_pow2 by lia. split; [apply Z.div_pos; lia|].
    apply Z.div_lt_upper_bound; lia. }
  split; [apply fnv_loop_fold|]. split; [rewrite tag_of_hash; exact Ht|].
  split; [exact Ht|]. intros ix klen keq. unfold Index_find. rewrite Ht. reflexivity.
Qed.

(** C8 (power-of-two rounding).  In 32 bits the rounding overflows for a
    request above [2^31]: [Index::init(2^31 + 1)] gets capacity 0, mask
    [0xFFFFFFFF] and an empty slot array, and the first [put] on such a
    store indexes that empty array (undefined behaviour, [None]). *)
Theorem Index_init_overflow :
  capacity_ (Index_init (2 ^ 31 + 1)) = 0 /\ mask_ (Index_init (2 ^ 31 + 1)) = UINT32_MAX /\
  slots_ (Index_init (2 ^ 31 + 1)) = [] /\
  put (snd (create 1024 (2 ^ 31 + 1) true)) (bytes "k") (bytes "v") = None.
Proof. vm_compute. repeat split. Qed.

(** For requests up to [2^31], the capacity is the least power of two
    [>= max(s, 8)] and the mask is the capacity minus one. *)
Theorem Index_init_capacity (s : Z) :
  0 <= s <= 2 ^ 31 ->
  (exists n, 0 <= n /\ capacity_ (Index_init s) = 2 ^ n) /\
  Z.max s 8 <= capacity_ (Index_init s) /\
  (forall n, 0 <= n -> Z.max s 8 <= 2 ^ n -> capacity_ (Index_init s) <= 2 ^ n) /\
  mask_ (Index_init s) = capacity_ (Index_init s) - 1.
Proof.
  intros Hs. destruct (Index_init_shape s Hs) as [Hc [Hm [_ Hn]]].
  destruct (pow2_log2_least (Z.max s 8) ltac:(lia)) as [Hge Hleast].
  rewrite Hm, Hc. split; [eexists; split; [|reflexivity]; lia|].
  split; [exact Hge|]. split; [exact Hleast|reflexivity].
Qed.

Lemma Index_init_capacity_witness :
  1000 <= capacity_ (Index_init 1000) <= 1024 /\
  mask_ (Index_init 1000) = capacity_ (Index_init 1000) - 1.
Proof.
  destruct (Index_init_capacity 1000 ltac:(lia)) as [_ [Hge [Hl Hm]]].
  split; [split; [lia|apply (Hl 10); lia]|exact Hm].
Defined.

(** C2, as stated, fails: the [fetch_add] of [Arena::alloc] moves the
    cursor before the bound check and nothing moves it back.  On
    [create(64, 8)] a [put] of a 60-byte value returns [ArenaFull] and
    leaves the cursor at 80 instead of 8; from the state before, a
    [put("a", "b")] succeeds, from the state after it returns
    [ArenaFull]. *)
Lemma put_ArenaFull_moves_cursor :
  put db64 (bytes "k") (repeat Byte.x61 60) =
    Some (ArenaFull, after_put db64 (bytes "k") (repeat Byte.x61 60)) /\
  offset_ (arena_ db64) = 8 /\
  offset_ (arena_ (after_put db64 (bytes "k") (repeat Byte.x61 60))) = 80 /\
  fst <$> put db64 (bytes "a") (bytes "b") = Some OK /\
  fst <$> put (after_put db64 (bytes "k") (repeat Byte.x61 60)) (bytes "a") (bytes "b") =
    Some ArenaFull.
Proof. vm_compute. repeat split. Qed.

(** C2 (amended: what a failed [put] changes).  When [put] returns
    [ArenaFull], the index slots, the seqlock version, the arena bytes and
    the arena size are unchanged; the arena cursor has advanced by the
    rounded entry size, modulo [2^32]. *)
Theorem put_ArenaFull_effect (st st1 : Hyperion) (key val : list Byte.byte) :
  put st key val = Some (ArenaFull, st1) ->
  index_ st1 = index_ st /\ seq_ st1 = seq_ st /\
  mem (arena_ st1) = mem (arena_ st) /\ size_ (arena_ st1) = size_ (arena_ st) /\
  offset_ (arena_ st1) =
    u32 (offset_ (arena_ st) + entry_size (Z.of_nat (length key)) (Z.of_nat (length val))).
Proof.
  intros H. destruct (put_not_OK_inv _ _ _ _ _ H ltac:(discriminate))
    as [[[E|E] _]|[_ [Hi [Hs [Hm [Hz [_ Ho]]]]]]]; [discriminate|discriminate|].
  auto.
Qed.

Lemma put_ArenaFull_effect_witness :
  put db64 (bytes "k") (repeat Byte.x61 60) =
    Some (ArenaFull, after_put db64 (bytes "k") (repeat Byte.x61 60)) /\
  offset_ (arena_ (after_put db64 (bytes "k") (repeat Byte.x61 60))) =
    u32 (offset_ (arena_ db64) + entry_size 1 60).
Proof.
  assert (H : put db64 (bytes "k") (repeat Byte.x61 60) =
                Some (ArenaFull, after_put db64 (bytes "k") (repeat Byte.x61 60)))
    by (vm_compute; reflexivity).
  split; [exact H|].
  destruct (put_ArenaFull_effect _ _ _ _ H) as [_ [_ [_ [_ Ho]]]]. exact Ho.
Defined.

(** A [put] whose allocation fails only bumps the cursor. *)
Lemma put_fail_step (st : Hyperion) (key val : list Byte.byte) :
  Z.of_nat (length key) <= MAX_KEY -> Z.of_nat (length val) <= MAX_VAL ->
  size_ (arena_ st) <
    u32 (offset_ (arena_ st) + entry_size (Z.of_nat (length key)) (Z.of_nat (length val))) ->
  put st key val =
    Some (ArenaFull, with_cursor st (u32 (offset_ (arena_ st) +
                        entry_size (Z.of_nat (length key)) (Z.of_nat (length val))))).
Proof.
  intros Hk Hv Ha. unfold put.
  replace (MAX_KEY <? Z.of_nat (length key)) with false by (symmetry; apply Z.ltb_ge; lia).
  replace (MAX_VAL <? Z.of_nat (length val)) with false by (symmetry; apply Z.ltb_ge; lia).
  unfold Arena_alloc. apply Z.ltb_lt in Ha. rewrite Ha. reflexivity.
Qed.

Lemma with_cursor_twice (st : Hyperion) (c c' : Z) :
  with_cursor (with_cursor st c) c' = with_cursor st c'.
Proof. reflexivity. Qed.

(** [m] failing [put]s in a row, the cursor never reaching [2^32]. *)
Lemma run_fail_repeat (st : Hyperion) (key val : list Byte.byte) (m : nat) (c : Z) :
  Z.of_nat (length key) <= MAX_KEY -> Z.of_nat (length val) <= MAX_VAL -> 0 <= c ->
  size_ (arena_ st) < c + entry_size (Z.of_nat (length key)) (Z.of_nat (length val)) ->
  0 <= entry_size (Z.of_nat (length key)) (Z.of_nat (length val)) ->
  c + Z.of_nat m * entry_size (Z.of_nat (length key)) (Z.of_nat (length val)) < 2 ^ 32 ->
  run (with_cursor st c) (repeat (OpPut key val) m) =
    Some (repeat ArenaFull m,
          with_cursor st (c + Z.of_nat m * entry_size (Z.of_nat (length key)) (Z.of_nat (length val)))).
Proof.
  set (n := entry_size (Z.of_nat (length key)) (Z.of_nat (length val))).
  intros Hk Hv. revert c. induction m as [|m IH]; intros c Hc Hs Hn Hm.
  - cbn [run repeat]. rewrite Z.mul_0_l, Z.add_0_r. reflexivity.
  - cbn [run repeat exec].
    assert (Hu : u32 (c + n) = c + n) by (unfold u32; apply Z.mod_small; lia).
    rewrite put_fail_step by (cbn [arena_ size_ offset_ with_cursor]; fold n; lia).
    cbn [arena_ offset_ with_cursor]. fold n. rewrite Hu, with_cursor_twice.
    cbn [mbind option_bind]. rewrite IH by lia. cbn [mbind option_bind].
    do 3 f_equal. lia.
Qed.

(** C3 (arena exhaustion is sticky), as stated, fails: the bound check of
    [Arena::alloc] is done in 32 bits.  On [create(64, 8)]: a [put] with a
    60-byte value returns [ArenaFull] (cursor 80); 65273 further [put]s of
    a 255-byte key and a 65535-byte value (entry size 65800) all return
    [ArenaFull] and bring the cursor to 4294963480; the next [put] of a
    1-byte key and a 3807-byte value (entry size 3816) makes
    [old_off + size] wrap to 0, so the allocation succeeds at offset
    4294963480 of a 64-byte arena, and the header write falls outside the
    mapping (undefined behaviour, [None]) instead of [ArenaFull]. *)
Theorem arena_full_not_sticky :
  put db64 (bytes "k") (repeat Byte.x61 60) = Some (ArenaFull, with_cursor db64 80) /\
  run (with_cursor db64 80)
    (repeat (OpPut (repeat Byte.x62 255) (repeat Byte.x63 (Z.to_nat 65535))) (Z.to_nat 65273))
    = Some (repeat ArenaFull (Z.to_nat 65273), with_cursor db64 4294963480) /\
  Arena_alloc (arena_ (with_cursor db64 4294963480)) (entry_size 1 3807) =
    (AE_None, 4294963480, mkArena (mem (arena_ db64)) 64 0) /\
  put (with_cursor db64 4294963480) (bytes "k") (repeat Byte.x61 3807) = None.
Proof.
  split; [vm_compute; reflexivity|].
  split.
  - set (kb := repeat Byte.x62 255). set (vb := repeat Byte.x63 (Z.to_nat 65535)).
    assert (Lk : Z.of_nat (length kb) = 255) by (unfold kb; rewrite repeat_length; reflexivity).
    assert (Lv : Z.of_nat (length vb) = 65535) by (unfold vb; rewrite repeat_length; reflexivity).
    assert (E : entry_size (Z.of_nat (length kb)) (Z.of_nat (length vb)) = 65800)
      by (rewrite Lk, Lv; vm_compute; reflexivity).
    pose proof (run_fail_repeat db64 kb vb (Z.to_nat 65273) 80) as H.
    rewrite E, Lk, Lv, Z2Nat.id in H by lia.
    unfold MAX_KEY, MAX_VAL in H. rewrite H by (vm_compute; congruence).
    reflexivity.
  - split; vm_compute; reflexivity.
Qed.

(** ** Tombstone reuse *)

Lemma count_used_insert (sl : list Slot) (i : nat) (s s' : Slot) :
  sl !! i = Some s -> is_empty s = is_empty s' -> count_used (<[i := s']> sl) = count_used sl.
Proof.
  revert i. induction sl as [|x sl IH]; intros [|i] Hs He; try discriminate.
  - change (<[O := s']> (x :: sl)) with (s' :: sl). cbn in Hs. injection Hs as ->.
    cbn [count_used]. rewrite He. reflexivity.
  - change (<[S i := s']> (x :: sl)) with (x :: <[i := s']> sl). cbn in Hs.
    cbn [count_used]. rewrite (IH i Hs He). reflexivity.
Qed.

(** The first probe position where [find] stops, and the positions before
    it, which are all non-[EMPTY]. *)
Lemma find_least_pos (sl : list Slot) (n tag klen h j : Z) (keq : Slot -> option bool)
    (b : bool) :
  0 <= n <= 31 ->
  find_loop sl (2 ^ n - 1) tag klen keq (Z.to_nat (2 ^ n)) (Z.land h (2 ^ n - 1)) UINT32_MAX
    = Some (j, b) ->
  exists m, (m < Z.to_nat (2 ^ n))%nat /\ pos (2 ^ n - 1) (Z.land h (2 ^ n - 1)) m = j /\
    0 <= j < 2 ^ n /\
    forall k, (k < m)%nat ->
      pos (2 ^ n - 1) (Z.land h (2 ^ n - 1)) k <> j /\
      at_pos sl (passes tag klen keq) (pos (2 ^ n - 1) (Z.land h (2 ^ n - 1)) k).
Proof.
  intros Hn Hf.
  set (home := Z.land h (2 ^ n - 1)) in *.
  pose proof (home_range n h Hn) as Hhome. fold home in Hhome.
  assert (Hex : exists i, (i < Z.to_nat (2 ^ n))%nat /\ pos (2 ^ n - 1) home i = j /\
                  prefix_passes sl (2 ^ n - 1) tag klen keq home i).
  { destruct (find_loop_reach _ _ _ _ _ _ _ _ _ _ Hf)
      as [[_ Hne]|[[i [Hi [-> Hpre]]]|[-> Hpre]]].
    - unfold UINT32_MAX in Hne. congruence.
    - exists i. auto.
    - exists O. assert (0 < 2 ^ n) by (apply Z.pow_pos_nonneg; lia).
      split; [lia|]. split; [cbn [pos]; symmetry; apply pos_full; lia|intros i Hi; lia]. }
  destruct Hex as [i [Hi [Hj Hpre]]].
  destruct (dec_inh_nat_subset_has_unique_least_element (fun m => pos (2 ^ n - 1) home m = j))
    as [m [[Hm Hmin] _]].
  { intros m. destruct (Z.eq_dec (pos (2 ^ n - 1) home m) j); auto. }
  { exists i. exact Hj. }
  assert (Hmi : (m <= i)%nat) by (apply Hmin; exact Hj).
  exists m. split; [lia|]. split; [exact Hm|].
  split; [rewrite <- Hj; apply pos_range; lia|].
  intros k Hk. split.
  - intros E. apply Hmin in E. lia.
  - apply Hpre. lia.
Qed.

Definition nonempty (s : Slot) : Prop := is_empty s = false.

(** [find] never answers an [EMPTY] slot while a recorded or upcoming
    tombstone lies before the first [EMPTY] slot. *)
Lemma find_loop_nonempty_target (sl : list Slot) (mask tag klen : Z)
    (keq : Slot -> option bool) (fuel : nat) (idx ft j : Z) (b : bool) :
  (forall i, (i < fuel)%nat -> 0 <= pos mask idx i < UINT32_MAX) ->
  (ft <> UINT32_MAX -> at_pos sl nonempty ft) ->
  (ft = UINT32_MAX ->
     exists i, (i < fuel)%nat /\ at_pos sl (fun s => is_tombstone s = true) (pos mask idx i) /\
       forall k, (k < i)%nat -> at_pos sl nonempty (pos mask idx k)) ->
  find_loop sl mask tag klen keq fuel idx ft = Some (j, b) ->
  at_pos sl nonempty j.
Proof.
  revert idx ft. induction fuel as [|f IH]; intros idx ft Hr Hne Htm H; cbn [find_loop] in H.
  - injection H as <- _. unfold tomb_or.
    destruct (ft =? UINT32_MAX) eqn:E.
    + apply Z.eqb_eq in E. destruct (Htm E) as [i [Hi _]]. lia.
    + apply Z.eqb_neq in E. apply Hne, E.
  - destruct (Hr O ltac:(lia)) as [Hi0 Hi1]. cbn [pos] in Hi0, Hi1.
    destruct (sl !! Z.to_nat idx) as [s|] eqn:Hs; cbn [mbind option_bind] in H; [|discriminate].
    assert (Hr' : forall i, (i < f)%nat -> 0 <= pos mask (next_idx idx mask) i < UINT32_MAX).
    { intros i Hi. apply (Hr (S i)). lia. }
    assert (Hself : is_empty s = false -> at_pos sl nonempty idx).
    { intros He. exists s. split; [exact Hs|exact He]. }
    destruct (is_empty s) eqn:He.
    + injection H as <- _. unfold tomb_or.
      destruct (ft =? UINT32_MAX) eqn:E.
      * apply Z.eqb_eq in E. destruct (Htm E) as [[|i] [Hi [[s0 [Hs0 Ht0]] Hpre]]].
        -- cbn [pos] in Hs0. rewrite Hs in Hs0. injection Hs0 as <-.
           unfold is_empty, is_tombstone in *. apply Z.eqb_eq in He. apply Z.eqb_eq in Ht0.
           unfold OFF_EMPTY, OFF_TOMB in *. lia.
        -- destruct (Hpre O ltac:(lia)) as [s9 [Hs9 Hn0]]. cbn [pos] in Hs9.
           rewrite Hs in Hs9. injection Hs9 as <-. unfold nonempty in Hn0. congruence.
      * apply Z.eqb_neq in E. apply Hne, E.
    + assert (Hft : forall ft', (ft' <> UINT32_MAX -> at_pos sl nonempty ft') ->
                 (ft' = UINT32_MAX -> ft = UINT32_MAX /\ is_tombstone s = false) ->
                 find_loop sl mask tag klen keq f (next_idx idx mask) ft' = Some (j, b) ->
                 at_pos sl nonempty j).
      { intros ft' Hne' Htm' Hrec. apply (IH _ ft' Hr' Hne'); [|exact Hrec].
        intros E'. destruct (Htm' E') as [E Ht]. destruct (Htm E) as [[|i] [Hi [Htomb Hpre]]].
        - destruct Htomb as [s0 [Hs0 Ht0]]. cbn [pos] in Hs0. rewrite Hs in Hs0.
          injection Hs0 as <-. congruence.
        - exists i. split; [lia|]. split; [exact Htomb|].
          intros k Hk. apply (Hpre (S k)). lia. }
      destruct (is_tombstone s) eqn:Ht.
      * apply (Hft (tomb_or ft idx)); [| |exact H]; unfold tomb_or.
        -- destruct (ft =? UINT32_MAX); [intros _; apply Hself; reflexivity|exact Hne].
        -- destruct (ft =? UINT32_MAX) eqn:E; intros E'; [unfold UINT32_MAX in *; lia|].
           apply Z.eqb_neq in E. congruence.
      * destruct ((bval (hash_tag s) =? tag) && (bval (key_len s) =? klen)).
        -- destruct (keq s) as [[|]|]; cbn [mbind option_bind] in H; [| |discriminate].
           ++ injection H as <- _. apply Hself. reflexivity.
           ++ apply (Hft ft); auto.
        -- apply (Hft ft); auto.
Qed.

(** C5 (tombstone reuse).  On any reachable store, after
    [put(k, v); delete(k); put(k, v')], all three succeeding, [get(k)]
    returns [OK] with [v'], and the number of non-[EMPTY] slots is the same
    as right after [put(k, v)]: the second [put] takes the tombstone (or
    another non-[EMPTY] slot), never an [EMPTY] one. *)
Theorem put_del_put_reuse (bytes_ slots : Z) (mmap_ok : bool) (ops : list Op)
    (rs : list Status) (st st1 st2 st3 : Hyperion) (key v v' out : list Byte.byte) :
  0 <= slots <= UINT32_MAX ->
  run (snd (create bytes_ slots mmap_ok)) ops = Some (rs, st) ->
  put st key v = Some (OK, st1) -> del st1 key = Some (OK, st2) ->
  put st2 key v' = Some (OK, st3) ->
  get st3 key out = Some (OK, v') /\
  count_used (slots_ (index_ st3)) = count_used (slots_ (index_ st1)).
Proof.
  intros Hs Hrun Hp1 Hd Hp3.
  pose proof (reachable_wf _ _ _ _ _ _ Hs Hrun) as Hw.
  pose proof (put_wf _ _ _ _ _ Hw Hp1) as Hw1.
  pose proof (del_wf _ _ _ _ Hw1 Hd) as Hw2.
  split; [eapply put_get_wf; [exact Hw2|exact Hp3]|].
  destruct (put_OK_find _ _ _ _ Hw Hp1)
    as [j [n [Hn [Hc1 [Hm1 [Hl1 [Hjr [Hf1 [Hs1 _]]]]]]]]].
  destruct (del_inv _ _ _ _ Hd) as [Ha2 [_ [j' [b [Hf' [[_ [_ Ht]]|[_ [E _]]]]]]]];
    [|discriminate E].
  rewrite Hf1 in Hf'. injection Hf' as <- _.
  apply Index_tombstone_Some in Ht as [s1 [Hs1' Hset]]. rewrite Hs1 in Hs1'.
  injection Hs1' as <-.
  apply set_slot_Some in Hset as [_ Hix2].
  apply put_OK_inv in Hp3
    as [_ [_ [j2 [b2 [Hf2 [Hu [_ [_ [_ [_ [_ [Hle _]]]]]]]]]]]].
  unfold Index_update in Hu. apply set_slot_Some in Hu as [Hj2 Hix3].
  destruct Hw2 as [Hsz2 _].
  rewrite Hix3. cbn [slots_].
  set (sl1 := slots_ (index_ st1)) in *.
  set (s1 := mkSlot (byte_of_Z (Z.shiftr (Index_hash key) 24))
                    (byte_of_Z (Z.of_nat (length key))) (u16 (Z.of_nat (length v)))
                    (offset_ (arena_ st))) in *.
  assert (Hsl2 : slots_ (index_ st2) = <[Z.to_nat j := make_tombstone s1]> sl1)
    by (rewrite Hix2; reflexivity).
  assert (Hne1 : is_empty s1 = false).
  { pose proof (proj1 Hw) as Hsz0.
    destruct (put_OK_inv _ _ _ _ Hp1) as [_ [_ [_ [_ [_ [_ [_ [_ [_ [_ [_ [Hle1 _]]]]]]]]]]]].
    unfold is_empty, s1, OFF_EMPTY, HDR, UINT32_MAX in *. cbn [offset].
    apply Z.eqb_neq. lia. }
  (* the slot the second [put] takes is not [EMPTY] *)
  assert (Hnz : at_pos (slots_ (index_ st2)) nonempty j2).
  { unfold Index_find in Hf1, Hf2.
    rewrite Hix2 in Hf2. cbn [slots_ capacity_ mask_] in Hf2.
    rewrite Hc1, Hm1 in Hf1, Hf2.
    destruct (find_least_pos _ _ _ _ _ _ _ _ Hn Hf1) as [m [Hm [Hpm [_ Hpre]]]].
    rewrite <- Hsl2 in Hf2.
    assert (H2n : 0 < 2 ^ n <= 2 ^ 31).
    { split; [apply Z.pow_pos_nonneg; lia|apply Z.pow_le_mono_r; lia]. }
    pose proof (home_range n (Index_hash key) Hn) as Hhome.
    eapply find_loop_nonempty_target; [| | |exact Hf2].
    - intros i _. pose proof (pos_range n _ i Hn Hhome). unfold UINT32_MAX. lia.
    - intros E. unfold UINT32_MAX in E. lia.
    - intros _. exists m. split; [exact Hm|]. split.
      + exists (make_tombstone s1). rewrite Hpm, Hsl2. split; [|reflexivity].
        apply list_lookup_insert_eq. rewrite Hl1. lia.
      + intros k Hk. destruct (Hpre k Hk) as [Hkj [x [Hx [Hxe _]]]].
        exists x. split; [|exact Hxe]. rewrite Hsl2.
        pose proof (pos_range n _ k Hn Hhome).
        rewrite list_lookup_insert_ne; [exact Hx|lia]. }
  destruct Hnz as [x [Hx Hxe]].
  rewrite (count_used_insert _ _ x) by
    (first [exact Hx|unfold nonempty, is_empty, OFF_EMPTY, HDR, UINT32_MAX in *; cbn [offset];
            rewrite Hxe; symmetry; apply Z.eqb_neq; lia]).
  rewrite Hsl2. apply (count_used_insert _ _ s1); [exact Hs1|]. exact Hne1.
Qed.

Lemma put_del_put_reuse_witness :
  let st := after_run db_small ops_small in
  let st1 := after_put st (bytes "key") (bytes "v1") in
  let st2 := after_del st1 (bytes "key") in
  let st3 := after_put st2 (bytes "key") (bytes "v2") in
  put st (bytes "key") (bytes "v1") = Some (OK, st1) /\
  del st1 (bytes "key") = Some (OK, st2) /\
  put st2 (bytes "key") (bytes "v2") = Some (OK, st3) /\
  get st3 (bytes "key") [] = Some (OK, bytes "v2") /\
  count_used (slots_ (index_ st3)) = count_used (slots_ (index_ st1)).
Proof.
  intros st st1 st2 st3.
  assert (H1 : put st (bytes "key") (bytes "v1") = Some (OK, st1)) by (vm_compute; reflexivity).
  assert (H2 : del st1 (bytes "key") = Some (OK, st2)) by (vm_compute; reflexivity).
  assert (H3 : put st2 (bytes "key") (bytes "v2") = Some (OK, st3)) by (vm_compute; reflexivity).
  split; [exact H1|]. split; [exact H2|]. split; [exact H3|].
  apply (put_del_put_reuse 1024 8 true ops_small [OK; OK; OK] st st1 st2 st3 (bytes "key") (bytes "v1"));
    [unfold UINT32_MAX; lia|vm_compute; reflexivity|exact H1|exact H2|exact H3].
Defined.

(** ** Delete: a wrapped cursor leaves a second copy of the key *)

Lemma upd_mem_app (m : Z -> Byte.byte) (o o' : Z) (a b : list Byte.byte) :
  o' = o + Z.of_nat (length a) ->
  upd_mem (upd_mem m o a) o' b = upd_mem m o (a ++ b).
Proof.
  intros ->. apply functional_extensionality. intros x. unfold upd_mem.
  rewrite length_app, Nat2Z.inj_add.
  destruct (Z.leb_spec (o + Z.of_nat (length a)) x);
  destruct (Z.ltb_spec x (o + Z.of_nat (length a) + Z.of_nat (length b)));
  destruct (Z.leb_spec o x);
  destruct (Z.ltb_spec x (o + Z.of_nat (length a)));
  destruct (Z.ltb_spec x (o + (Z.of_nat (length a) + Z.of_nat (length b))));
  cbn [andb]; try lia; try reflexivity.
  - rewrite app_nth2 by lia. f_equal. lia.
  - rewrite app_nth1 by lia. reflexivity.
Qed.

(** The five header, key and value writes of [put] are one record write. *)
Lemma upd5_entry (m : Z -> Byte.byte) (c : Z) (key val : list Byte.byte) :
  upd_mem (upd_mem (upd_mem (upd_mem (upd_mem m c (le_bytes 2 (Z.of_nat (length key))))
    (c + 2) (le_bytes 2 (Z.of_nat (length val)))) (c + 4) (le_bytes 4 (Index_hash key)))
    (c + HDR) key) (c + HDR + Z.of_nat (length key)) val
  = upd_mem m c (entry_bytes key val).
Proof.
  rewrite (upd_mem_app m c (c + 2)) by (rewrite length_le_bytes; reflexivity).
  rewrite (upd_mem_app m c (c + 4)) by (rewrite length_app, !length_le_bytes; reflexivity).
  rewrite (upd_mem_app m c (c + HDR)) by (rewrite !length_app, !length_le_bytes; reflexivity).
  rewrite (upd_mem_app m c (c + HDR + Z.of_nat (length key)))
    by (rewrite !length_app, !length_le_bytes; unfold HDR; lia).
  unfold entry_bytes. rewrite <- !app_assoc. reflexivity.
Qed.

Lemma wr_bytes_in (a : Arena) (off : Z) (bs : list Byte.byte) :
  in_bounds a off (Z.of_nat (length bs)) = true ->
  wr_bytes a off bs = Some (mkArena (upd_mem (mem a) off bs) (size_ a) (offset_ a)).
Proof. intros H. unfold wr_bytes. rewrite H. reflexivity. Qed.

Lemma find_loop_S (sl : list Slot) (mask tag klen : Z) (keq : Slot -> option bool)
    (f : nat) (idx ft : Z) :
  find_loop sl mask tag klen keq (S f) idx ft =
  (s ← sl !! Z.to_nat idx;
   if is_empty s then Some (tomb_or ft idx, false)
   else if is_tombstone s then
     find_loop sl mask tag klen keq f (next_idx idx mask) (tomb_or ft idx)
   else if (bval (hash_tag s) =? tag) && (bval (key_len s) =? klen) then
     b ← keq s;
     if (b : bool) then Some (idx, true)
     else find_loop sl mask tag klen keq f (next_idx idx mask) ft
   else find_loop sl mask tag klen keq f (next_idx idx mask) ft).
Proof. reflexivity. Qed.

(** A slot pointing at an intact record of [key] matches [key]. *)
Lemma key_eq_entry (a : Arena) (key val : list Byte.byte) (s : Slot) :
  offset s < OFF_TOMB -> entry_at a (offset s) key val ->
  key_eq a (Index_hash key) key s = Some true.
Proof.
  intros Hv [E1 [_ [E3 [E4 _]]]]. unfold key_eq, is_valid.
  rewrite (proj2 (Z.ltb_lt _ _) Hv). cbn [negb]. rewrite E3. cbn [mbind option_bind].
  rewrite Z.eqb_refl. cbn [negb]. rewrite E1. cbn [mbind option_bind].
  rewrite Z.eqb_refl. cbn [negb]. rewrite E4. cbn [mbind option_bind].
  rewrite bool_decide_eq_true_2 by reflexivity. reflexivity.
Qed.

Lemma rd_bytes_upd_far (m : Z -> Byte.byte) (off : Z) (bs : list Byte.byte) (sz c1 c2 o n : Z) :
  0 <= n -> o + n <= off ->
  rd_bytes (mkArena (upd_mem m off bs) sz c1) o n = rd_bytes (mkArena m sz c2) o n.
Proof.
  intros Hn Hd. pose proof (rd_upd_other (mkArena m sz c1) off bs o n Hn (or_introl Hd)) as H.
  cbn [mem size_ offset_] in H. rewrite H. reflexivity.
Qed.

(** A record below a later write stays intact. *)
Lemma entry_at_upd_far (m : Z -> Byte.byte) (off : Z) (bs : list Byte.byte) (sz c1 c2 o : Z)
    (key val : list Byte.byte) :
  o + HDR + Z.of_nat (length key) + Z.of_nat (length val) <= off ->
  entry_at (mkArena m sz c2) o key val ->
  entry_at (mkArena (upd_mem m off bs) sz c1) o key val.
Proof.
  intros Hd [E1 [E2 [E3 [E4 E5]]]]. unfold HDR in *.
  unfold entry_at, rd_le. rewrite !(rd_bytes_upd_far m off bs sz c1 c2) by (unfold HDR; lia).
  unfold rd_le in E1, E2, E3. repeat split; assumption.
Qed.

Lemma length_key_f : Z.of_nat (length key_f) = 255.
Proof. reflexivity. Qed.

Lemma length_val_f : Z.of_nat (length val_f) = 65535.
Proof. unfold val_f. rewrite repeat_length. apply Z2Nat.id. lia. Qed.

Ltac wr_step :=
  rewrite wr_bytes_in;
  [cbn [mbind option_bind mem size_ offset_]
  |unfold in_bounds; cbn [size_];
   rewrite ?length_le_bytes, ?length_key_f, ?length_val_f;
   apply andb_true_iff; split; apply Z.leb_le; unfold HDR, UINT32_MAX in *; lia].

(** One [put] of [key_f] on an 8-slot store over a 4 GiB arena, with
    slot 1 empty or holding an earlier intact record of [key_f]. *)
Lemma fill_put (mf : Z -> Byte.byte) (c sq : Z) (sl : list Slot) :
  40 <= c -> c + 65800 <= UINT32_MAX -> 0 <= sq -> sq + 2 < 2 ^ 64 ->
  length sl = 8%nat ->
  (sl !! 1%nat = Some Slot_empty \/
   exists o, sl !! 1%nat = Some (slot_for key_f val_f o) /\ 0 <= o /\ o + 65800 <= c /\
     entry_at (mkArena mf UINT32_MAX c) o key_f val_f) ->
  put (mkHyperion (mkArena mf UINT32_MAX c) sq (mkIndex sl 8 7)) key_f val_f =
  Some (OK, mkHyperion (mkArena (upd_mem mf c (entry_bytes key_f val_f)) UINT32_MAX (c + 65800))
              (sq + 2) (mkIndex (<[1%nat := slot_for key_f val_f c]> sl) 8 7)).
Proof.
  intros Hc Hc' Hsq Hsq' Hlen Hslot.
  unfold put. cbn [arena_ index_ seq_].
  replace (MAX_KEY <? Z.of_nat (length key_f)) with false by (rewrite length_key_f; reflexivity).
  replace (MAX_VAL <? Z.of_nat (length val_f)) with false by (rewrite length_val_f; reflexivity).
  replace (entry_size (Z.of_nat (length key_f)) (Z.of_nat (length val_f))) with 65800
    by (rewrite length_key_f, length_val_f; reflexivity).
  unfold Arena_alloc. cbn [offset_ size_ mem].
  replace (u32 (c + 65800)) with (c + 65800)
    by (unfold u32; rewrite Z.mod_small; [reflexivity|unfold UINT32_MAX in *; lia]).
  replace (UINT32_MAX <? c + 65800) with false by (symmetry; apply Z.ltb_ge; lia).
  cbv beta iota zeta.
  wr_step. wr_step. wr_step. wr_step. wr_step.
  rewrite upd5_entry.
  unfold Index_find. cbn [slots_ mask_ capacity_].
  change (Z.to_nat 8) with 8%nat.
  replace (Z.land (Index_hash key_f) 7) with 1 by (vm_compute; reflexivity).
  replace (Z.land (Z.shiftr (Index_hash key_f) 24) 255) with 146 by (vm_compute; reflexivity).
  rewrite find_loop_S. change (Z.to_nat 1) with 1%nat.
  destruct Hslot as [Hl|[o [Hl [Ho [Ho' He]]]]]; rewrite Hl; cbn [mbind option_bind].
  - replace (is_empty Slot_empty) with true by reflexivity.
    replace (tomb_or UINT32_MAX 1) with 1 by reflexivity.
    cbv beta iota.
    cbn [mbind option_bind]. unfold Index_update, set_slot. cbn [slots_ capacity_ mask_].
    rewrite Hlen.
    replace ((0 <=? 1) && (1 <? Z.of_nat 8)) with true by reflexivity.
    cbn [mbind option_bind]. change (Z.to_nat 1) with 1%nat.
    unfold seq_after_write. rewrite (Z.mod_small (sq + 2)) by lia. reflexivity.
  - replace (is_empty (slot_for key_f val_f o)) with false
      by (unfold is_empty, slot_for; cbn [offset]; symmetry; apply Z.eqb_neq;
          unfold OFF_EMPTY, UINT32_MAX in *; lia).
    replace (is_tombstone (slot_for key_f val_f o)) with false
      by (unfold is_tombstone, slot_for; cbn [offset]; symmetry; apply Z.eqb_neq;
          unfold OFF_TOMB, UINT32_MAX in *; lia).
    replace ((bval (hash_tag (slot_for key_f val_f o)) =? 146) &&
             (bval (key_len (slot_for key_f val_f o)) =? Z.of_nat (length key_f))) with true
      by reflexivity.
    rewrite (key_eq_entry _ key_f val_f);
      [|change (offset (slot_for key_f val_f o)) with o; unfold OFF_TOMB, UINT32_MAX in *; lia
       |change (offset (slot_for key_f val_f o)) with o;
        apply (entry_at_upd_far _ _ _ _ _ c); [|exact He];
        rewrite length_key_f, length_val_f; unfold HDR; lia].
    cbv beta iota.
    cbn [mbind option_bind]. unfold Index_update, set_slot. cbn [slots_ capacity_ mask_].
    rewrite Hlen.
    replace ((0 <=? 1) && (1 <? Z.of_nat 8)) with true by reflexivity.
    cbn [mbind option_bind]. change (Z.to_nat 1) with 1%nat.
    unfold seq_after_write. rewrite (Z.mod_small (sq + 2)) by lia. reflexivity.
Qed.

Lemma length_entry_f : Z.of_nat (length (entry_bytes key_f val_f)) = 65798.
Proof.
  unfold entry_bytes. rewrite !length_app, !length_le_bytes, !Nat2Z.inj_add.
  rewrite length_key_f, length_val_f. reflexivity.
Qed.

Lemma S0_facts :
  put db4g key_twin val_twin = Some (OK, after_put db4g key_twin val_twin) /\
  put (after_put db4g key_twin val_twin) key_k val_old = Some (OK, S0) /\
  offset_ (arena_ (after_put db4g key_twin val_twin)) + HDR + Z.of_nat (length key_k)
    + Z.of_nat (length val_old) = 39 /\
  S0 = mkHyperion (mkArena (mem (arena_ S0)) UINT32_MAX 40) 4 (mkIndex (slots_ (index_ S0)) 8 7) /\
  slots_ (index_ S0) !! 1%nat = Some Slot_empty /\ length (slots_ (index_ S0)) = 8%nat.
Proof. repeat split; vm_compute; reflexivity. Qed.

(** Past the two records of [S0] the arena is still zero. *)
Lemma S0_mem_high (x : Z) : 40 <= x -> mem (arena_ S0) x = Byte.x00.
Proof.
  intros Hx. destruct S0_facts as [P1 [P2 [E _]]].
  destruct (put_OK_inv _ _ _ _ P2) as [_ [_ [_ [_ [_ [_ [_ [_ [_ [_ [_ [_ Hm2]]]]]]]]]]]].
  rewrite Hm2 by lia.
  destruct (put_OK_inv _ _ _ _ P1) as [_ [_ [_ [_ [_ [_ [_ [_ [_ [_ [_ [_ Hm1]]]]]]]]]]]].
  rewrite Hm1; [reflexivity|].
  right. change (offset_ (arena_ db4g)) with 8. unfold HDR.
  change (Z.of_nat (length key_twin)) with 4. change (Z.of_nat (length val_twin)) with 2. lia.
Qed.

Lemma fill_mem_40 : fill_mem 40 = mem (arena_ S0).
Proof.
  apply functional_extensionality. intros x. unfold fill_mem.
  destruct (Z.leb_spec 40 x); destruct (Z.ltb_spec x 40); cbn [andb]; try lia; reflexivity.
Qed.

(** Writing the next record of [key_f] extends the periodic fill. *)
Lemma fill_mem_step (c : Z) :
  40 <= c -> (c - 40) mod 65800 = 0 ->
  upd_mem (fill_mem c) c (entry_bytes key_f val_f) = fill_mem (c + 65800).
Proof.
  intros Hc Hm. apply functional_extensionality. intros x. unfold upd_mem, fill_mem.
  rewrite length_entry_f.
  assert (Hmod : c <= x < c + 65800 -> (x - 40) mod 65800 = x - c).
  { intros Hx. replace (x - 40) with ((x - c) + (c - 40)) by lia.
    rewrite Z.add_mod, Hm, Z.add_0_r, Z.mod_mod by lia. apply Z.mod_small. lia. }
  destruct (Z.leb_spec c x); destruct (Z.ltb_spec x (c + 65798));
  destruct (Z.leb_spec 40 x); destruct (Z.ltb_spec x c);
  destruct (Z.ltb_spec x (c + 65800)); cbn [andb]; try lia; try reflexivity.
  - rewrite Hmod by lia. reflexivity.
  - rewrite Hmod by lia. rewrite S0_mem_high by lia.
    symmetry. apply nth_overflow.
    pose proof length_entry_f. lia.
Qed.

Lemma first_fill :
  put S0 key_f val_f = Some (OK, fill_state 65840 6) /\
  entry_at (arena_ (fill_state 65840 6)) 40 key_f val_f.
Proof.
  destruct S0_facts as [_ [_ [_ [Hs [Hl Hlen]]]]].
  assert (Hput : put S0 key_f val_f = Some (OK, fill_state 65840 6)).
  { rewrite Hs at 1. rewrite <- fill_mem_40.
    rewrite fill_put; [|unfold UINT32_MAX; lia..|exact Hlen|left; exact Hl].
    rewrite fill_mem_step by (try lia; reflexivity). reflexivity. }
  split; [exact Hput|].
  destruct (put_OK_inv _ _ _ _ Hput) as [_ [_ [_ [_ [_ [_ [_ [He _]]]]]]]].
  rewrite Hs in He. exact He.
Qed.

Lemma fill_state_step (c sq : Z) :
  65840 <= c -> (c - 40) mod 65800 = 0 -> c + 65800 <= UINT32_MAX ->
  0 <= sq -> sq + 2 < 2 ^ 64 ->
  entry_at (arena_ (fill_state c sq)) (c - 65800) key_f val_f ->
  put (fill_state c sq) key_f val_f = Some (OK, fill_state (c + 65800) (sq + 2)) /\
  entry_at (arena_ (fill_state (c + 65800) (sq + 2))) c key_f val_f.
Proof.
  intros Hc Hm Hc' Hsq Hsq' He.
  destruct S0_facts as [_ [_ [_ [_ [_ Hlen]]]]].
  assert (Hput : put (fill_state c sq) key_f val_f = Some (OK, fill_state (c + 65800) (sq + 2))).
  { unfold fill_state at 1. rewrite fill_put; [|lia..| |].
    - unfold fill_state. rewrite fill_mem_step by lia.
      rewrite list_insert_insert_eq. do 6 f_equal. lia.
    - rewrite length_insert. exact Hlen.
    - right. exists (c - 65800). split; [|split; [lia|split; [lia|exact He]]].
      apply list_lookup_insert_eq. rewrite Hlen. lia. }
  split; [exact Hput|].
  destruct (put_OK_inv _ _ _ _ Hput) as [_ [_ [_ [_ [_ [_ [_ [He' _]]]]]]]].
  exact He'.
Qed.

Lemma fill_run (m : nat) (c sq : Z) :
  65840 <= c -> (c - 40) mod 65800 = 0 -> c + 65800 * Z.of_nat m <= UINT32_MAX ->
  0 <= sq -> sq + 2 * Z.of_nat m < 2 ^ 64 ->
  entry_at (arena_ (fill_state c sq)) (c - 65800) key_f val_f ->
  run (fill_state c sq) (repeat (OpPut key_f val_f) m) =
  Some (repeat OK m, fill_state (c + 65800 * Z.of_nat m) (sq + 2 * Z.of_nat m)).
Proof.
  revert c sq. induction m as [|m IH]; intros c sq Hc Hm Hc' Hsq Hsq' He.
  - cbn [run repeat Z.of_nat]. rewrite !Z.mul_0_r, !Z.add_0_r. reflexivity.
  - rewrite Nat2Z.inj_succ in Hc', Hsq'.
    destruct (fill_state_step c sq) as [Hput He']; [lia|exact Hm|lia|lia|lia|exact He|].
    cbn [run repeat exec]. rewrite Hput. cbn [mbind option_bind].
    rewrite IH; [|lia| |lia|lia|lia|].
    + cbn [mbind option_bind]. rewrite Nat2Z.inj_succ. do 3 f_equal; lia.
    + replace (c + 65800 - 40) with ((c - 40) + 1 * 65800) by lia.
      rewrite Z.mod_add by lia. exact Hm.
    + replace (c + 65800 - 65800) with c by lia. exact He'.
Qed.

Lemma run_app (st : Hyperion) (a b : list Op) :
  run st (a ++ b) =
  (p ← run st a; q ← run p.2 b; Some (p.1 ++ q.1, q.2)).
Proof.
  revert st. induction a as [|op a IH]; intros st; cbn [app run].
  - cbn [mbind option_bind fst snd]. destruct (run st b) as [[rs s]|]; reflexivity.
  - destruct (exec st op) as [[r st1]|]; cbn [mbind option_bind]; [|reflexivity].
    rewrite IH. destruct (run st1 a) as [[rs s]|]; cbn [mbind option_bind fst snd]; [|reflexivity].
    destruct (run s b) as [[rs' s']|]; reflexivity.
Qed.

Lemma run_prefix :
  run db4g [OpPut key_twin val_twin; OpPut key_k val_old; OpPut key_f val_f] =
  Some ([OK; OK; OK], fill_state 65840 6).
Proof.
  destruct S0_facts as [P1 [P2 _]].
  cbn [run exec]. rewrite P1. cbn [mbind option_bind]. rewrite P2. cbn [mbind option_bind].
  rewrite (proj1 first_fill). reflexivity.
Qed.

(** From the cursor 4294963440 on: the wrap, a rewrite of [key_k] over
    the record of [key_twin], then [del key_k] and [get key_k]. *)
Lemma wrap_after_fill :
  wrap_obs (fill_state 4294963440 130550) = Some ([OK; OK; OK], OK, OK, val_old).
Proof. vm_compute. reflexivity. Qed.

Lemma run_app_Some (st s1 s2 : Hyperion) (a b : list Op) (rs1 rs2 : list Status) :
  run st a = Some (rs1, s1) -> run s1 b = Some (rs2, s2) ->
  run st (a ++ b) = Some (rs1 ++ rs2, s2).
Proof. intros H1 H2. rewrite run_app, H1. cbn [mbind option_bind fst snd]. rewrite H2. reflexivity. Qed.

(** The 65272 further puts of [key_f] take the cursor to 4294963440. *)
Lemma fill_run_all :
  run (fill_state 65840 6) (repeat (OpPut key_f val_f) (Z.to_nat 65272)) =
  Some (repeat OK (Z.to_nat 65272), fill_state 4294963440 130550).
Proof.
  rewrite fill_run; rewrite ?Z2Nat.id by lia.
  - f_equal.
  - lia.
  - reflexivity.
  - unfold UINT32_MAX. lia.
  - lia.
  - lia.
  - exact (proj2 first_fill).
Qed.

Lemma run_to_wrap (rs : list Status) (st : Hyperion) :
  run (fill_state 4294963440 130550) ops_wrap = Some (rs, st) ->
  run db4g ([OpPut key_twin val_twin; OpPut key_k val_old; OpPut key_f val_f] ++
            repeat (OpPut key_f val_f) (Z.to_nat 65272) ++ ops_wrap)
    = Some ([OK; OK; OK] ++ repeat OK (Z.to_nat 65272) ++ rs, st).
Proof.
  intros Er.
  exact (run_app_Some _ _ _ _ _ _ _ run_prefix (run_app_Some _ _ _ _ _ _ _ fill_run_all Er)).
Qed.

(** Claim C6 (delete semantics).  After [put] and a successful
    [delete(k)], [get(k)] still returns OK: on a store with a
    [UINT32_MAX]-byte arena, 65273 puts of a maximal entry carry the arena
    cursor to 4294963440; the next put wraps it past 2^32 to 0, so a
    later [put(key1, "y")] writes its record over the one of [acft] (same
    length, tag and home slot).  That slot now matches [key1], [find]
    reports it first and [delete] tombstones it, while the slot with the
    original record of [key1] stays valid: [get(key1)] finds it and
    returns [old]. *)
Theorem del_then_get_still_found :
  exists st st',
    run db4g ([OpPut key_twin val_twin; OpPut key_k val_old; OpPut key_f val_f] ++
              repeat (OpPut key_f val_f) (Z.to_nat 65272) ++ ops_wrap)
      = Some ([OK; OK; OK] ++ repeat OK (Z.to_nat 65272) ++ [OK; OK; OK], st) /\
    del st key_k = Some (OK, st') /\
    get st' key_k [] = Some (OK, val_old).
Proof.
  pose proof wrap_after_fill as W. unfold wrap_obs in W.
  destruct (run (fill_state 4294963440 130550) ops_wrap) as [[rs st]|] eqn:Er;
    cbn [mbind option_bind] in W; [|discriminate W].
  destruct (del st key_k) as [[r st']|] eqn:Ed; cbn [mbind option_bind] in W; [|discriminate W].
  destruct (get st' key_k []) as [[g v]|] eqn:Eg; cbn [mbind option_bind] in W; [|discriminate W].
  injection W as -> -> -> ->.
  exists st, st'. split; [exact (run_to_wrap _ _ Er)|split; assumption].
Qed.

(** ** Other keys: a saturated table, and the frame of one operation *)

Lemma rd_bytes_agree (a a' : Arena) (o n : Z) :
  size_ a' = size_ a -> (forall x, o <= x < o + n -> mem a' x = mem a x) ->
  rd_bytes a' o n = rd_bytes a o n.
Proof.
  intros Hs Hm. unfold rd_bytes, in_bounds. rewrite Hs.
  destruct ((0 <=? o) && (o + n <=? size_ a)); [|reflexivity].
  f_equal. apply map_ext_in. intros i Hi. apply in_seq in Hi. apply Hm. lia.
Qed.

Lemma entry_at_agree (a a' : Arena) (e : Z) (k v : list Byte.byte) :
  size_ a' = size_ a ->
  (forall x, e <= x < e + HDR + Z.of_nat (length k) + Z.of_nat (length v) -> mem a' x = mem a x) ->
  entry_at a e k v -> entry_at a' e k v.
Proof.
  intros Hs Hm [E1 [E2 [E3 [E4 E5]]]]. unfold entry_at, rd_le, HDR in *.
  repeat split; rewrite (rd_bytes_agree a a'); try assumption; intros x Hx; apply Hm; lia.
Qed.

(** [key_eq] on a slot whose record is intact. *)
Lemma key_eq_entry_val (a : Arena) (s : Slot) (kk vv : list Byte.byte) (h : Z) (k : list Byte.byte) :
  entry_at a (offset s) kk vv ->
  key_eq a h k s = Some (is_valid s && (Index_hash kk =? h) &&
    (Z.of_nat (length kk) =? Z.of_nat (length k)) && bool_decide (kk = k)).
Proof.
  intros [E1 [_ [E3 [E4 _]]]]. unfold key_eq.
  destruct (is_valid s); cbn [negb andb]; [|reflexivity].
  rewrite E3. cbn [mbind option_bind].
  destruct (Index_hash kk =? h); cbn [negb andb]; [|reflexivity].
  rewrite E1. cbn [mbind option_bind].
  destruct (Z.of_nat (length kk) =? Z.of_nat (length k)) eqn:El; cbn [negb andb]; [|reflexivity].
  apply Z.eqb_eq in El. rewrite <- El, E4. reflexivity.
Qed.

Lemma key_eq_true_valid (a : Arena) (h : Z) (k : list Byte.byte) (s : Slot) :
  key_eq a h k s = Some true -> is_valid s = true.
Proof. unfold key_eq. destruct (is_valid s); [reflexivity|discriminate]. Qed.

Lemma key_eq_true_key (a : Arena) (s : Slot) (kk vv : list Byte.byte) (h : Z) (k : list Byte.byte) :
  entry_at a (offset s) kk vv -> key_eq a h k s = Some true -> kk = k.
Proof.
  intros E H. rewrite (key_eq_entry_val _ _ _ _ h k E) in H.
  injection H as H. apply andb_true_iff in H as [_ H]. exact (bool_decide_eq_true_1 _ H).
Qed.

Lemma find_loop_true_hit (sl : list Slot) (mask tag klen : Z) (keq : Slot -> option bool)
    (fuel : nat) (idx ft i : Z) :
  find_loop sl mask tag klen keq fuel idx ft = Some (i, true) ->
  at_pos sl (hit tag klen keq) i.
Proof.
  revert idx ft. induction fuel as [|f IH]; intros idx ft H; cbn [find_loop] in H; [discriminate H|].
  destruct (sl !! Z.to_nat idx) as [s|] eqn:Hs; cbn [mbind option_bind] in H; [|discriminate H].
  destruct (is_empty s) eqn:He; [discriminate H|].
  destruct (is_tombstone s) eqn:Ht; [exact (IH _ _ H)|].
  destruct ((bval (hash_tag s) =? tag) && (bval (key_len s) =? klen)) eqn:Hf; [|exact (IH _ _ H)].
  destruct (keq s) as [[|]|] eqn:Hk; cbn [mbind option_bind] in H; [|exact (IH _ _ H)|discriminate H].
  injection H as <-. exists s. split; [exact Hs|]. unfold hit, filt. auto.
Qed.

(** Changing one slot keeps a hit elsewhere, as long as the old slot was
    no hit and the new one lets the probe pass. *)
Lemma find_loop_frame (sl sl' : list Slot) (mask tag klen : Z) (keq keq' : Slot -> option bool)
    (jn : nat) (fuel : nat) (idx ft ft' i : Z) :
  (forall p, p <> jn -> sl' !! p = sl !! p) ->
  (forall p s, p <> jn -> sl !! p = Some s -> keq' s = keq s) ->
  (forall s, sl !! jn = Some s -> ~ hit tag klen keq s) ->
  (exists s', sl' !! jn = Some s' /\ passes tag klen keq' s') ->
  find_loop sl mask tag klen keq fuel idx ft = Some (i, true) ->
  find_loop sl' mask tag klen keq' fuel idx ft' = Some (i, true) /\ Z.to_nat i <> jn.
Proof.
  intros Hsl Hk Hnot [s' [Hs' [He' Hp']]].
  revert idx ft ft'. induction fuel as [|f IH]; intros idx ft ft' H;
    cbn [find_loop] in H |- *; [discriminate H|].
  destruct (sl !! Z.to_nat idx) as [s|] eqn:Hs; cbn [mbind option_bind] in H; [|discriminate H].
  destruct (decide (Z.to_nat idx = jn)) as [Hj|Hj].
  - rewrite Hj in Hs |- *. rewrite Hs'. cbn [mbind option_bind]. rewrite He'.
    assert (Hrec : exists ft'', find_loop sl mask tag klen keq f (next_idx idx mask) ft'' = Some (i, true)).
    { destruct (is_empty s) eqn:He; [discriminate H|].
      destruct (is_tombstone s) eqn:Ht; [eexists; exact H|].
      destruct ((bval (hash_tag s) =? tag) && (bval (key_len s) =? klen)) eqn:Hf; [|eexists; exact H].
      destruct (keq s) as [[|]|] eqn:Hk0; cbn [mbind option_bind] in H; [|eexists; exact H|discriminate H].
      exfalso. apply (Hnot s Hs). unfold hit, filt. auto. }
    destruct Hrec as [ft'' Hrec].
    destruct (is_tombstone s') eqn:Ht'; [exact (IH _ _ _ Hrec)|].
    destruct ((bval (hash_tag s') =? tag) && (bval (key_len s') =? klen)) eqn:Hf'; [|exact (IH _ _ _ Hrec)].
    rewrite (Hp' eq_refl Hf'). cbn [mbind option_bind]. exact (IH _ _ _ Hrec).
  - rewrite (Hsl _ Hj), Hs. cbn [mbind option_bind].
    destruct (is_empty s) eqn:He; [discriminate H|].
    destruct (is_tombstone s) eqn:Ht; [exact (IH _ _ _ H)|].
    destruct ((bval (hash_tag s) =? tag) && (bval (key_len s) =? klen)) eqn:Hf; [|exact (IH _ _ _ H)].
    rewrite (Hk _ _ Hj Hs).
    destruct (keq s) as [[|]|] eqn:Hk0; cbn [mbind option_bind] in H |- *;
      [|exact (IH _ _ _ H)|discriminate H].
    injection H as <-. split; [reflexivity|exact Hj].
Qed.

(** A miss stops at an empty slot or at a tombstone, when an empty slot
    lies within the probes. *)
Lemma find_loop_false_slot (sl : list Slot) (mask tag klen : Z) (keq : Slot -> option bool)
    (fuel : nat) (idx ft j : Z) (k : nat) :
  (ft <> UINT32_MAX -> at_pos sl (fun s => is_tombstone s = true) ft) ->
  (k < fuel)%nat -> at_pos sl (fun s => is_empty s = true) (pos mask idx k) ->
  find_loop sl mask tag klen keq fuel idx ft = Some (j, false) ->
  at_pos sl (fun s => is_empty s = true \/ is_tombstone s = true) j.
Proof.
  revert idx ft k. induction fuel as [|f IH]; intros idx ft k Hft Hk He0 H; [lia|].
  cbn [find_loop] in H.
  destruct (sl !! Z.to_nat idx) as [s|] eqn:Hs; cbn [mbind option_bind] in H; [|discriminate H].
  assert (Hnext : is_empty s = false -> exists k', (k' < f)%nat /\
            at_pos sl (fun s => is_empty s = true) (pos mask (next_idx idx mask) k')).
  { intros He. destruct k as [|k']; cbn [pos] in He0.
    - destruct He0 as [s0 [Hs0 He0]]. congruence.
    - exists k'. split; [lia|exact He0]. }
  destruct (is_empty s) eqn:He.
  - injection H; intros; subst j. unfold tomb_or. destruct (ft =? UINT32_MAX) eqn:E.
    + exists s. split; [exact Hs|left; exact He].
    + destruct (Hft (proj1 (Z.eqb_neq _ _) E)) as [s1 [Hs1 Ht1]].
      exists s1. split; [exact Hs1|right; exact Ht1].
  - destruct (Hnext eq_refl) as [k' [Hk' He']].
    destruct (is_tombstone s) eqn:Ht.
    + apply (IH (next_idx idx mask) (tomb_or ft idx) k'); [|exact Hk'|exact He'|exact H].
      intros _. unfold tomb_or. destruct (ft =? UINT32_MAX) eqn:E.
      * exists s. split; [exact Hs|exact Ht].
      * apply Hft. apply Z.eqb_neq. exact E.
    + destruct ((bval (hash_tag s) =? tag) && (bval (key_len s) =? klen)).
      * destruct (keq s) as [[|]|]; cbn [mbind option_bind] in H; [discriminate H| |discriminate H].
        exact (IH _ _ k' Hft Hk' He' H).
      * exact (IH _ _ k' Hft Hk' He' H).
Qed.

(** [get] after one slot of the table and the arena bytes below the
    records changed. *)
Lemma get_frame (a a' : Arena) (ix ix' : Index) (sq sq' : Z) (k out v : list Byte.byte) (jn : nat) :
  capacity_ ix' = capacity_ ix -> mask_ ix' = mask_ ix ->
  (forall p, p <> jn -> slots_ ix' !! p = slots_ ix !! p) ->
  (forall p s, p <> jn -> slots_ ix !! p = Some s -> is_valid s = true ->
     exists kk vv, entry_at a (offset s) kk vv /\ entry_at a' (offset s) kk vv) ->
  (forall s, slots_ ix !! jn = Some s ->
     ~ hit (Z.land (Z.shiftr (Index_hash k) 24) 255) (Z.of_nat (length k))
         (key_eq a (Index_hash k) k) s) ->
  (exists s', slots_ ix' !! jn = Some s' /\
     passes (Z.land (Z.shiftr (Index_hash k) 24) 255) (Z.of_nat (length k))
       (key_eq a' (Index_hash k) k) s') ->
  get (mkHyperion a sq ix) k out = Some (OK, v) ->
  get (mkHyperion a' sq' ix') k out = Some (OK, v).
Proof.
  intros Hc Hm Hsl Hent Hnot Hp H.
  assert (Hk : forall p s, p <> jn -> slots_ ix !! p = Some s ->
            key_eq a' (Index_hash k) k s = key_eq a (Index_hash k) k s).
  { intros p s Hp0 Hs. destruct (is_valid s) eqn:Hv.
    - destruct (Hent p s Hp0 Hs Hv) as [kk [vv [E E']]].
      rewrite (key_eq_entry_val _ _ _ _ _ _ E), (key_eq_entry_val _ _ _ _ _ _ E'). reflexivity.
    - unfold key_eq. rewrite Hv. reflexivity. }
  unfold get in *. cbn [arena_ index_] in *.
  destruct (Index_find ix (Index_hash k) (Z.of_nat (length k)) (key_eq a (Index_hash k) k))
    as [[i b]|] eqn:Ef; cbn [mbind option_bind] in H; [|discriminate H].
  destruct b; [|discriminate H].
  unfold Index_find in Ef |- *. cbv zeta in Ef |- *. rewrite Hc, Hm.
  pose proof (find_loop_true_hit _ _ _ _ _ _ _ _ _ Ef) as [s [Hs [_ [_ [_ Hkt]]]]].
  destruct (find_loop_frame (slots_ ix) (slots_ ix') _ _ _ _ (key_eq a' (Index_hash k) k) jn
              _ _ _ UINT32_MAX _ Hsl Hk Hnot Hp Ef) as [Ef' Hi].
  rewrite Ef'. cbn [mbind option_bind]. rewrite (Hsl _ Hi), Hs. rewrite Hs in H.
  cbn [mbind option_bind] in H |- *.
  destruct (Hent _ _ Hi Hs (key_eq_true_valid _ _ _ _ Hkt))
    as [kk [vv [[E1 [E2 [_ [_ E5]]]] [E1' [E2' [_ [_ E5']]]]]]].
  rewrite E1, E2 in H. rewrite E1', E2'. cbn [mbind option_bind] in H |- *.
  rewrite E5 in H. rewrite E5'. exact H.
Qed.

(** [get] reads neither the seqlock version nor the arena cursor. *)
Lemma get_cursor (m : Z -> Byte.byte) (sz c c' sq sq' : Z) (ix : Index) (k out : list Byte.byte) :
  get (mkHyperion (mkArena m sz c') sq' ix) k out = get (mkHyperion (mkArena m sz c) sq ix) k out.
Proof. reflexivity. Qed.

(** With an [EMPTY] slot in a table of [2^n] slots, every probe sequence
    reaches one. *)
Lemma empty_in_probe (sl : list Slot) (n idx : Z) (p : nat) (s : Slot) :
  0 <= n <= 31 -> length sl = Z.to_nat (2 ^ n) -> 0 <= idx < 2 ^ n ->
  sl !! p = Some s -> is_empty s = true ->
  exists k, (k < Z.to_nat (2 ^ n))%nat /\
    at_pos sl (fun s => is_empty s = true) (pos (2 ^ n - 1) idx k).
Proof.
  intros Hn Hl Hi Hs He.
  pose proof (lookup_lt_Some _ _ _ Hs) as Hp. rewrite Hl in Hp.
  pose proof (Z.pow_pos_nonneg 2 n ltac:(lia) ltac:(lia)) as Hpos.
  pose proof (Z.mod_pos_bound (Z.of_nat p - idx) (2 ^ n) Hpos) as Hb.
  exists (Z.to_nat ((Z.of_nat p - idx) mod 2 ^ n)). split; [lia|].
  rewrite pos_mod by lia. rewrite Z2Nat.id by lia.
  rewrite Zplus_mod_idemp_r. replace (idx + (Z.of_nat p - idx)) with (Z.of_nat p) by lia.
  rewrite Z.mod_small by lia. unfold at_pos. rewrite Nat2Z.id. exists s. auto.
Qed.

Lemma st_w_slots :
  slots_ (index_ st_w) =
    [Slot_empty; Slot_empty; Slot_empty; Slot_empty;
     mkSlot Byte.x00 Byte.x01 1 OFF_TOMB; slot_for (bytes "b") (bytes "2") 24;
     Slot_empty; Slot_empty].
Proof. vm_compute. reflexivity. Qed.

Lemma st_w_wf : wf_store st_w.
Proof. apply (reachable_wf 1024 8 true ops_small [OK; OK; OK]); [unfold UINT32_MAX; lia|reflexivity]. Qed.

Lemma st_w_records : records_below st_w.
Proof.
  intros p s Hs Hv. rewrite st_w_slots in Hs.
  destruct p as [|[|[|[|[|[|[|[|p]]]]]]]]; cbn in Hs; try discriminate Hs;
    injection Hs as <-; try (vm_compute in Hv; discriminate Hv).
  exists (bytes "b"), (bytes "2").
  split; [unfold entry_at; repeat split; vm_compute; reflexivity|split; vm_compute; congruence].
Qed.

(** Claim C4 (independence), counterexample.  Once all eight slots of
    [db_small] hold the keys [a] .. [h], [find] for a new key [i] meets no
    [EMPTY] slot and no tombstone and returns its last probe position,
    which is the home slot of [i] (4), held by [a].  [put(i)] returns OK
    and overwrites that slot: [get(a)] goes from OK to NotFound. *)
Lemma put_saturated_evicts :
  get db_full (bytes "a") [] = Some (OK, bytes "v") /\
  exists st, put db_full (bytes "i") (bytes "v") = Some (OK, st) /\
    get st (bytes "a") [] = Some (NotFound, []).
Proof.
  split; [vm_compute; reflexivity|].
  exists (after_put db_full (bytes "i") (bytes "v")). split; [reflexivity|vm_compute; reflexivity].
Qed.

(** ** Further properties of the store: record layout, cursor, seqlock, occupancy *)


(** [round_up_8] clears the low three bits. *)
Lemma entry_size_mod8 (ks vs : Z) : entry_size ks vs mod 8 = 0.
Proof.
  unfold entry_size.
  change 8 with (2 ^ 3). rewrite <- Z.land_ones by lia.
  rewrite <- Z.land_assoc. change (Z.land (u32 (Z.lnot 7)) (Z.ones 3)) with 0.
  apply Z.land_0_r.
Qed.

Lemma land_low3 (y : Z) : 0 <= y < 2 ^ 32 -> Z.land y (u32 (Z.lnot 7)) = 8 * (y / 8).
Proof.
  intros Hy. change (u32 (Z.lnot 7)) with (Z.ones 32 - Z.ones 3).
  apply Z.bits_inj'. intros i Hi.
  rewrite Z.land_spec.
  replace (8 * (y / 8)) with (Z.shiftl (Z.shiftr y 3) 3)
    by (rewrite Z.shiftl_mul_pow2, Z.shiftr_div_pow2 by lia; change (2 ^ 3) with 8; lia).
  rewrite Z.shiftl_spec by lia.
  assert (Hm : Z.testbit (Z.ones 32 - Z.ones 3) i = ((3 <=? i) && (i <? 32))%bool).
  { replace (Z.ones 32 - Z.ones 3) with (Z.lxor (Z.ones 32) (Z.ones 3))
      by (cbv; reflexivity).
    rewrite Z.lxor_spec.
    destruct (Z.ltb_spec i 32); destruct (Z.leb_spec 3 i).
    - rewrite Z.ones_spec_low by lia. rewrite Z.ones_spec_high by lia. reflexivity.
    - rewrite !Z.ones_spec_low by lia. reflexivity.
    - rewrite !Z.ones_spec_high by lia. reflexivity.
    - lia. }
  rewrite Hm.
  destruct (Z.ltb_spec i 3).
  - rewrite (Z.testbit_neg_r (Z.shiftr y 3) (i - 3)) by lia.
    destruct (Z.leb_spec 3 i); [lia|]. cbn [andb]. apply andb_false_r.
  - rewrite Z.shiftr_spec by lia. replace (i - 3 + 3) with i by lia.
    destruct (Z.leb_spec 3 i); [|lia]. destruct (Z.ltb_spec i 32); cbn [andb].
    + apply andb_true_r.
    + rewrite andb_false_r. symmetry. apply Z.bits_above_log2; [lia|].
      destruct (Z.eq_dec y 0) as [->|Hn]; [cbn; lia|].
      apply Z.log2_lt_pow2; [lia|].
      apply (Z.lt_le_trans _ (2 ^ 32)); [lia|apply Z.pow_le_mono_r; lia].
Qed.

Lemma entry_size_value (ks vs : Z) :
  0 <= ks <= MAX_KEY -> 0 <= vs <= MAX_VAL -> entry_size ks vs = 8 * ((HDR + ks + vs + 7) / 8).
Proof.
  intros Hk Hv. unfold MAX_KEY, MAX_VAL in *. unfold entry_size, HDR. unfold u32 at 1 2.
  rewrite (Z.mod_small (8 + ks + vs)) by lia.
  rewrite (Z.mod_small (8 + ks + vs + 7)) by lia.
  apply land_low3. lia.
Qed.

(** [round_up_8] as [put] uses it: the smallest multiple of 8 that
    holds the header, the key and the value. *)
Theorem entry_size_round_up (ks vs : Z) :
  0 <= ks <= MAX_KEY -> 0 <= vs <= MAX_VAL ->
  entry_size ks vs = 8 * ((HDR + ks + vs + 7) / 8) /\
  HDR + ks + vs <= entry_size ks vs < HDR + ks + vs + 8 /\
  entry_size ks vs mod 8 = 0.
Proof.
  intros Hk Hv. pose proof (entry_size_value ks vs Hk Hv) as E.
  split; [exact E|]. split; [|apply entry_size_mod8].
  rewrite E. unfold HDR. pose proof (Z.div_mod (8 + ks + vs + 7) 8 ltac:(lia)).
  pose proof (Z.mod_pos_bound (8 + ks + vs + 7) 8 ltac:(lia)). lia.
Qed.
Lemma run_cons (st st2 : Hyperion) (op : Op) (ops : list Op) (rs : list Status) :
  run st (op :: ops) = Some (rs, st2) ->
  exists r st1 rs', exec st op = Some (r, st1) /\ run st1 ops = Some (rs', st2) /\ rs = r :: rs'.
Proof.
  cbn [run]. intros H. unbind H. destruct p as [r st1]. unbind H. destruct p as [rs' st2'].
  injection H as <- <-. exists r, st1, rs'. repeat split; try assumption.
Qed.

Lemma exec_cursor_mod8 (st st1 : Hyperion) (op : Op) (r : Status) :
  offset_ (arena_ st) mod 8 = 0 -> exec st op = Some (r, st1) -> offset_ (arena_ st1) mod 8 = 0.
Proof.
  intros H0 H.
  assert (Hu : forall e, u32 (offset_ (arena_ st) + e) mod 8 = e mod 8).
  { intros e. unfold u32. rewrite Z.mod_mod_divide by (exists (2 ^ 29); reflexivity).
    rewrite Z.add_mod, H0 by lia. rewrite Z.add_0_l. apply Z.mod_mod. lia. }
  destruct op as [k v|k]; cbn [exec] in H.
  - destruct (decide (r = OK)) as [->|Hr].
    + apply put_OK_inv in H as [_ [_ [j [b [_ [_ [_ [_ [_ [Ho _]]]]]]]]]].
      rewrite Ho, Hu. apply entry_size_mod8.
    + destruct (put_not_OK_inv _ _ _ _ _ H Hr) as [[_ ->]|[_ [_ [_ [_ [_ [_ Ho]]]]]]];
        [exact H0|]. rewrite Ho, Hu. apply entry_size_mod8.
  - apply del_inv in H as [-> _]. exact H0.
Qed.

(** The arena cursor of every store reached from [create] is a
    multiple of 8: every record [put] writes starts 8-byte aligned. *)
Theorem cursor_aligned (bytes slots : Z) (mmap_ok : bool) (ops : list Op) (rs : list Status)
    (st : Hyperion) :
  run (snd (create bytes slots mmap_ok)) ops = Some (rs, st) -> offset_ (arena_ st) mod 8 = 0.
Proof.
  assert (H0 : offset_ (arena_ (snd (create bytes slots mmap_ok))) mod 8 = 0).
  { unfold create, Arena_create.
    destruct (UINT32_MAX <? bytes); [reflexivity|]. destruct (negb mmap_ok); reflexivity. }
  revert H0. generalize (snd (create bytes slots mmap_ok)) as st0. revert rs.
  induction ops as [|op ops IH]; intros rs st0 H0 H.
  - cbn in H. injection H as _ <-. exact H0.
  - apply run_cons in H as [r [st1 [rs' [He [Hr _]]]]].
    exact (IH rs' st1 (exec_cursor_mod8 _ _ _ _ H0 He) Hr).
Qed.

Lemma exec_seq (st st1 : Hyperion) (op : Op) (r : Status) :
  exec st op = Some (r, st1) ->
  seq_ st1 = if is_write op r then seq_after_write (seq_ st) else seq_ st.
Proof.
  intros H. destruct op as [k v|k]; cbn [exec is_write] in *.
  - destruct (decide (r = OK)) as [->|Hr].
    + apply put_OK_inv in H as [_ [_ [j [b [_ [_ [Hs _]]]]]]]. exact Hs.
    + rewrite bool_decide_eq_false_2 by exact Hr.
      destruct (put_not_OK_inv _ _ _ _ _ H Hr) as [[_ ->]|[_ [_ [Hs _]]]]; [reflexivity|exact Hs].
  - apply del_inv in H as [_ [Hs _]]. exact Hs.
Qed.

(** The seqlock version counts the writes of the index: each
    [delete] and each [put] returning OK adds 2 (modulo 2^64); a [put]
    rejected before the index (too long, arena full) leaves it. *)
Theorem seq_counts_writes (st st' : Hyperion) (ops : list Op) (rs : list Status) :
  0 <= seq_ st < 2 ^ 64 -> run st ops = Some (rs, st') ->
  seq_ st' = (seq_ st + 2 * writes ops rs) mod 2 ^ 64.
Proof.
  revert st rs. induction ops as [|op ops IH]; intros st rs Hs H.
  - cbn in H. injection H as <- <-. cbn [writes]. rewrite Z.add_0_r. symmetry. apply Z.mod_small. exact Hs.
  - apply run_cons in H as [r [st1 [rs' [He [Hr ->]]]]].
    pose proof (exec_seq _ _ _ _ He) as Hs1.
    assert (Hs1' : 0 <= seq_ st1 < 2 ^ 64).
    { rewrite Hs1. destruct (is_write op r); [unfold seq_after_write; apply Z.mod_pos_bound; lia|exact Hs]. }
    rewrite (IH st1 rs' Hs1' Hr), Hs1. cbn [writes].
    destruct (is_write op r); unfold seq_after_write.
    + rewrite Zplus_mod_idemp_l. f_equal; lia.
    + f_equal; lia.
Qed.

(** [put] and [delete] write the arena only at or above the cursor:
    every byte below it, and the size of the mapping, stay as they are. *)
Theorem exec_arena_append_only (st st1 : Hyperion) (op : Op) (r : Status) :
  exec st op = Some (r, st1) ->
  size_ (arena_ st1) = size_ (arena_ st) /\
  forall x, x < offset_ (arena_ st) -> mem (arena_ st1) x = mem (arena_ st) x.
Proof.
  intros H. destruct op as [k v|k]; cbn [exec] in H.
  - destruct (decide (r = OK)) as [->|Hr].
    + apply put_OK_inv in H as [_ [_ [j [b [_ [_ [_ [_ [Hsz [_ [_ [_ Hfr]]]]]]]]]]]].
      split; [exact Hsz|]. intros x Hx. apply Hfr. left. exact Hx.
    + destruct (put_not_OK_inv _ _ _ _ _ H Hr) as [[_ ->]|[_ [_ [_ [Hm [Hsz _]]]]]];
        [split; reflexivity|]. split; [exact Hsz|]. intros x _. rewrite Hm. reflexivity.
  - apply del_inv in H as [-> _]. split; reflexivity.
Qed.

(** [delete] reports NotFound exactly when [get] does: both run the
    same [find] with the same comparison. *)
Theorem del_get_NotFound (st : Hyperion) (k out : list Byte.byte) :
  (exists st', del st k = Some (NotFound, st')) <-> get st k out = Some (NotFound, out).
Proof.
  unfold del, get.
  destruct (Index_find (index_ st) (Index_hash k) (Z.of_nat (length k))
              (key_eq (arena_ st) (Index_hash k) k)) as [[j [|]]|];
    cbn [mbind option_bind].
  - split.
    + intros [st' H]. destruct (Index_tombstone (index_ st) j); cbn in H; discriminate H.
    + intros H.
      destruct (slots_ (index_ st) !! Z.to_nat j) as [s|]; cbn [mbind option_bind] in H;
        [|discriminate H].
      destruct (rd_le (arena_ st) (offset s) 2); cbn [mbind option_bind] in H; [|discriminate H].
      destruct (rd_le (arena_ st) (offset s + 2) 2); cbn [mbind option_bind] in H; [|discriminate H].
      destruct (rd_bytes _ _ _); cbn [mbind option_bind] in H; discriminate H.
  - split; [reflexivity|]. intros _. eexists. reflexivity.
  - split; [intros [st' H]|intros H]; discriminate H.
Qed.

Lemma repeat_lookup_lt {A} (x : A) (n i : nat) : (i < n)%nat -> repeat x n !! i = Some x.
Proof.
  revert i. induction n as [|n IH]; intros [|i] Hi; cbn; try lia; [reflexivity|]. apply IH. lia.
Qed.

(** A store fresh from [create] holds no key: [get] returns NotFound
    for every key, whether the arena was mapped or not. *)
Theorem create_get_NotFound (bytes slots : Z) (mmap_ok : bool) (k out : list Byte.byte) :
  0 <= slots <= UINT32_MAX -> get (snd (create bytes slots mmap_ok)) k out = Some (NotFound, out).
Proof.
  intros Hs. pose proof (create_wf bytes slots mmap_ok Hs) as [_ Hw].
  assert (Hsl : slots_ (index_ (snd (create bytes slots mmap_ok))) =
                  repeat Slot_empty (Z.to_nat (capacity_ (index_ (snd (create bytes slots mmap_ok)))))).
  { unfold create, Arena_create.
    destruct (UINT32_MAX <? bytes); [reflexivity|]. destruct (negb mmap_ok); reflexivity. }
  revert Hw Hsl. generalize (snd (create bytes slots mmap_ok)) as st. intros st Hw Hsl.
  unfold get, Index_find. cbv zeta.
  destruct Hw as [[Hc _]|[n [Hn [Hc [Hm _]]]]].
  - rewrite Hc. reflexivity.
  - rewrite Hc, Hm, Hsl, Hc. pose proof (home_range n (Index_hash k) Hn) as Hh.
    pose proof (Z.pow_pos_nonneg 2 n ltac:(lia) ltac:(lia)) as Hp.
    destruct (Z.to_nat (2 ^ n)) as [|f] eqn:Ef; [lia|].
    assert (Hl : repeat Slot_empty (S f) !! Z.to_nat (Z.land (Index_hash k) (2 ^ n - 1)) = Some Slot_empty).
    { apply repeat_lookup_lt. lia. }
    rewrite find_loop_S, Hl. reflexivity.
Qed.

(** The record [put] writes: at the old cursor, [klen] and [vlen] as
    little-endian u16, the full hash as little-endian u32, then the key
    and the value bytes; nothing else of the arena changes. *)
Theorem put_record_layout (st st' : Hyperion) (k v : list Byte.byte) :
  put st k v = Some (OK, st') ->
  mem (arena_ st') = upd_mem (mem (arena_ st)) (offset_ (arena_ st)) (entry_bytes k v) /\
  offset_ (arena_ st') =
    u32 (offset_ (arena_ st) + entry_size (Z.of_nat (length k)) (Z.of_nat (length v))).
Proof.
  intros H. unfold put in H.
  destruct (MAX_KEY <? Z.of_nat (length k)); [discriminate|].
  destruct (MAX_VAL <? Z.of_nat (length v)); [discriminate|].
  unfold Arena_alloc in H. destruct (size_ (arena_ st) <? _); [discriminate|].
  cbn iota beta in H.
  unbind H. unbind H. unbind H. unbind H. unbind H. unbind H.
  destruct p as [j b]. unbind H. injection H as <-. cbn [arena_].
  repeat match goal with W : wr_bytes _ _ _ = Some _ |- _ => apply wr_bytes_Some in W as [_ ->] end.
  cbn [mem offset_]. split; [apply upd5_entry|reflexivity].
Qed.

Lemma count_used_insert_gen (sl : list Slot) (i : nat) (s s' : Slot) :
  sl !! i = Some s ->
  (count_used (<[i := s']> sl) + (if is_empty s then 0 else 1) =
   count_used sl + (if is_empty s' then 0 else 1))%nat.
Proof.
  revert i. induction sl as [|x sl IH]; intros [|i] Hs; try discriminate.
  - change (<[O := s']> (x :: sl)) with (s' :: sl). cbn in Hs. injection Hs as ->.
    cbn [count_used]. lia.
  - change (<[S i := s']> (x :: sl)) with (x :: <[i := s']> sl). cbn in Hs.
    cbn [count_used]. specialize (IH i Hs). lia.
Qed.

(** The number of non-[EMPTY] slots never goes down: a [put] adds at
    most one, a [delete] none (it leaves a tombstone).  Deleting never
    gives an [EMPTY] slot back. *)
Theorem exec_count_used (st st1 : Hyperion) (op : Op) (r : Status) :
  wf_store st -> exec st op = Some (r, st1) ->
  (count_used (slots_ (index_ st)) <= count_used (slots_ (index_ st1))
     <= count_used (slots_ (index_ st)) + 1)%nat /\
  (forall k, op = OpDel k -> count_used (slots_ (index_ st1)) = count_used (slots_ (index_ st))).
Proof.
  intros [Hsz _] H. destruct op as [k v|k]; cbn [exec] in H.
  - split; [|intros ? Hc; discriminate Hc].
    destruct (decide (r = OK)) as [->|Hr].
    + apply put_OK_inv in H as [_ [_ [j [b [_ [Hu [_ [_ [_ [_ [H0 [Hle _]]]]]]]]]]]].
      unfold Index_update in Hu. apply set_slot_Some in Hu as [Hj ->]. cbn [slots_].
      destruct (lookup_lt_is_Some_2 (slots_ (index_ st)) (Z.to_nat j) ltac:(lia)) as [s Hs].
      pose proof (count_used_insert_gen _ _ s
        (mkSlot (byte_of_Z (Z.shiftr (Index_hash k) 24)) (byte_of_Z (Z.of_nat (length k)))
           (u16 (Z.of_nat (length v))) (offset_ (arena_ st))) Hs) as Hc.
      assert (He : is_empty (mkSlot (byte_of_Z (Z.shiftr (Index_hash k) 24))
                     (byte_of_Z (Z.of_nat (length k))) (u16 (Z.of_nat (length v)))
                     (offset_ (arena_ st))) = false).
      { unfold is_empty, OFF_EMPTY, HDR, UINT32_MAX in *. cbn [offset]. apply Z.eqb_neq. lia. }
      rewrite He in Hc. destruct (is_empty s); lia.
    + destruct (put_not_OK_inv _ _ _ _ _ H Hr) as [[_ ->]|[_ [Hi _]]]; [lia|rewrite Hi; lia].
  - apply del_inv in H as [_ [_ [j [b [Hf [[-> [-> Ht]]|[-> [-> ->]]]]]]]]; [|split; [lia|reflexivity]].
    apply Index_tombstone_Some in Ht as [sj [Hsj Hset]].
    apply set_slot_Some in Hset as [Hj ->]. cbn [slots_].
    unfold Index_find in Hf. cbv zeta in Hf.
    destruct (find_loop_true_hit _ _ _ _ _ _ _ _ _ Hf) as [s1 [Hs1 [He _]]].
    rewrite Hsj in Hs1. injection Hs1 as <-.
    rewrite (count_used_insert _ _ sj); [split; [lia|reflexivity]|exact Hsj|].
    rewrite He. reflexivity.
Qed.

(** What [Index::find] reports on a table of [2^n] slots that still
    has an [EMPTY] slot: a hit is a slot that passed the tag and length
    filter and the deep comparison; a miss names an [EMPTY] slot or a
    tombstone, never a live entry. *)
Theorem Index_find_result (ix : Index) (h klen : Z) (keq : Slot -> option bool) (j : Z) (b : bool) :
  wf_index ix -> (exists p s, slots_ ix !! p = Some s /\ is_empty s = true) ->
  Index_find ix h klen keq = Some (j, b) ->
  (b = true -> at_pos (slots_ ix) (hit (Z.land (Z.shiftr h 24) 255) klen keq) j) /\
  (b = false -> at_pos (slots_ ix) (fun s => is_empty s = true \/ is_tombstone s = true) j).
Proof.
  intros Hw [p [s [Hs He]]] Hf. unfold Index_find in Hf. cbv zeta in Hf.
  split; intros ->.
  - exact (find_loop_true_hit _ _ _ _ _ _ _ _ _ Hf).
  - destruct Hw as [[_ Hnil]|[n [Hn [Hc [Hm Hl]]]]]; [rewrite Hnil in Hs; discriminate Hs|].
    rewrite Hc, Hm in Hf.
    pose proof (home_range n h Hn) as Hh.
    destruct (empty_in_probe _ _ _ _ _ Hn Hl Hh Hs He) as [kp [Hkp Hep]].
    exact (find_loop_false_slot _ _ _ _ _ _ _ _ _ kp
             (fun H => False_rect _ (H eq_refl)) Hkp Hep Hf).
Qed.

Lemma entry_size_bounds (ks vs : Z) :
  0 <= ks <= MAX_KEY -> 0 <= vs <= MAX_VAL -> HDR + ks + vs <= entry_size ks vs <= 65800.
Proof.
  intros Hk Hv. rewrite entry_size_value by assumption. unfold MAX_KEY, MAX_VAL, HDR in *.
  pose proof (Z.div_mod (8 + ks + vs + 7) 8 ltac:(lia)).
  pose proof (Z.mod_pos_bound (8 + ks + vs + 7) 8 ltac:(lia)).
  assert ((8 + ks + vs + 7) / 8 < 8226) by (apply Z.div_lt_upper_bound; lia). lia.
Qed.

Lemma put_ArenaFull_bounds (st st1 : Hyperion) (k v : list Byte.byte) :
  put st k v = Some (ArenaFull, st1) ->
  Z.of_nat (length k) <= MAX_KEY /\ Z.of_nat (length v) <= MAX_VAL.
Proof.
  unfold put. destruct (MAX_KEY <? Z.of_nat (length k)) eqn:Hk; [intros H; discriminate H|].
  destruct (MAX_VAL <? Z.of_nat (length v)) eqn:Hv; [intros H; discriminate H|].
  intros _. apply Z.ltb_ge in Hk, Hv. auto.
Qed.

(** As long as the cursor cannot wrap past 2^32, every operation keeps
    the invariant that each live slot points to an intact record below
    the cursor ([records_below]). *)
Theorem exec_records_below (st st1 : Hyperion) (op : Op) (r : Status) :
  wf_store st -> records_below st ->
  0 <= offset_ (arena_ st) -> offset_ (arena_ st) + 65800 < 2 ^ 32 ->
  exec st op = Some (r, st1) -> records_below st1.
Proof.
  intros [Hsz _] Hrb Hc0 Hc1 H. unfold records_below in *.
  destruct op as [k v|k]; cbn [exec] in H.
  - destruct (decide (r = OK)) as [->|Hr].
    + apply put_OK_inv
        in H as [Hk [Hv [j [b [_ [Hu [_ [Hent [Hsize [Ho [H0 [Hle Hfr]]]]]]]]]]]].
      pose proof (entry_size_bounds (Z.of_nat (length k)) (Z.of_nat (length v)) ltac:(lia) ltac:(lia)) as Hes. unfold HDR in Hes.
      assert (Ho' : offset_ (arena_ st1) =
                    offset_ (arena_ st) + entry_size (Z.of_nat (length k)) (Z.of_nat (length v))).
      { rewrite Ho. unfold u32. apply Z.mod_small. lia. }
      unfold Index_update in Hu. apply set_slot_Some in Hu as [Hj Hix].
      intros p s Hs Hvl. rewrite Hix in Hs. cbn [slots_] in Hs.
      destruct (decide (p = Z.to_nat j)) as [->|Hp].
      * rewrite list_lookup_insert_eq in Hs by lia. injection Hs as <-. cbn [offset].
        exists k, v. split; [exact Hent|]. unfold HDR in *. lia.
      * rewrite list_lookup_insert_ne in Hs by lia.
        destruct (Hrb p s Hs Hvl) as [kk [vv [E [Hp0 Hb]]]].
        exists kk, vv. split; [|unfold HDR in *; lia].
        apply (entry_at_agree (arena_ st)); [exact Hsize| |exact E].
        intros x Hx. apply Hfr. left. lia.
    + destruct (put_not_OK_inv _ _ _ _ _ H Hr) as [[_ ->]|[Hf [Hi [_ [Hm [Hs [_ Ho]]]]]]];
        [exact Hrb|].
      subst r. destruct (put_ArenaFull_bounds _ _ _ _ H) as [Hk Hv].
      pose proof (entry_size_bounds (Z.of_nat (length k)) (Z.of_nat (length v)) ltac:(lia) ltac:(lia)) as Hes. unfold HDR in Hes.
      intros p s Hsl Hvl. rewrite Hi in Hsl.
      destruct (Hrb p s Hsl Hvl) as [kk [vv [E [Hp0 Hb]]]].
      exists kk, vv. split.
      * apply (entry_at_agree (arena_ st)); [exact Hs| |exact E]. intros x _. rewrite Hm. reflexivity.
      * rewrite Ho. unfold u32. unfold HDR in *. rewrite Z.mod_small by lia. lia.
  - apply del_inv in H as [Ha [_ [j [b [_ [[_ [_ Ht]]|[_ [_ Hi]]]]]]]].
    + apply Index_tombstone_Some in Ht as [sj [Hsj Hset]].
      apply set_slot_Some in Hset as [Hj ->]. rewrite Ha.
      intros p s Hs Hvl. cbn [slots_] in Hs.
      destruct (decide (p = Z.to_nat j)) as [->|Hp].
      * rewrite list_lookup_insert_eq in Hs by lia. injection Hs as <-. discriminate Hvl.
      * rewrite list_lookup_insert_ne in Hs by lia. exact (Hrb p s Hs Hvl).
    + rewrite Ha, Hi. exact Hrb.
Qed.

Lemma st_w_run : run db_small ops_small = Some ([OK; OK; OK], st_w).
Proof. vm_compute. reflexivity. Qed.

Lemma entry_size_round_up_witness :
  (0 <= 3 <= MAX_KEY /\ 0 <= 5 <= MAX_VAL) /\
  entry_size 3 5 = 8 * ((HDR + 3 + 5 + 7) / 8) /\
  HDR + 3 + 5 <= entry_size 3 5 < HDR + 3 + 5 + 8 /\ entry_size 3 5 mod 8 = 0.
Proof.
  assert (H1 : 0 <= 3 <= MAX_KEY) by (unfold MAX_KEY; lia).
  assert (H2 : 0 <= 5 <= MAX_VAL) by (unfold MAX_VAL; lia).
  split; [split; assumption|]. exact (entry_size_round_up 3 5 H1 H2).
Defined.

Lemma cursor_aligned_witness :
  run (snd (create 1024 8 true)) ops_small = Some ([OK; OK; OK], st_w) /\
  offset_ (arena_ st_w) mod 8 = 0.
Proof.
  split; [exact st_w_run|]. exact (cursor_aligned 1024 8 true ops_small _ _ st_w_run).
Defined.

Lemma seq_counts_writes_witness :
  0 <= seq_ db_small < 2 ^ 64 /\ run db_small ops_small = Some ([OK; OK; OK], st_w) /\
  seq_ st_w = (seq_ db_small + 2 * writes ops_small [OK; OK; OK]) mod 2 ^ 64.
Proof.
  assert (H : 0 <= seq_ db_small < 2 ^ 64) by (assert (E : seq_ db_small = 0) by reflexivity; rewrite E; lia).
  split; [exact H|]. split; [exact st_w_run|].
  exact (seq_counts_writes _ _ _ _ H st_w_run).
Defined.

Lemma exec_put_a3 :
  exec st_w (OpPut (bytes "a") (bytes "3")) = Some (OK, after_put st_w (bytes "a") (bytes "3")).
Proof. reflexivity. Qed.

Lemma put_a3 :
  put st_w (bytes "a") (bytes "3") = Some (OK, after_put st_w (bytes "a") (bytes "3")).
Proof. reflexivity. Qed.

Lemma exec_arena_append_only_witness :
  exec st_w (OpPut (bytes "a") (bytes "3")) = Some (OK, after_put st_w (bytes "a") (bytes "3")) /\
  size_ (arena_ (after_put st_w (bytes "a") (bytes "3"))) = size_ (arena_ st_w) /\
  forall x, x < offset_ (arena_ st_w) ->
    mem (arena_ (after_put st_w (bytes "a") (bytes "3"))) x = mem (arena_ st_w) x.
Proof. split; [exact exec_put_a3|]. exact (exec_arena_append_only _ _ _ _ exec_put_a3). Defined.

Lemma create_get_NotFound_witness :
  0 <= 8 <= UINT32_MAX /\ get (snd (create 1024 8 true)) (bytes "a") [] = Some (NotFound, []).
Proof.
  assert (H : 0 <= 8 <= UINT32_MAX) by (unfold UINT32_MAX; lia).
  split; [exact H|]. exact (create_get_NotFound 1024 8 true (bytes "a") [] H).
Defined.

Lemma put_record_layout_witness :
  put st_w (bytes "a") (bytes "3") = Some (OK, after_put st_w (bytes "a") (bytes "3")) /\
  mem (arena_ (after_put st_w (bytes "a") (bytes "3"))) =
    upd_mem (mem (arena_ st_w)) (offset_ (arena_ st_w)) (entry_bytes (bytes "a") (bytes "3")) /\
  offset_ (arena_ (after_put st_w (bytes "a") (bytes "3"))) =
    u32 (offset_ (arena_ st_w) + entry_size 1 1).
Proof. split; [exact put_a3|]. exact (put_record_layout _ _ _ _ put_a3). Defined.

Lemma exec_del_b :
  exec st_w (OpDel (bytes "b")) = Some (OK, after_del st_w (bytes "b")).
Proof. reflexivity. Qed.

Lemma exec_count_used_witness :
  wf_store st_w /\ exec st_w (OpDel (bytes "b")) = Some (OK, after_del st_w (bytes "b")) /\
  (count_used (slots_ (index_ st_w)) <= count_used (slots_ (index_ (after_del st_w (bytes "b"))))
     <= count_used (slots_ (index_ st_w)) + 1)%nat /\
  (forall k, OpDel (bytes "b") = OpDel k ->
     count_used (slots_ (index_ (after_del st_w (bytes "b")))) = count_used (slots_ (index_ st_w))).
Proof.
  split; [exact st_w_wf|]. split; [exact exec_del_b|].
  exact (exec_count_used _ _ _ _ st_w_wf exec_del_b).
Defined.

Lemma find_b :
  Index_find (index_ st_w) (Index_hash (bytes "b")) 1
    (key_eq (arena_ st_w) (Index_hash (bytes "b")) (bytes "b")) = Some (5, true).
Proof. vm_compute. reflexivity. Qed.

Lemma st_w_has_empty : exists p s, slots_ (index_ st_w) !! p = Some s /\ is_empty s = true.
Proof. exists O, Slot_empty. rewrite st_w_slots. split; reflexivity. Qed.

Lemma Index_find_result_witness :
  wf_index (index_ st_w) /\
  (exists p s, slots_ (index_ st_w) !! p = Some s /\ is_empty s = true) /\
  Index_find (index_ st_w) (Index_hash (bytes "b")) 1
    (key_eq (arena_ st_w) (Index_hash (bytes "b")) (bytes "b")) = Some (5, true) /\
  (true = true -> at_pos (slots_ (index_ st_w))
     (hit (Z.land (Z.shiftr (Index_hash (bytes "b")) 24) 255) 1
        (key_eq (arena_ st_w) (Index_hash (bytes "b")) (bytes "b"))) 5) /\
  (true = false -> at_pos (slots_ (index_ st_w))
     (fun s => is_empty s = true \/ is_tombstone s = true) 5).
Proof.
  split; [exact (proj2 st_w_wf)|]. split; [exact st_w_has_empty|]. split; [exact find_b|].
  exact (Index_find_result _ _ _ _ _ _ (proj2 st_w_wf) st_w_has_empty find_b).
Defined.

Lemma exec_records_below_witness :
  wf_store st_w /\ records_below st_w /\ 0 <= offset_ (arena_ st_w) /\
  offset_ (arena_ st_w) + 65800 < 2 ^ 32 /\
  exec st_w (OpPut (bytes "a") (bytes "3")) = Some (OK, after_put st_w (bytes "a") (bytes "3")) /\
  records_below (after_put st_w (bytes "a") (bytes "3")).
Proof.
  assert (H0 : 0 <= offset_ (arena_ st_w)) by (vm_compute; discriminate).
  assert (H1 : offset_ (arena_ st_w) + 65800 < 2 ^ 32) by (vm_compute; reflexivity).
  split; [exact st_w_wf|]. split; [exact st_w_records|]. split; [exact H0|]. split; [exact H1|].
  split; [exact exec_put_a3|].
  exact (exec_records_below _ _ _ _ st_w_wf st_w_records H0 H1 exec_put_a3).
Defined.

(** A successful [put] leaves the cursor inside the arena: the bound
    check of [alloc] passed. *)
Lemma put_OK_cursor (st st1 : Hyperion) (k v : list Byte.byte) :
  put st k v = Some (OK, st1) ->
  0 <= offset_ (arena_ st1) <= size_ (arena_ st1).
Proof.
  intros H. unfold put in H.
  destruct (MAX_KEY <? Z.of_nat (length k)); [discriminate|].
  destruct (MAX_VAL <? Z.of_nat (length v)); [discriminate|].
  unfold Arena_alloc in H. cbv zeta in H.
  destruct (size_ (arena_ st) <? u32 (offset_ (arena_ st) +
              entry_size (Z.of_nat (length k)) (Z.of_nat (length v)))) eqn:Hb; [discriminate H|].
  unbind H. unbind H. unbind H. unbind H. unbind H. unbind H.
  destruct p as [j b]. unbind H. injection H as <-. cbn [arena_].
  repeat match goal with W : wr_bytes _ _ _ = Some _ |- _ => apply wr_bytes_Some in W as [_ ->] end.
  cbn [size_ offset_]. apply Z.ltb_ge in Hb. split; [|exact Hb].
  unfold u32. apply Z.mod_pos_bound. lia.
Qed.

(** A successful [put] uses at most one more slot. *)
Lemma put_OK_count_used (st st1 : Hyperion) (k v : list Byte.byte) :
  wf_store st -> put st k v = Some (OK, st1) ->
  (count_used (slots_ (index_ st)) <= count_used (slots_ (index_ st1))
     <= count_used (slots_ (index_ st)) + 1)%nat /\
  length (slots_ (index_ st1)) = length (slots_ (index_ st)).
Proof.
  intros [Hsz _] H.
  apply put_OK_inv in H as [_ [_ [j [b [_ [Hu [_ [_ [_ [_ [H0 [Hle _]]]]]]]]]]]].
  unfold Index_update in Hu. apply set_slot_Some in Hu as [Hj ->]. cbn [slots_].
  split; [|apply length_insert].
  destruct (lookup_lt_is_Some_2 (slots_ (index_ st)) (Z.to_nat j) ltac:(lia)) as [s Hs].
  pose proof (count_used_insert_gen _ _ s
    (mkSlot (byte_of_Z (Z.shiftr (Index_hash k) 24)) (byte_of_Z (Z.of_nat (length k)))
       (u16 (Z.of_nat (length v))) (offset_ (arena_ st))) Hs) as Hc.
  assert (He : is_empty (mkSlot (byte_of_Z (Z.shiftr (Index_hash k) 24))
                 (byte_of_Z (Z.of_nat (length k))) (u16 (Z.of_nat (length v)))
                 (offset_ (arena_ st))) = false).
  { unfold is_empty, OFF_EMPTY, HDR, UINT32_MAX in *. cbn [offset]. apply Z.eqb_neq. lia. }
  rewrite He in Hc. destruct (is_empty s); lia.
Qed.

(** A successful [put] keeps every live slot on an intact record below
    the cursor, as long as the cursor cannot wrap. *)
Lemma put_OK_records_below (st st1 : Hyperion) (k v : list Byte.byte) :
  records_below st ->
  0 <= offset_ (arena_ st) -> offset_ (arena_ st) + 65800 < 2 ^ 32 ->
  put st k v = Some (OK, st1) -> records_below st1.
Proof.
  intros Hrb Hc0 Hc1 H. unfold records_below in *.
  apply put_OK_inv
    in H as [Hk [Hv [j [b [_ [Hu [_ [Hent [Hsize [Ho [H0 [Hle Hfr]]]]]]]]]]]].
  pose proof (entry_size_bounds (Z.of_nat (length k)) (Z.of_nat (length v)) ltac:(lia) ltac:(lia)) as Hes.
  unfold HDR in Hes.
  assert (Ho' : offset_ (arena_ st1) =
                offset_ (arena_ st) + entry_size (Z.of_nat (length k)) (Z.of_nat (length v))).
  { rewrite Ho. unfold u32. apply Z.mod_small. lia. }
  unfold Index_update in Hu. apply set_slot_Some in Hu as [Hj Hix].
  intros p s Hs Hvl. rewrite Hix in Hs. cbn [slots_] in Hs.
  destruct (decide (p = Z.to_nat j)) as [->|Hp].
  - rewrite list_lookup_insert_eq in Hs by lia. injection Hs as <-. cbn [offset].
    exists k, v. split; [exact Hent|]. unfold HDR in *. lia.
  - rewrite list_lookup_insert_ne in Hs by lia.
    destruct (Hrb p s Hs Hvl) as [kk [vv [E [Hp0 Hb]]]].
    exists kk, vv. split; [|unfold HDR in *; lia].
    apply (entry_at_agree (arena_ st)); [exact Hsize| |exact E].
    intros x Hx. apply Hfr. left. lia.
Qed.

(** A successful [put] of [k1] keeps [get(k2)] for a present key [k2]. *)
Lemma put_OK_other_get (st st1 : Hyperion) (k1 v1 k2 out v2 : list Byte.byte) :
  wf_store st -> records_below st -> has_empty st -> k1 <> k2 ->
  get st k2 out = Some (OK, v2) ->
  put st k1 v1 = Some (OK, st1) ->
  get st1 k2 out = Some (OK, v2).
Proof.
  intros [Hsz Hwf] Hrb [p0 [s0 [Hs0 He0]]] Hne Hget Hex.
  unfold records_below in Hrb. destruct st as [a sq ix]. cbn [arena_ index_ size_] in *.
  apply put_OK_inv in Hex
    as [Hk [Hv [j [b [Hf [Hu [_ [Hent [Hsize [_ [H0 [Hle Hfr]]]]]]]]]]]].
  destruct st1 as [a1 sq1 ix1]. cbn [arena_ index_ seq_ size_ offset_ mem] in *.
  unfold Index_update in Hu. apply set_slot_Some in Hu as [Hj ->].
  assert (Hrb' : forall p s, slots_ ix !! p = Some s -> is_valid s = true ->
            exists kk vv, entry_at a (offset s) kk vv /\ entry_at a1 (offset s) kk vv).
  { intros p s Hs Hvl. destruct (Hrb p s Hs Hvl) as [kk [vv [E [Ho Hb]]]].
    exists kk, vv. split; [exact E|].
    apply (entry_at_agree a); [exact Hsize| |exact E].
    intros x Hx. apply Hfr. left. lia. }
  apply (get_frame a a1 ix _ sq _ k2 out v2 (Z.to_nat j)); cbn [capacity_ mask_ slots_];
    [reflexivity|reflexivity| | | | |exact Hget].
  - intros p Hp. apply list_lookup_insert_ne. lia.
  - intros p s _ Hs Hvl. exact (Hrb' p s Hs Hvl).
  - intros s Hs [He [Ht [_ Hk2]]]. destruct b.
    + unfold Index_find in Hf. cbv zeta in Hf.
      destruct (find_loop_true_hit _ _ _ _ _ _ _ _ _ Hf) as [s1 [Hs1 [_ [_ [_ Hk1]]]]].
      rewrite Hs in Hs1. injection Hs1 as <-.
      destruct (Hrb' _ _ Hs (key_eq_true_valid _ _ _ _ Hk2)) as [kk [vv [E E1]]].
      apply Hne. rewrite <- (key_eq_true_key _ _ _ _ _ _ E1 Hk1).
      exact (key_eq_true_key _ _ _ _ _ _ E Hk2).
    + destruct Hwf as [[_ Hnil]|[n [Hn [Hc [Hm Hl]]]]];
        [rewrite Hnil in Hs0; discriminate Hs0|].
      unfold Index_find in Hf. cbv zeta in Hf. rewrite Hc, Hm in Hf.
      pose proof (home_range n (Index_hash k1) Hn) as Hh.
      destruct (empty_in_probe _ _ _ _ _ Hn Hl Hh Hs0 He0) as [kp [Hkp Hep]].
      destruct (find_loop_false_slot _ _ _ _ _ _ _ _ _ kp
                  (fun H => False_rect _ (H eq_refl)) Hkp Hep Hf) as [s1 [Hs1 Hs1']].
      rewrite Hs in Hs1. injection Hs1 as <-. destruct Hs1'; congruence.
  - eexists. split; [apply list_lookup_insert_eq; lia|].
    unfold is_empty, is_tombstone, OFF_EMPTY, UINT32_MAX in *. cbn [offset].
    split; [apply Z.eqb_neq; cbn [offset]; unfold OFF_EMPTY, HDR in *; lia|].
    intros _ _. rewrite (key_eq_entry_val a1 (mkSlot _ _ _ (offset_ a)) k1 v1 _ k2 Hent).
    rewrite bool_decide_eq_false_2 by exact Hne. rewrite andb_false_r. reflexivity.
Qed.

(** Fewer used slots than slots: one of them is [EMPTY]. *)
Lemma count_used_has_empty (sl : list Slot) :
  (count_used sl < length sl)%nat -> exists p s, sl !! p = Some s /\ is_empty s = true.
Proof.
  induction sl as [|s sl IH]; cbn [count_used length]; [lia|].
  destruct (is_empty s) eqn:He; intros H.
  - exists O, s. split; [reflexivity|exact He].
  - destruct IH as [p [s' Hs']]; [lia|]. exists (S p), s'. exact Hs'.
Qed.

Lemma distinct_puts_get_gen (kvs done : list (list Byte.byte * list Byte.byte))
    (st0 st : Hyperion) (out : list Byte.byte) (rs : list Status) :
  wf_store st0 -> records_below st0 ->
  0 <= offset_ (arena_ st0) -> offset_ (arena_ st0) + 65800 < 2 ^ 32 ->
  size_ (arena_ st0) + 65800 < 2 ^ 32 ->
  (count_used (slots_ (index_ st0)) + length kvs < length (slots_ (index_ st0)))%nat ->
  NoDup (map fst kvs) ->
  (forall kv, In kv kvs -> ~ In (fst kv) (map fst done)) ->
  Forall (fun kv => get st0 (fst kv) out = Some (OK, snd kv)) done ->
  run st0 (put_ops kvs) = Some (rs, st) -> Forall (fun r => r = OK) rs ->
  Forall (fun kv => get st (fst kv) out = Some (OK, snd kv)) (done ++ kvs).
Proof.
  revert done st0 rs. induction kvs as [|[k v] kvs IH];
    intros done st0 rs Hw Hrb Hc0 Hc1 Hsz Hcu Hnd Hnew Hdone Hrun Hok.
  - cbn in Hrun. injection Hrun as <- <-. rewrite app_nil_r. exact Hdone.
  - apply run_cons in Hrun as [r [st1 [rs' [He [Hr ->]]]]].
    apply Forall_cons in Hok as [-> Hok]. cbn [exec fst snd] in He.
    cbn [length map] in Hcu, Hnd. apply NoDup_cons in Hnd as [Hk Hnd].
    pose proof (put_OK_count_used _ _ _ _ Hw He) as [Hcu1 Hl1].
    pose proof (put_OK_cursor _ _ _ _ He) as Hcur.
    pose proof He as He'. apply put_OK_inv in He' as [_ [_ [_ [_ [_ [_ [_ [_ [Hs1 _]]]]]]]]].
    replace (done ++ (k, v) :: kvs) with ((done ++ [(k, v)]) ++ kvs) by (rewrite <- app_assoc; reflexivity).
    apply (IH _ st1 rs'); try assumption.
    + exact (put_wf _ _ _ _ _ Hw He).
    + exact (put_OK_records_below _ _ _ _ Hrb Hc0 Hc1 He).
    + lia.
    + lia.
    + lia.
    + lia.
    + intros kv Hin Hin'. rewrite map_app, in_app_iff in Hin'. destruct Hin' as [Hin'|Hin'].
      * apply (Hnew kv); [right; exact Hin|exact Hin'].
      * cbn in Hin'. destruct Hin' as [Hin'|[]]. apply Hk. cbn [fst] in Hin' |- *. rewrite Hin'.
        apply list_elem_of_In. exact (in_map fst _ _ Hin).
    + apply Forall_app. split.
      * apply Forall_forall. intros [k2 v2] Hin. rewrite Forall_forall in Hdone.
        pose proof (proj1 (list_elem_of_In _ _) Hin) as HinI.
        apply (put_OK_other_get st0 st1 k v k2 out v2); try assumption.
        -- apply count_used_has_empty. lia.
        -- intros Heq. apply (Hnew (k, v)); [left; reflexivity|]. cbn [fst]. rewrite Heq.
           apply (in_map fst _ (k2, v2)). exact HinI.
        -- exact (Hdone (k2, v2) Hin).
      * constructor; [|constructor]. exact (put_get_wf _ _ _ _ _ Hw He).
Qed.

Lemma count_used_repeat_empty (n : nat) : count_used (repeat Slot_empty n) = O.
Proof. induction n as [|n IH]; [reflexivity|]. cbn [repeat count_used]. rewrite IH. reflexivity. Qed.

Lemma repeat_lookup_inv {A} (x y : A) (n i : nat) : repeat x n !! i = Some y -> y = x.
Proof.
  revert i. induction n as [|n IH]; intros [|i] H; cbn in H; try discriminate H.
  - injection H as <-. reflexivity.
  - exact (IH i H).
Qed.

(** The pattern of [bench_hyperion]: into a store fresh from [create],
    put pairwise distinct keys, fewer than the index has slots; if every
    [put] returns OK then every key reads back its value. *)
Theorem distinct_puts_get (bytes slots : Z) (mmap_ok : bool) (db st : Hyperion)
    (kvs : list (list Byte.byte * list Byte.byte)) (out : list Byte.byte) (rs : list Status) :
  create bytes slots mmap_ok = (AE_None, db) ->
  0 <= slots <= UINT32_MAX -> bytes + 65800 < 2 ^ 32 ->
  NoDup (map fst kvs) -> Z.of_nat (length kvs) < capacity_ (index_ db) ->
  run db (put_ops kvs) = Some (rs, st) -> Forall (fun r => r = OK) rs ->
  Forall (fun kv => get st (fst kv) out = Some (OK, snd kv)) kvs.
Proof.
  intros Hc Hs Hb Hnd Hl Hrun Hok.
  pose proof (create_wf bytes slots mmap_ok Hs) as Hw. rewrite Hc in Hw. cbn [snd] in Hw.
  unfold create, Arena_create in Hc.
  destruct (UINT32_MAX <? bytes); [discriminate Hc|].
  destruct (negb mmap_ok); [discriminate Hc|]. injection Hc as <-.
  cbn [index_ arena_ offset_ size_ slots_] in *.
  assert (Hsl : slots_ (Index_init slots) = repeat Slot_empty (Z.to_nat (capacity_ (Index_init slots))))
    by reflexivity.
  change (Forall (fun kv => get st (fst kv) out = Some (OK, snd kv)) ([] ++ kvs)).
  apply (distinct_puts_get_gen kvs [] _ st out rs Hw); try assumption.
  - intros p s Hp Hv. cbn [index_] in Hp. rewrite Hsl in Hp.
    apply repeat_lookup_inv in Hp as ->. discriminate Hv.
  - cbn. lia.
  - cbn. lia.
  - cbn [index_]. rewrite Hsl, count_used_repeat_empty, repeat_length. lia.
  - intros kv _ []. 
  - constructor.
Qed.

(** A store whose [create] failed ([Hyperion()]: no mapping, an index of
    capacity 0): [get] and [delete] report NotFound, and a [put] within
    the limits reports ArenaFull; the index stays the default one. *)
Theorem failed_create_store (bytes slots : Z) (mmap_ok : bool) (k v out : list Byte.byte) :
  fst (create bytes slots mmap_ok) <> AE_None ->
  get (snd (create bytes slots mmap_ok)) k out = Some (NotFound, out) /\
  (exists st', del (snd (create bytes slots mmap_ok)) k = Some (NotFound, st') /\
     index_ st' = Index_default) /\
  (Z.of_nat (length k) <= MAX_KEY -> Z.of_nat (length v) <= MAX_VAL ->
   exists st', put (snd (create bytes slots mmap_ok)) k v = Some (ArenaFull, st') /\
     index_ st' = Index_default).
Proof.
  intros Hf.
  assert (Hd : snd (create bytes slots mmap_ok) = Hyperion_default).
  { revert Hf. unfold create, Arena_create.
    destruct (UINT32_MAX <? bytes); [reflexivity|].
    destruct (negb mmap_ok); [reflexivity|]. cbn. intros H. exfalso. exact (H eq_refl). }
  rewrite Hd. split; [reflexivity|]. split; [eexists; split; reflexivity|].
  intros Hk Hv. unfold put.
  destruct (MAX_KEY <? Z.of_nat (length k)) eqn:Ek; [apply Z.ltb_lt in Ek; lia|].
  destruct (MAX_VAL <? Z.of_nat (length v)) eqn:Ev; [apply Z.ltb_lt in Ev; lia|].
  pose proof (entry_size_bounds (Z.of_nat (length k)) (Z.of_nat (length v)) ltac:(lia) ltac:(lia)) as Hes.
  unfold HDR in Hes. unfold Arena_alloc. cbn [arena_ Hyperion_default Arena_default size_ offset_ mem index_].
  rewrite Z.add_0_l. unfold u32 at 1 2. rewrite Z.mod_small by lia.
  destruct (0 <? entry_size (Z.of_nat (length k)) (Z.of_nat (length v))) eqn:E;
    [|apply Z.ltb_ge in E; lia].
  eexists. split; reflexivity.
Qed.

Lemma put_status_cases (st st1 : Hyperion) (k v : list Byte.byte) (r : Status) :
  Z.of_nat (length k) <= MAX_KEY -> Z.of_nat (length v) <= MAX_VAL ->
  put st k v = Some (r, st1) -> r = OK \/ r = ArenaFull.
Proof.
  intros Hk Hv H. unfold put in H.
  destruct (MAX_KEY <? Z.of_nat (length k)) eqn:Ek; [apply Z.ltb_lt in Ek; lia|].
  destruct (MAX_VAL <? Z.of_nat (length v)) eqn:Ev; [apply Z.ltb_lt in Ev; lia|].
  cbv zeta in H. destruct (Arena_alloc (arena_ st) _) as [[err off] ar].
  destruct err; [|injection H as <-; right; reflexivity..].
  unbind H. unbind H. unbind H. unbind H. unbind H. unbind H.
  destruct p as [j b]. unbind H. injection H as <-. left. reflexivity.
Qed.

(** The length checks of [put]: KeyTooLong exactly for a key over 255
    bytes, ValTooLong exactly for a key within the limit and a value over
    65535 bytes (the key is checked first), and both leave the store as
    it was. *)
Theorem put_length_errors (st st1 : Hyperion) (k v : list Byte.byte) (r : Status) :
  put st k v = Some (r, st1) ->
  (r = KeyTooLong <-> MAX_KEY < Z.of_nat (length k)) /\
  (r = ValTooLong <-> Z.of_nat (length k) <= MAX_KEY /\ MAX_VAL < Z.of_nat (length v)) /\
  (r = KeyTooLong \/ r = ValTooLong -> st1 = st).
Proof.
  intros H.
  destruct (MAX_KEY <? Z.of_nat (length k)) eqn:Ek.
  - unfold put in H. rewrite Ek in H. injection H as <- <-. apply Z.ltb_lt in Ek.
    split; [tauto|]. split; [|reflexivity]. split; [discriminate|lia].
  - apply Z.ltb_ge in Ek.
    destruct (MAX_VAL <? Z.of_nat (length v)) eqn:Ev.
    + unfold put in H. apply Z.ltb_ge in Ek as Ek'. rewrite Ek', Ev in H.
      injection H as <- <-. apply Z.ltb_lt in Ev.
      split; [split; [discriminate|lia]|]. split; [tauto|reflexivity].
    + apply Z.ltb_ge in Ev.
      destruct (put_status_cases _ _ _ _ _ Ek Ev H) as [->| ->];
        (split; [split; [discriminate|lia]|]; split; [split; [discriminate|lia]|];
         intros [Hc|Hc]; discriminate Hc).
Qed.

Lemma seq_even_step (v : Z) : 0 <= v < 2 ^ 64 -> v mod 2 = 0 ->
  0 <= seq_after_write v < 2 ^ 64 /\ seq_after_write v mod 2 = 0.
Proof.
  intros Hv He. unfold seq_after_write.
  split; [apply Z.mod_pos_bound; lia|].
  destruct (Z.lt_ge_cases (v + 2) (2 ^ 64)) as [Hl|Hl].
  - rewrite (Z.mod_small (v + 2) (2 ^ 64)) by lia. rewrite <- (Z.mod_add v 1 2) in He by lia. exact He.
  - replace (v + 2) with (2 ^ 64) by (pose proof (Z.mod_pos_bound v 2); 
      assert (v = 2 * (v / 2)) by (pose proof (Z.div_mod v 2); lia);
      assert (2 ^ 64 = 2 * 2 ^ 63) by reflexivity; lia).
    rewrite Z.mod_same by lia. reflexivity.
Qed.

(** In a single-threaded run from [create] the seqlock version is even
    after every operation: the assertion [(prev & 1) == 0] of
    [SeqLock::write] never fails, and [SeqLock::read] never waits. *)
Theorem reachable_seq_even (bytes slots : Z) (mmap_ok : bool) (ops : list Op)
    (rs : list Status) (st : Hyperion) :
  run (snd (create bytes slots mmap_ok)) ops = Some (rs, st) -> Z.land (seq_ st) 1 = 0.
Proof.
  assert (H0 : 0 <= seq_ (snd (create bytes slots mmap_ok)) < 2 ^ 64 /\
               seq_ (snd (create bytes slots mmap_ok)) mod 2 = 0).
  { unfold create, Arena_create.
    destruct (UINT32_MAX <? bytes); [cbn; split; [lia|reflexivity]|].
    destruct (negb mmap_ok); cbn; split; [lia|reflexivity|lia|reflexivity]. }
  revert H0. generalize (snd (create bytes slots mmap_ok)) as st0. revert rs.
  induction ops as [|op ops IH]; intros rs st0 [Hr0 He0] H.
  - cbn in H. injection H as _ <-. change 1 with (Z.ones 1). rewrite Z.land_ones by lia.
    exact He0.
  - apply run_cons in H as [r [st1 [rs' [He [Hr _]]]]].
    apply (IH rs' st1); [|exact Hr].
    rewrite (exec_seq _ _ _ _ He). destruct (is_write op r); [|split; assumption].
    apply seq_even_step; assumption.
Qed.

Lemma distinct_puts_get_witness :
  create 1024 8 true = (AE_None, db_small) /\ 0 <= 8 <= UINT32_MAX /\ 1024 + 65800 < 2 ^ 32 /\
  NoDup (map fst kv_ab) /\ Z.of_nat (length kv_ab) < capacity_ (index_ db_small) /\
  run db_small (put_ops kv_ab) = Some ([OK; OK], st_ab) /\ Forall (fun r => r = OK) [OK; OK] /\
  Forall (fun kv => get st_ab (fst kv) [] = Some (OK, snd kv)) kv_ab.
Proof.
  assert (H1 : create 1024 8 true = (AE_None, db_small)) by reflexivity.
  assert (H2 : 0 <= 8 <= UINT32_MAX) by (unfold UINT32_MAX; lia).
  assert (H3 : 1024 + 65800 < 2 ^ 32) by lia.
  assert (H4 : NoDup (map fst kv_ab)).
  { constructor; [|constructor; [|constructor]].
    - intros Hin. apply list_elem_of_In in Hin. destruct Hin as [Hc|[]]. vm_compute in Hc. discriminate Hc.
    - intros Hin. apply list_elem_of_In in Hin. destruct Hin. }
  assert (H5 : Z.of_nat (length kv_ab) < capacity_ (index_ db_small)) by (vm_compute; reflexivity).
  assert (H6 : run db_small (put_ops kv_ab) = Some ([OK; OK], st_ab)) by (vm_compute; reflexivity).
  assert (H7 : Forall (fun r => r = OK) [OK; OK]) by (repeat constructor).
  repeat (split; [assumption|]).
  exact (distinct_puts_get 1024 8 true db_small st_ab kv_ab [] [OK; OK] H1 H2 H3 H4 H5 H6 H7).
Defined.

Lemma failed_create_store_witness :
  fst (create 1024 8 false) <> AE_None /\
  get (snd (create 1024 8 false)) (bytes "a") [] = Some (NotFound, []) /\
  (exists st', del (snd (create 1024 8 false)) (bytes "a") = Some (NotFound, st') /\
     index_ st' = Index_default) /\
  (Z.of_nat (length (bytes "a")) <= MAX_KEY -> Z.of_nat (length (bytes "1")) <= MAX_VAL ->
   exists st', put (snd (create 1024 8 false)) (bytes "a") (bytes "1") = Some (ArenaFull, st') /\
     index_ st' = Index_default).
Proof.
  assert (H : fst (create 1024 8 false) <> AE_None) by (intros Hc; discriminate Hc).
  split; [exact H|]. exact (failed_create_store 1024 8 false (bytes "a") (bytes "1") [] H).
Defined.

Lemma put_long_key :
  put st_w (repeat Byte.x61 256) (bytes "1") = Some (KeyTooLong, st_w).
Proof. vm_compute. reflexivity. Qed.

Lemma put_length_errors_witness :
  put st_w (repeat Byte.x61 256) (bytes "1") = Some (KeyTooLong, st_w) /\
  (KeyTooLong = KeyTooLong <-> MAX_KEY < Z.of_nat (length (repeat Byte.x61 256))) /\
  (KeyTooLong = ValTooLong <-> Z.of_nat (length (repeat Byte.x61 256)) <= MAX_KEY /\
     MAX_VAL < Z.of_nat (length (bytes "1"))) /\
  (KeyTooLong = KeyTooLong \/ KeyTooLong = ValTooLong -> st_w = st_w).
Proof. split; [exact put_long_key|]. exact (put_length_errors _ _ _ _ _ put_long_key). Defined.

Lemma reachable_seq_even_witness :
  run (snd (create 1024 8 true)) ops_small = Some ([OK; OK; OK], st_w) /\
  Z.land (seq_ st_w) 1 = 0.
Proof.
  split; [exact st_w_run|]. exact (reachable_seq_even 1024 8 true ops_small _ _ st_w_run).
Defined.

(** ** Other keys: sequences of operations on one key *)

(** Once a tombstone is recorded, a miss answers it. *)
Lemma find_loop_false_ft (sl : list Slot) (mask tag klen : Z) (keq : Slot -> option bool)
    (fuel : nat) (idx ft j : Z) :
  ft <> UINT32_MAX -> find_loop sl mask tag klen keq fuel idx ft = Some (j, false) -> j = ft.
Proof.
  revert idx. induction fuel as [|f IH]; intros idx Hft H; cbn [find_loop] in H;
    unfold tomb_or in H; apply Z.eqb_neq in Hft; rewrite ?Hft in H.
  - injection H as <-. reflexivity.
  - destruct (sl !! Z.to_nat idx) as [s|]; cbn [mbind option_bind] in H; [|discriminate H].
    apply Z.eqb_neq in Hft.
    destruct (is_empty s); [injection H as <-; reflexivity|].
    destruct (is_tombstone s); [exact (IH _ Hft H)|].
    destruct ((bval (hash_tag s) =? tag) && (bval (key_len s) =? klen)); [|exact (IH _ Hft H)].
    destruct (keq s) as [[|]|]; cbn [mbind option_bind] in H; [discriminate H|exact (IH _ Hft H)|discriminate H].
Qed.

(** A miss stops at an [EMPTY] slot or a tombstone when one of them lies
    within the probes. *)
Lemma find_loop_false_free (sl : list Slot) (mask tag klen : Z) (keq : Slot -> option bool)
    (fuel : nat) (idx ft j : Z) (k : nat) :
  (forall i, (i < fuel)%nat -> 0 <= pos mask idx i < UINT32_MAX) ->
  (ft <> UINT32_MAX -> at_pos sl (fun s => is_tombstone s = true) ft) ->
  (k < fuel)%nat ->
  at_pos sl (fun s => is_empty s = true \/ is_tombstone s = true) (pos mask idx k) ->
  find_loop sl mask tag klen keq fuel idx ft = Some (j, false) ->
  at_pos sl (fun s => is_empty s = true \/ is_tombstone s = true) j.
Proof.
  revert idx ft k. induction fuel as [|f IH]; intros idx ft k Hr Hft Hk Hfree H; [lia|].
  cbn [find_loop] in H.
  destruct (sl !! Z.to_nat idx) as [s|] eqn:Hs; cbn [mbind option_bind] in H; [|discriminate H].
  assert (Hft' : ft <> UINT32_MAX ->
            at_pos sl (fun s => is_empty s = true \/ is_tombstone s = true) ft).
  { intros E. destruct (Hft E) as [s1 [Hs1 Ht1]]. exists s1. auto. }
  destruct (is_empty s) eqn:He.
  - injection H as <-. unfold tomb_or. destruct (ft =? UINT32_MAX) eqn:E.
    + exists s. auto.
    + apply Hft'. apply Z.eqb_neq. exact E.
  - destruct (is_tombstone s) eqn:Ht.
    + assert (Hne : tomb_or ft idx <> UINT32_MAX).
      { unfold tomb_or. destruct (ft =? UINT32_MAX) eqn:E; [|apply Z.eqb_neq; exact E].
        pose proof (Hr O ltac:(lia)) as Hr0. cbn [pos] in Hr0. lia. }
      rewrite (find_loop_false_ft _ _ _ _ _ _ _ _ _ Hne H).
      unfold tomb_or. destruct (ft =? UINT32_MAX) eqn:E.
      * exists s. auto.
      * apply Hft'. apply Z.eqb_neq. exact E.
    + destruct k as [|k'].
      { cbn [pos] in Hfree. destruct Hfree as [s0 [Hs0 [He0|Ht0]]]; congruence. }
      cbn [pos] in Hfree.
      assert (Hr' : forall i, (i < f)%nat -> 0 <= pos mask (next_idx idx mask) i < UINT32_MAX).
      { intros i Hi. apply (Hr (S i)). lia. }
      destruct ((bval (hash_tag s) =? tag) && (bval (key_len s) =? klen)).
      * destruct (keq s) as [[|]|]; cbn [mbind option_bind] in H; [discriminate H| |discriminate H].
        exact (IH _ _ k' Hr' Hft ltac:(lia) Hfree H).
      * exact (IH _ _ k' Hr' Hft ltac:(lia) Hfree H).
Qed.

(** A miss never walks over non-[EMPTY] slots to a hit. *)
Lemma find_loop_false_no_hit (sl : list Slot) (mask tag klen : Z) (keq : Slot -> option bool)
    (fuel : nat) (idx ft j : Z) (i : nat) :
  find_loop sl mask tag klen keq fuel idx ft = Some (j, false) -> (i < fuel)%nat ->
  (forall i', (i' < i)%nat -> at_pos sl nonempty (pos mask idx i')) ->
  at_pos sl (hit tag klen keq) (pos mask idx i) -> False.
Proof.
  revert idx ft i. induction fuel as [|f IH]; intros idx ft i H Hi Hpre Hhit; [lia|].
  cbn [find_loop] in H.
  destruct (sl !! Z.to_nat idx) as [s|] eqn:Hs; cbn [mbind option_bind] in H; [|discriminate H].
  destruct i as [|i'].
  - cbn [pos] in Hhit. destruct Hhit as [s0 [Hs0 [He [Ht [Hf Hk]]]]].
    rewrite Hs in Hs0. injection Hs0 as <-. rewrite He, Ht in H. unfold filt in Hf.
    rewrite Hf, Hk in H. cbn [mbind option_bind] in H. discriminate H.
  - cbn [pos] in Hhit.
    assert (Hpre' : forall i'', (i'' < i')%nat -> at_pos sl nonempty (pos mask (next_idx idx mask) i'')).
    { intros i'' Hi''. apply (Hpre (S i'')). lia. }
    destruct (Hpre O ltac:(lia)) as [s0 [Hs0 He0]]. cbn [pos] in Hs0.
    rewrite Hs in Hs0. injection Hs0 as <-. unfold nonempty in He0. rewrite He0 in H.
    destruct (is_tombstone s); [exact (IH _ _ i' H ltac:(lia) Hpre' Hhit)|].
    destruct ((bval (hash_tag s) =? tag) && (bval (key_len s) =? klen));
      [|exact (IH _ _ i' H ltac:(lia) Hpre' Hhit)].
    destruct (keq s) as [[|]|]; cbn [mbind option_bind] in H;
      [discriminate H|exact (IH _ _ i' H ltac:(lia) Hpre' Hhit)|discriminate H].
Qed.

(** With no hit and a defined [eq] everywhere, [find] misses. *)
Lemma find_loop_no_hit (sl : list Slot) (mask tag klen : Z) (keq : Slot -> option bool)
    (fuel : nat) (idx ft : Z) :
  (forall p s, sl !! p = Some s -> keq s <> None /\ ~ hit tag klen keq s) ->
  (forall i, (i < fuel)%nat -> exists s, sl !! Z.to_nat (pos mask idx i) = Some s) ->
  exists j, find_loop sl mask tag klen keq fuel idx ft = Some (j, false).
Proof.
  intros Hno. revert idx ft. induction fuel as [|f IH]; intros idx ft Hr; cbn [find_loop];
    [eexists; reflexivity|].
  destruct (Hr O ltac:(lia)) as [s Hs]. cbn [pos] in Hs. rewrite Hs. cbn [mbind option_bind].
  assert (Hr' : forall i, (i < f)%nat -> exists s, sl !! Z.to_nat (pos mask (next_idx idx mask) i) = Some s).
  { intros i Hi. apply (Hr (S i)). lia. }
  destruct (Hno _ _ Hs) as [Hd Hnh].
  destruct (is_empty s) eqn:He; [eexists; reflexivity|].
  destruct (is_tombstone s) eqn:Ht; [exact (IH _ _ Hr')|].
  destruct ((bval (hash_tag s) =? tag) && (bval (key_len s) =? klen)) eqn:Hf; [|exact (IH _ _ Hr')].
  destruct (keq s) as [[|]|] eqn:Hk; cbn [mbind option_bind]; [|exact (IH _ _ Hr')|congruence].
  exfalso. apply Hnh. unfold hit, filt. auto.
Qed.

(** [find] depends on [eq] only through the slots of the table. *)
Lemma find_loop_keq_ext (sl : list Slot) (mask tag klen : Z) (keq keq' : Slot -> option bool)
    (fuel : nat) (idx ft : Z) :
  (forall p s, sl !! p = Some s -> keq' s = keq s) ->
  find_loop sl mask tag klen keq' fuel idx ft = find_loop sl mask tag klen keq fuel idx ft.
Proof.
  intros Hk. revert idx ft. induction fuel as [|f IH]; intros idx ft; cbn [find_loop]; [reflexivity|].
  destruct (sl !! Z.to_nat idx) as [s|] eqn:Hs; cbn [mbind option_bind]; [|reflexivity].
  rewrite (Hk _ _ Hs). rewrite !IH. reflexivity.
Qed.

(** Every slot of a table of [2^n] slots lies on every probe sequence. *)
Lemma slot_in_probe (sl : list Slot) (P : Slot -> Prop) (n idx : Z) (p : nat) (s : Slot) :
  0 <= n <= 31 -> length sl = Z.to_nat (2 ^ n) -> 0 <= idx < 2 ^ n ->
  sl !! p = Some s -> P s ->
  exists k, (k < Z.to_nat (2 ^ n))%nat /\ at_pos sl P (pos (2 ^ n - 1) idx k).
Proof.
  intros Hn Hl Hi Hs He.
  pose proof (lookup_lt_Some _ _ _ Hs) as Hp. rewrite Hl in Hp.
  pose proof (Z.pow_pos_nonneg 2 n ltac:(lia) ltac:(lia)) as Hpos.
  pose proof (Z.mod_pos_bound (Z.of_nat p - idx) (2 ^ n) Hpos) as Hb.
  exists (Z.to_nat ((Z.of_nat p - idx) mod 2 ^ n)). split; [lia|].
  rewrite pos_mod by lia. rewrite Z2Nat.id by lia.
  rewrite Zplus_mod_idemp_r. replace (idx + (Z.of_nat p - idx)) with (Z.of_nat p) by lia.
  rewrite Z.mod_small by lia. unfold at_pos. rewrite Nat2Z.id. exists s. auto.
Qed.

Lemma pos_below_max (n idx : Z) (i : nat) :
  0 <= n <= 31 -> 0 <= idx < 2 ^ n -> 0 <= pos (2 ^ n - 1) idx i < UINT32_MAX.
Proof.
  intros Hn Hi. pose proof (pos_range n idx i Hn Hi).
  assert (2 ^ n <= 2 ^ 31) by (apply Z.pow_le_mono_r; lia). unfold UINT32_MAX. lia.
Qed.

Lemma at_pos_insert_nonempty (sl : list Slot) (jn : nat) (s' : Slot) (z : Z) :
  is_empty s' = false -> at_pos sl nonempty z -> at_pos (<[jn := s']> sl) nonempty z.
Proof.
  intros He' [s [Hs Hne]]. destruct (decide (Z.to_nat z = jn)) as [<-|Hn].
  - exists s'. split; [apply list_lookup_insert_eq; exact (lookup_lt_Some _ _ _ Hs)|exact He'].
  - exists s. split; [rewrite list_lookup_insert_ne by congruence; exact Hs|exact Hne].
Qed.

(** Every live slot points to an intact record below the cursor, carries
    the tag and length of the record's key, and sits on the probe
    sequence of that key with only non-[EMPTY] slots before it. *)
Definition chained (st : Hyperion) : Prop :=
  forall p s, slots_ (index_ st) !! p = Some s -> is_valid s = true ->
    exists kk vv i,
      entry_at (arena_ st) (offset s) kk vv /\ 0 <= offset s /\
      offset s + HDR + Z.of_nat (length kk) + Z.of_nat (length vv) <= offset_ (arena_ st) /\
      bval (hash_tag s) = Z.land (Z.shiftr (Index_hash kk) 24) 255 /\
      bval (key_len s) = Z.of_nat (length kk) /\
      (i < Z.to_nat (capacity_ (index_ st)))%nat /\
      pos (mask_ (index_ st)) (Z.land (Index_hash kk) (mask_ (index_ st))) i = Z.of_nat p /\
      forall i', (i' < i)%nat ->
        at_pos (slots_ (index_ st)) nonempty
          (pos (mask_ (index_ st)) (Z.land (Index_hash kk) (mask_ (index_ st))) i').

Definition store_inv (st : Hyperion) : Prop :=
  wf_store st /\ chained st /\ 0 <= offset_ (arena_ st).

Lemma chained_records (st : Hyperion) : chained st -> records_below st.
Proof.
  intros Hch p s Hs Hv. destruct (Hch p s Hs Hv) as [kk [vv [i [E [H0 [Hb _]]]]]].
  exists kk, vv. auto.
Qed.

Lemma create_inv (bytes_ slots : Z) (mmap_ok : bool) :
  0 <= slots <= UINT32_MAX -> store_inv (snd (create bytes_ slots mmap_ok)).
Proof.
  intros Hs. split; [apply create_wf, Hs|].
  unfold create, Arena_create.
  destruct (UINT32_MAX <? bytes_);
    [|destruct (negb mmap_ok)]; cbn [snd arena_ index_ offset_ Hyperion_default Arena_default Index_default];
    (split; [|lia]); intros p s Hp Hv; cbn [slots_ Index_default Index_init] in Hp.
  - discriminate Hp.
  - discriminate Hp.
  - apply repeat_lookup_inv in Hp. subst s. vm_compute in Hv. discriminate Hv.
Qed.

Lemma put_OK_store_inv (st st1 : Hyperion) (k v : list Byte.byte) :
  store_inv st -> offset_ (arena_ st) + 65800 < 2 ^ 32 ->
  put st k v = Some (OK, st1) -> store_inv st1.
Proof.
  intros [[Hsz Hwf] [Hch Hc0]] Hc1 H.
  pose proof (put_wf _ _ _ _ _ (conj Hsz Hwf) H) as Hw1.
  apply put_OK_inv in H as [Hk [Hv [j [b [Hf [Hu [_ [Hent [Hsize [Ho [H0 [Hle Hfr]]]]]]]]]]]].
  pose proof (entry_size_bounds (Z.of_nat (length k)) (Z.of_nat (length v)) ltac:(lia) ltac:(lia)) as Hes.
  assert (Ho' : offset_ (arena_ st1) =
                offset_ (arena_ st) + entry_size (Z.of_nat (length k)) (Z.of_nat (length v))).
  { rewrite Ho. unfold u32. apply Z.mod_small. unfold HDR in Hes. lia. }
  unfold Index_update in Hu. apply set_slot_Some in Hu as [Hj Hix].
  split; [exact Hw1|]. split; [|rewrite Ho'; unfold HDR in Hes; lia].
  destruct Hwf as [[_ Hnil]|[n [Hn [Hc [Hm Hl]]]]]; [rewrite Hnil in Hj; cbn in Hj; lia|].
  unfold Index_find in Hf. cbv zeta in Hf. rewrite Hc, Hm in Hf.
  destruct (find_least_pos _ _ _ _ _ _ _ _ Hn Hf) as [m [Hm1 [Hm2 [Hjr Hm3]]]].
  assert (Hne : is_empty (mkSlot (byte_of_Z (Z.shiftr (Index_hash k) 24))
                 (byte_of_Z (Z.of_nat (length k))) (u16 (Z.of_nat (length v)))
                 (offset_ (arena_ st))) = false).
  { unfold is_empty, OFF_EMPTY, HDR, UINT32_MAX in *. cbn [offset]. apply Z.eqb_neq. lia. }
  intros p s Hs Hvl. rewrite Hix in Hs |- *. cbn [slots_ capacity_ mask_] in *. rewrite Hc, Hm.
  destruct (decide (p = Z.to_nat j)) as [->|Hp].
  - rewrite list_lookup_insert_eq in Hs by lia. injection Hs as <-.
    exists k, v, m. cbn [offset hash_tag key_len].
    split; [exact Hent|]. split; [exact H0|]. split; [rewrite Ho'; lia|].
    split; [apply tag_of_hash|].
    split; [rewrite bval_byte_of_Z; apply Z.mod_small; unfold MAX_KEY in Hk; lia|].
    split; [exact Hm1|]. split; [rewrite Z2Nat.id by lia; exact Hm2|].
    intros i' Hi'. destruct (Hm3 i' Hi') as [Hneq [s0 [Hs0 [He0 _]]]].
    pose proof (pos_range n (Z.land (Index_hash k) (2 ^ n - 1)) i' Hn (home_range n _ Hn)).
    exists s0. split; [|exact He0].
    rewrite list_lookup_insert_ne by lia. exact Hs0.
  - rewrite list_lookup_insert_ne in Hs by lia.
    destruct (Hch p s Hs Hvl) as [kk [vv [i [E [Hp0 [Hb [Ht [Hkl [Hi [Hpos Hpre]]]]]]]]]].
    rewrite Hc in Hi. rewrite Hm in Hpos, Hpre.
    exists kk, vv, i.
    split; [apply (entry_at_agree (arena_ st)); [exact Hsize| |exact E]; intros x Hx; apply Hfr; left; lia|].
    split; [exact Hp0|]. split; [rewrite Ho'; unfold HDR in *; lia|].
    do 4 (split; [assumption|]).
    intros i' Hi'. apply at_pos_insert_nonempty; [exact Hne|exact (Hpre i' Hi')].
Qed.

Lemma put_not_OK_store_inv (st st1 : Hyperion) (k v : list Byte.byte) (r : Status) :
  store_inv st -> offset_ (arena_ st) + 65800 < 2 ^ 32 ->
  put st k v = Some (r, st1) -> r <> OK -> store_inv st1.
Proof.
  intros [Hw [Hch Hc0]] Hc1 H Hr.
  pose proof (put_wf _ _ _ _ _ Hw H) as Hw1.
  destruct (put_not_OK_inv _ _ _ _ _ H Hr) as [[_ ->]|[-> [Hi [_ [Hmem [Hsz [_ Ho]]]]]]];
    [split; auto|].
  destruct (put_ArenaFull_bounds _ _ _ _ H) as [Hk Hv].
  pose proof (entry_size_bounds (Z.of_nat (length k)) (Z.of_nat (length v)) ltac:(lia) ltac:(lia)) as Hes.
  assert (Ho' : offset_ (arena_ st1) =
                offset_ (arena_ st) + entry_size (Z.of_nat (length k)) (Z.of_nat (length v))).
  { rewrite Ho. unfold u32. apply Z.mod_small. unfold HDR in Hes. lia. }
  split; [exact Hw1|]. split; [|unfold HDR in Hes; lia].
  intros p s Hs Hvl. rewrite Hi in Hs |- *.
  destruct (Hch p s Hs Hvl) as [kk [vv [i [E [Hp0 [Hb Hrest]]]]]].
  exists kk, vv, i. split; [|split; [exact Hp0|split; [unfold HDR in *; lia|exact Hrest]]].
  apply (entry_at_agree (arena_ st)); [exact Hsz| |exact E]. intros x _. rewrite Hmem. reflexivity.
Qed.

Lemma del_store_inv (st st1 : Hyperion) (k : list Byte.byte) (r : Status) :
  store_inv st -> del st k = Some (r, st1) -> store_inv st1.
Proof.
  intros [Hw [Hch Hc0]] H.
  pose proof (del_wf _ _ _ _ Hw H) as Hw1.
  apply del_inv in H as [Ha [_ [j [b [_ Hcase]]]]].
  split; [exact Hw1|]. split; [|rewrite Ha; exact Hc0].
  destruct Hcase as [[_ [_ Ht]]|[_ [_ Hi]]].
  - apply Index_tombstone_Some in Ht as [sj [Hsj Hset]].
    apply set_slot_Some in Hset as [Hj Hix].
    intros p s Hs Hvl. rewrite Hix in Hs |- *. rewrite Ha. cbn [slots_ capacity_ mask_] in *.
    destruct (decide (p = Z.to_nat j)) as [->|Hp].
    + rewrite list_lookup_insert_eq in Hs by lia. injection Hs as <-. discriminate Hvl.
    + rewrite list_lookup_insert_ne in Hs by lia.
      destruct (Hch p s Hs Hvl) as [kk [vv [i [E [Hp0 [Hb [Ht [Hkl [Hi [Hpos Hpre]]]]]]]]]].
      exists kk, vv, i. do 7 (split; [assumption|]).
      intros i' Hi'. apply at_pos_insert_nonempty; [reflexivity|exact (Hpre i' Hi')].
  - intros p s Hs Hvl. rewrite Hi in Hs |- *. rewrite Ha. exact (Hch p s Hs Hvl).
Qed.

Lemma exec_store_inv (st st1 : Hyperion) (op : Op) (r : Status) :
  store_inv st -> offset_ (arena_ st) + 65800 < 2 ^ 32 ->
  exec st op = Some (r, st1) -> store_inv st1.
Proof.
  intros Hi Hc H. destruct op as [k v|k]; cbn [exec] in H.
  - destruct (decide (r = OK)) as [->|Hr].
    + exact (put_OK_store_inv _ _ _ _ Hi Hc H).
    + exact (put_not_OK_store_inv _ _ _ _ _ Hi Hc H Hr).
  - exact (del_store_inv _ _ _ _ Hi H).
Qed.

Lemma run_store_inv (st st' : Hyperion) (ops : list Op) (rs : list Status) :
  store_inv st -> no_wrap st ops -> run st ops = Some (rs, st') -> store_inv st'.
Proof.
  revert st rs. induction ops as [|op ops IH]; intros st rs Hi Hn H.
  - cbn in H. injection H as _ <-. exact Hi.
  - apply run_cons in H as [r [st1 [rs' [He [Hr _]]]]].
    destruct Hn as [Hc Hn].
    exact (IH st1 rs' (exec_store_inv _ _ _ _ Hi Hc He) (Hn _ _ He) Hr).
Qed.

Lemma no_wrap_app (st st' : Hyperion) (ops0 ops : list Op) (rs0 : list Status) :
  no_wrap st (ops0 ++ ops) -> run st ops0 = Some (rs0, st') -> no_wrap st ops0 /\ no_wrap st' ops.
Proof.
  revert st rs0. induction ops0 as [|op ops0 IH]; intros st rs0 Hn H.
  - cbn in H. injection H as _ <-. split; [exact I|exact Hn].
  - apply run_cons in H as [r [st1 [rs' [He [Hr _]]]]].
    cbn [app no_wrap] in Hn. destruct Hn as [Hc Hn].
    destruct (IH st1 rs' (Hn _ _ He) Hr) as [H1 H2].
    split; [|exact H2]. split; [exact Hc|].
    intros r' st1' He'. rewrite He in He'. injection He' as <- <-. exact H1.
Qed.

Lemma key_eq_frame (a a' : Arena) (h : Z) (k : list Byte.byte) (s : Slot) :
  (is_valid s = true -> exists kk vv, entry_at a (offset s) kk vv /\ entry_at a' (offset s) kk vv) ->
  key_eq a' h k s = key_eq a h k s.
Proof.
  intros Hr. destruct (is_valid s) eqn:Hv.
  - destruct (Hr eq_refl) as [kk [vv [E E']]].
    rewrite (key_eq_entry_val _ _ _ _ _ _ E), (key_eq_entry_val _ _ _ _ _ _ E'). reflexivity.
  - unfold key_eq. rewrite Hv. reflexivity.
Qed.

(** [get] reads the index and the arena bytes, nothing else. *)
Lemma get_same (st st1 : Hyperion) (k out : list Byte.byte) :
  index_ st1 = index_ st -> mem (arena_ st1) = mem (arena_ st) ->
  size_ (arena_ st1) = size_ (arena_ st) ->
  get st1 k out = get st k out.
Proof.
  destruct st as [[m sz c] sq ix], st1 as [[m1 sz1 c1] sq1 ix1]. cbn. intros -> -> ->.
  apply get_cursor.
Qed.

Lemma get_OK_find (st : Hyperion) (k o v : list Byte.byte) :
  get st k o = Some (OK, v) ->
  exists j, Index_find (index_ st) (Index_hash k) (Z.of_nat (length k))
              (key_eq (arena_ st) (Index_hash k) k) = Some (j, true).
Proof.
  unfold get. destruct (Index_find _ _ _ _) as [[j [|]]|]; cbn [mbind option_bind];
    intros H; [eexists; reflexivity|discriminate H|discriminate H].
Qed.

(** On a chained store, a miss means no slot is a hit for the key. *)
Lemma chained_no_hit (st : Hyperion) (k out o : list Byte.byte) :
  store_inv st -> get st k out = Some (NotFound, o) ->
  forall p s, slots_ (index_ st) !! p = Some s ->
    ~ hit (Z.land (Z.shiftr (Index_hash k) 24) 255) (Z.of_nat (length k))
        (key_eq (arena_ st) (Index_hash k) k) s.
Proof.
  intros [_ [Hch _]] Hg p s Hs Hh.
  unfold get in Hg.
  destruct (Index_find (index_ st) (Index_hash k) (Z.of_nat (length k))
              (key_eq (arena_ st) (Index_hash k) k)) as [[j b]|] eqn:Ef;
    cbn [mbind option_bind] in Hg; [|discriminate Hg].
  destruct b; [unbind Hg; unbind Hg; unbind Hg; unbind Hg; discriminate Hg|].
  pose proof Hh as [_ [_ [_ Hk]]].
  destruct (Hch p s Hs (key_eq_true_valid _ _ _ _ Hk))
    as [kk [vv [i [E [_ [_ [_ [_ [Hi [Hpos Hpre]]]]]]]]]].
  pose proof (key_eq_true_key _ _ _ _ _ _ E Hk) as ->.
  unfold Index_find in Ef. cbv zeta in Ef.
  apply (find_loop_false_no_hit _ _ _ _ _ _ _ _ _ i Ef Hi Hpre).
  rewrite Hpos. exists s. rewrite Nat2Z.id. auto.
Qed.

(** On a chained store with no hit for the key, [get] misses. *)
Lemma no_hit_get (st : Hyperion) (k out : list Byte.byte) :
  store_inv st ->
  (forall p s, slots_ (index_ st) !! p = Some s ->
     ~ hit (Z.land (Z.shiftr (Index_hash k) 24) 255) (Z.of_nat (length k))
         (key_eq (arena_ st) (Index_hash k) k) s) ->
  get st k out = Some (NotFound, out).
Proof.
  intros [[_ Hwf] [Hch _]] Hno.
  assert (Hf : exists j, Index_find (index_ st) (Index_hash k) (Z.of_nat (length k))
                 (key_eq (arena_ st) (Index_hash k) k) = Some (j, false)).
  { unfold Index_find. cbv zeta.
    destruct Hwf as [[Hc _]|[n [Hn [Hc [Hm Hl]]]]].
    - rewrite Hc. eexists. reflexivity.
    - rewrite Hc, Hm. apply find_loop_no_hit.
      + intros p s Hs. split; [|exact (Hno p s Hs)].
        destruct (is_valid s) eqn:Hv.
        * destruct (Hch p s Hs Hv) as [kk [vv [i [E _]]]].
          rewrite (key_eq_entry_val _ _ _ _ _ _ E). discriminate.
        * unfold key_eq. rewrite Hv. discriminate.
      + intros i Hi. pose proof (pos_range n _ i Hn (home_range n (Index_hash k) Hn)).
        apply lookup_lt_is_Some_2. rewrite Hl. lia. }
  destruct Hf as [j Hf]. unfold get. rewrite Hf. reflexivity.
Qed.

(** One operation on [k1] keeps a miss of [k2] a miss. *)
Lemma step_NotFound (st st1 : Hyperion) (op : Op) (r : Status) (k2 out : list Byte.byte) :
  store_inv st -> offset_ (arena_ st) + 65800 < 2 ^ 32 -> op_key op <> k2 ->
  get st k2 out = Some (NotFound, out) -> exec st op = Some (r, st1) ->
  get st1 k2 out = Some (NotFound, out).
Proof.
  intros Hi Hc Hne Hg He.
  pose proof (exec_store_inv _ _ _ _ Hi Hc He) as Hi1.
  pose proof (chained_no_hit _ _ _ _ Hi Hg) as Hno.
  destruct Hi as [_ [Hch _]].
  destruct op as [k1 v1|k1]; cbn [exec op_key] in He, Hne.
  - destruct (decide (r = OK)) as [->|Hr].
    + apply no_hit_get; [exact Hi1|].
      apply put_OK_inv in He
        as [Hk [Hv [j [b [_ [Hu [_ [Hent [Hsize [_ [H0 [Hle Hfr]]]]]]]]]]]].
      unfold Index_update in Hu. apply set_slot_Some in Hu as [Hj Hix].
      intros p s Hs [He [Ht [Hf Hk2]]]. rewrite Hix in Hs. cbn [slots_] in Hs.
      destruct (decide (p = Z.to_nat j)) as [->|Hp].
      * rewrite list_lookup_insert_eq in Hs by lia. injection Hs as <-.
        rewrite (key_eq_entry_val (arena_ st1) (mkSlot _ _ _ (offset_ (arena_ st))) k1 v1 _ k2 Hent) in Hk2.
        rewrite bool_decide_eq_false_2 in Hk2 by exact Hne. rewrite andb_false_r in Hk2.
        discriminate Hk2.
      * rewrite list_lookup_insert_ne in Hs by lia.
        apply (Hno p s Hs). split; [exact He|]. split; [exact Ht|]. split; [exact Hf|].
        rewrite <- Hk2. symmetry. apply key_eq_frame. intros Hvl.
        destruct (Hch p s Hs Hvl) as [kk [vv [i [E [Hp0 [Hb _]]]]]].
        exists kk, vv. split; [exact E|].
        apply (entry_at_agree (arena_ st)); [exact Hsize| |exact E].
        intros x Hx. apply Hfr. left. lia.
    + destruct (put_not_OK_inv _ _ _ _ _ He Hr) as [[_ ->]|[_ [Hix [_ [Hm [Hs _]]]]]];
        [exact Hg|].
      rewrite (get_same st st1); assumption.
  - apply del_inv in He as [Ha [_ [j [b [_ Hcase]]]]].
    destruct Hcase as [[_ [_ Ht]]|[_ [_ Hix]]].
    + apply no_hit_get; [exact Hi1|].
      apply Index_tombstone_Some in Ht as [sj [Hsj Hset]].
      apply set_slot_Some in Hset as [Hj Hix].
      intros p s Hs [He [Ht [Hf Hk2]]]. rewrite Hix in Hs. cbn [slots_] in Hs.
      destruct (decide (p = Z.to_nat j)) as [->|Hp].
      * rewrite list_lookup_insert_eq in Hs by lia. injection Hs as <-. discriminate Ht.
      * rewrite list_lookup_insert_ne in Hs by lia. rewrite Ha in Hk2.
        exact (Hno p s Hs (conj He (conj Ht (conj Hf Hk2)))).
    + rewrite (get_same st st1); [exact Hg|exact Hix|rewrite Ha; reflexivity|rewrite Ha; reflexivity].
Qed.

(** One operation on [k1] keeps a hit of [k2], when a [put] of [k1]
    finds a free slot or [k1] itself. *)
Lemma step_OK (st st1 : Hyperion) (op : Op) (r : Status) (k2 out v2 : list Byte.byte) :
  store_inv st -> offset_ (arena_ st) + 65800 < 2 ^ 32 -> op_key op <> k2 ->
  get st k2 out = Some (OK, v2) -> (is_put op = true -> has_free st \/ present st (op_key op)) ->
  exec st op = Some (r, st1) -> get st1 k2 out = Some (OK, v2).
Proof.
  intros [[Hsz Hwf] [Hch Hc0]] Hc Hne Hget Hside Hex.
  pose proof (chained_records _ Hch) as Hrb. unfold records_below in Hrb.
  destruct st as [a sq ix]. cbn [arena_ index_ size_ offset_] in *.
  destruct op as [k1 v1|k1]; cbn [exec op_key is_put] in Hex, Hne, Hside.
  - specialize (Hside eq_refl).
    destruct (decide (r = OK)) as [->|Hr].
    + apply put_OK_inv in Hex
        as [Hk [Hv [j [b [Hf [Hu [_ [Hent [Hsize [_ [H0 [Hle Hfr]]]]]]]]]]]].
      destruct st1 as [a1 sq1 ix1]. cbn [arena_ index_ seq_ size_ offset_ mem] in *.
      unfold Index_update in Hu. apply set_slot_Some in Hu as [Hj ->].
      assert (Hrb' : forall p s, slots_ ix !! p = Some s -> is_valid s = true ->
                exists kk vv, entry_at a (offset s) kk vv /\ entry_at a1 (offset s) kk vv).
      { intros p s Hs Hvl. destruct (Hrb p s Hs Hvl) as [kk [vv [E [Ho Hb]]]].
        exists kk, vv. split; [exact E|].
        apply (entry_at_agree a); [exact Hsize| |exact E].
        intros x Hx. apply Hfr. left. lia. }
      apply (get_frame a a1 ix _ sq _ k2 out v2 (Z.to_nat j)); cbn [capacity_ mask_ slots_];
        [reflexivity|reflexivity| | | | |exact Hget].
      * intros p Hp. apply list_lookup_insert_ne. lia.
      * intros p s _ Hs Hvl. exact (Hrb' p s Hs Hvl).
      * (* the slot [put] writes held no record of [k2] *)
        intros s Hs [He [Ht [_ Hk2]]]. destruct b.
        -- unfold Index_find in Hf. cbv zeta in Hf.
           destruct (find_loop_true_hit _ _ _ _ _ _ _ _ _ Hf) as [s1 [Hs1 [_ [_ [_ Hk1]]]]].
           rewrite Hs in Hs1. injection Hs1 as <-.
           destruct (Hrb' _ _ Hs (key_eq_true_valid _ _ _ _ Hk2)) as [kk [vv [E E1]]].
           apply Hne. rewrite <- (key_eq_true_key _ _ _ _ _ _ E1 Hk1).
           exact (key_eq_true_key _ _ _ _ _ _ E Hk2).
        -- destruct Hwf as [[_ Hnil]|[n [Hn [Hc' [Hm Hl]]]]];
             [rewrite Hnil in Hj; cbn in Hj; lia|].
           unfold Index_find in Hf. cbv zeta in Hf.
           destruct Hside as [[p0 [s0 [Hs0 Hfree]]]|[o [v Hg1]]].
           ++ rewrite Hc', Hm in Hf.
              pose proof (home_range n (Index_hash k1) Hn) as Hh.
              destruct (slot_in_probe _ (fun s => is_empty s = true \/ is_tombstone s = true) n _ p0 s0 Hn Hl Hh Hs0 Hfree) as [kp [Hkp Hfp]].
              destruct (find_loop_false_free _ _ _ _ _ _ _ _ _ kp
                          (fun i _ => pos_below_max n _ i Hn Hh)
                          (fun H => False_rect _ (H eq_refl)) Hkp Hfp Hf) as [s1 [Hs1 Hs1']].
              rewrite Hs in Hs1. injection Hs1 as <-. destruct Hs1'; congruence.
           ++ (* [k1] is present: [find] on the new arena still finds it *)
              destruct (get_OK_find _ _ _ _ Hg1) as [j0 Hf0].
              cbn [arena_ index_] in Hf0. unfold Index_find in Hf0. cbv zeta in Hf0.
              rewrite (find_loop_keq_ext _ _ _ _ (key_eq a (Index_hash k1) k1)) in Hf.
              ** rewrite Hf0 in Hf. discriminate Hf.
              ** intros p s2 Hs2. apply key_eq_frame. intros Hvl. exact (Hrb' p s2 Hs2 Hvl).
      * (* the new slot holds the record of [k1] *)
        eexists. split; [apply list_lookup_insert_eq; lia|].
        unfold is_empty, is_tombstone, OFF_EMPTY, UINT32_MAX in *. cbn [offset].
        split; [apply Z.eqb_neq; cbn [offset]; unfold OFF_EMPTY, HDR in *; lia|].
        intros _ _. rewrite (key_eq_entry_val a1 (mkSlot _ _ _ (offset_ a)) k1 v1 _ k2 Hent).
        rewrite bool_decide_eq_false_2 by exact Hne. rewrite andb_false_r. reflexivity.
    + destruct (put_not_OK_inv _ _ _ _ _ Hex Hr) as [[_ ->]|[_ [Hix [_ [Hm [Hs _]]]]]]; [exact Hget|].
      rewrite (get_same (mkHyperion a sq ix) st1); assumption.
  - apply del_inv in Hex as [Ha [_ [j [b [Hf Hcase]]]]].
    destruct st1 as [a1 sq1 ix1]. cbn [arena_ index_ seq_] in *. subst a1.
    destruct Hcase as [[-> [-> Ht]]|[-> [-> ->]]].
    + apply Index_tombstone_Some in Ht as [sj [Hsj Hset]].
      apply set_slot_Some in Hset as [Hj ->].
      apply (get_frame a a ix _ sq _ k2 out v2 (Z.to_nat j)); cbn [capacity_ mask_ slots_];
        [reflexivity|reflexivity| | | | |exact Hget].
      * intros p Hp. apply list_lookup_insert_ne. lia.
      * intros p s _ Hs Hv. destruct (Hrb p s Hs Hv) as [kk [vv [E _]]]. exists kk, vv. auto.
      * (* the deleted slot held the record of [k1] *)
        intros s Hs [He [Ht [_ Hk2]]].
        unfold Index_find in Hf. cbv zeta in Hf.
        destruct (find_loop_true_hit _ _ _ _ _ _ _ _ _ Hf) as [s1 [Hs1 [_ [_ [_ Hk1]]]]].
        rewrite Hs in Hs1. injection Hs1 as <-.
        destruct (Hrb _ _ Hs (key_eq_true_valid _ _ _ _ Hk2)) as [kk [vv [E _]]].
        apply Hne. rewrite <- (key_eq_true_key _ _ _ _ _ _ E Hk1).
        exact (key_eq_true_key _ _ _ _ _ _ E Hk2).
      * eexists. split; [apply list_lookup_insert_eq; lia|].
        split; [reflexivity|]. intros Ht. discriminate Ht.
    + exact Hget.
Qed.

(** After an operation on [k1], the index has a free slot or holds [k1]. *)
Lemma step_side (st st1 : Hyperion) (op : Op) (r : Status) :
  wf_store st -> (has_free st \/ present st (op_key op)) ->
  exec st op = Some (r, st1) -> has_free st1 \/ present st1 (op_key op).
Proof.
  intros Hw Hside Hex. destruct op as [k1 v1|k1]; cbn [exec op_key] in *.
  - destruct (decide (r = OK)) as [->|Hr].
    + right. exists [], v1. exact (put_get_wf _ _ _ _ [] Hw Hex).
    + destruct (put_not_OK_inv _ _ _ _ _ Hex Hr) as [[_ ->]|[_ [Hix [_ [Hm [Hs _]]]]]];
        [exact Hside|].
      destruct Hside as [[p [s Hs']]|[o [v Hg]]].
      * left. exists p, s. rewrite Hix. exact Hs'.
      * right. exists o, v. rewrite (get_same st st1); assumption.
  - pose proof Hex as Hex'. apply del_inv in Hex as [Ha [_ [j [b [_ Hcase]]]]].
    destruct Hcase as [[_ [_ Ht]]|[_ [_ Hix]]].
    + left. apply Index_tombstone_Some in Ht as [sj [Hsj Hset]].
      apply set_slot_Some in Hset as [Hj Hix].
      exists (Z.to_nat j), (make_tombstone sj). rewrite Hix. cbn [slots_].
      split; [apply list_lookup_insert_eq; lia|right; reflexivity].
    + destruct Hside as [[p [s Hs']]|[o [v Hg]]].
      * left. exists p, s. rewrite Hix. exact Hs'.
      * right. exists o, v.
        rewrite (get_same st st1); [exact Hg|exact Hix|rewrite Ha; reflexivity|rewrite Ha; reflexivity].
Qed.

Lemma ops_frame (st st' : Hyperion) (ops : list Op) (rs : list Status)
    (k1 k2 out : list Byte.byte) (r2 : Status) (v2 : list Byte.byte) :
  store_inv st -> no_wrap st ops -> Forall (fun op => op_key op = k1) ops -> k1 <> k2 ->
  get st k2 out = Some (r2, v2) ->
  (r2 = OK -> Exists (fun op => is_put op = true) ops -> has_free st \/ present st k1) ->
  run st ops = Some (rs, st') -> get st' k2 out = Some (r2, v2).
Proof.
  revert st rs. induction ops as [|op ops IH]; intros st rs Hi Hn Hk Hne Hg Hside H.
  - cbn in H. injection H as _ <-. exact Hg.
  - apply run_cons in H as [r [st1 [rs' [He [Hr _]]]]].
    destruct Hn as [Hc Hn]. apply Forall_cons in Hk as [Hk1 Hk].
    pose proof (exec_store_inv _ _ _ _ Hi Hc He) as Hi1.
    assert (Hne' : op_key op <> k2) by (rewrite Hk1; exact Hne).
    destruct (get_status _ _ _ _ _ Hg) as [->|[-> ->]].
    + assert (Hs : is_put op = true -> has_free st \/ present st (op_key op)).
      { intros Hp. rewrite Hk1. apply (Hside eq_refl). apply Exists_cons_hd. exact Hp. }
      apply (IH st1 rs' Hi1 (Hn _ _ He) Hk Hne); [| |exact Hr].
      * exact (step_OK _ _ _ _ _ _ _ Hi Hc Hne' Hg Hs He).
      * intros _ Hex. rewrite <- Hk1. apply (step_side st st1 op r (proj1 Hi)); [|exact He].
        rewrite Hk1. apply (Hside eq_refl). apply Exists_cons_tl. exact Hex.
    + apply (IH st1 rs' Hi1 (Hn _ _ He) Hk Hne); [| |exact Hr].
      * exact (step_NotFound _ _ _ _ _ _ Hi Hc Hne' Hg He).
      * intros Hc'. discriminate Hc'.
Qed.

(** Claim C4 (independence), amended.  On a store reached from [create]
    by any operations [ops0], a sequence [ops] of [put]/[delete]
    operations on a key [k1] leaves the result of [get(k2)] unchanged for
    every other key [k2], provided the arena cursor stays clear of the
    32-bit wrap before each operation ([no_wrap]).  A miss of [k2] stays a
    miss, and [delete]s keep a hit, with no further condition; if [k2] is
    present and [ops] contains a [put], the index must also have an
    [EMPTY] slot or a tombstone, or hold [k1], before the sequence (see
    the saturated-table counterexample above). *)
Theorem other_key_get_frame (bytes_ slots : Z) (mmap_ok : bool) (ops0 ops : list Op)
    (rs0 rs : list Status) (st st' : Hyperion) (k1 k2 out : list Byte.byte)
    (r2 : Status) (v2 : list Byte.byte) :
  0 <= slots <= UINT32_MAX ->
  no_wrap (snd (create bytes_ slots mmap_ok)) (ops0 ++ ops) ->
  run (snd (create bytes_ slots mmap_ok)) ops0 = Some (rs0, st) ->
  Forall (fun op => op_key op = k1) ops -> k1 <> k2 ->
  get st k2 out = Some (r2, v2) ->
  (r2 = OK -> Exists (fun op => is_put op = true) ops -> has_free st \/ present st k1) ->
  run st ops = Some (rs, st') ->
  get st' k2 out = Some (r2, v2).
Proof.
  intros Hs Hn H0 Hk Hne Hg Hside H.
  destruct (no_wrap_app _ _ _ _ _ Hn H0) as [Hn0 Hn1].
  pose proof (run_store_inv _ _ _ _ (create_inv bytes_ slots mmap_ok Hs) Hn0 H0) as Hi.
  exact (ops_frame _ _ _ _ _ _ _ _ _ Hi Hn1 Hk Hne Hg Hside H).
Qed.

(** Evaluate [no_wrap] along a concrete run. *)
Ltac no_wrap_steps :=
  repeat (cbn [no_wrap app];
          split; [vm_compute; reflexivity|];
          let r := fresh "r" in let st := fresh "st" in let He := fresh "He" in
          intros r st He; vm_compute in He; injection He as <- <-);
  exact I.

(** [b] stays present in [st_w] through [put(a)], [delete(a)], [put(a)]. *)
Lemma other_key_get_frame_witness :
  get st_w (bytes "b") [] = Some (OK, bytes "2") /\
  run st_w ops_a = Some ([OK; OK; OK], after_run st_w ops_a) /\
  get (after_run st_w ops_a) (bytes "b") [] = Some (OK, bytes "2").
Proof.
  assert (Hs : 0 <= 8 <= UINT32_MAX) by (unfold UINT32_MAX; lia).
  assert (Hn : no_wrap (snd (create 1024 8 true)) (ops_small ++ ops_a)) by no_wrap_steps.
  assert (H0 : run (snd (create 1024 8 true)) ops_small = Some ([OK; OK; OK], st_w))
    by (vm_compute; reflexivity).
  assert (Hk : Forall (fun op => op_key op = bytes "a") ops_a) by (repeat constructor).
  assert (Hne : bytes "a" <> bytes "b") by discriminate.
  assert (Hg : get st_w (bytes "b") [] = Some (OK, bytes "2")) by (vm_compute; reflexivity).
  assert (Hside : OK = OK -> Exists (fun op => is_put op = true) ops_a ->
                   has_free st_w \/ present st_w (bytes "a")).
  { intros _ _. left. exists O, Slot_empty. rewrite st_w_slots. split; [reflexivity|left; reflexivity]. }
  assert (Hr : run st_w ops_a = Some ([OK; OK; OK], after_run st_w ops_a))
    by (vm_compute; reflexivity).
  split; [exact Hg|]. split; [exact Hr|].
  exact (other_key_get_frame 1024 8 true ops_small ops_a _ _ _ _ _ _ _ _ _
           Hs Hn H0 Hk Hne Hg Hside Hr).
Defined.
